(** * KmerComm: distributed FASTA ingestion and k-mer routing

    A shallow embedding of [FastaIndex.cpp] (both revisions kept in the
    repository), [KmerComm.cpp] and [main.cpp], with the properties the
    specification states about them and further properties of the code.

    Conventions.  C++ integers are values of [Z]; every conversion to a
    fixed-width type is written with the wrap-around of that type.  A
    [Vector<char>] or [String] is a [list ascii], a [Vector<uint8_t>] a
    [list Byte.byte].  Undefined behaviour and uncaught exceptions of the
    C++ program are the [Fault] outcomes of the embedding. *)

From Stdlib Require Import ZArith Ascii String List Lia.
From Equations.Prop Require Import Equations Logic.
From stdpp Require Import base list gmap strings.

(** ** Fixed-width integers *)

Module CInt.
Local Open Scope Z_scope.

Definition wrap_unsigned (w z : Z) : Z := z mod 2 ^ w.
Definition wrap_signed (w z : Z) : Z :=
  (z + 2 ^ (w - 1)) mod 2 ^ w - 2 ^ (w - 1).

(** [int] *)
Definition to_int : Z → Z := wrap_signed 32.
(** [MPI_Count], [MPI_Aint], [MPI_Offset], [ptrdiff_t], [int64_t], [signed long] *)
Definition to_i64 : Z → Z := wrap_signed 64.
(** [unsigned long], [size_t], [uint64_t] *)
Definition to_u64 : Z → Z := wrap_unsigned 64.

Definition INT_MAX : Z := 2 ^ 31 - 1.
Definition I64_MAX : Z := 2 ^ 63 - 1.
Definition ULONG_MAX : Z := 2 ^ 64 - 1.

End CInt.
Import CInt.

(** ** Outcomes

    The program has no error handling of its own: no stream state and no
    MPI return code is tested.  What remains are the ways a C++ execution
    stops being defined. *)

Inductive fault : Set :=
| EmptyVector       (* front() or back() of an empty vector *)
| DivideByZero      (* integer division by zero *)
| OutOfBounds       (* read or write outside an allocated buffer *)
| BadAlloc          (* allocation of more than PTRDIFF_MAX elements *)
| AssertionFailed.  (* assert(...) evaluated to false *)

Inductive outcome (A : Type) : Type :=
| Ok (a : A)
| Fault (f : fault).
Arguments Ok {A} a.
Arguments Fault {A} f.

Global Instance outcome_ret : MRet outcome := λ A a, Ok a.
Global Instance outcome_bind : MBind outcome := λ A B k m,
  match m with Ok a => k a | Fault f => Fault f end.
Global Instance outcome_fmap : FMap outcome := λ A B g m,
  match m with Ok a => Ok (g a) | Fault f => Fault f end.

Definition failed {A} (m : outcome A) : Prop :=
  match m with Ok _ => False | Fault _ => True end.

(** [for (i = 0; i < n; ++i) body(i)] collecting one result per index. *)
Fixpoint for_each {A B} (body : A → outcome B) (l : list A) : outcome (list B) :=
  match l with
  | [] => Ok []
  | x :: l' => y ← body x; ys ← for_each body l'; Ok (y :: ys)
  end.

(** ** Vectors *)

Definition front {A} (v : list A) : outcome A :=
  match v with [] => Fault EmptyVector | x :: _ => Ok x end.

Definition back {A} (v : list A) : outcome A :=
  match last v with None => Fault EmptyVector | Some x => Ok x end.

(** [Vector<T> v(n, x)] with [n] converted to [size_t]. *)
Definition vector_new {A} (n : Z) (x : A) : outcome (list A) :=
  if bool_decide (to_u64 n ≤ I64_MAX)%Z
  then Ok (replicate (Z.to_nat (to_u64 n)) x)
  else Fault BadAlloc.

(** [std::fill_n(v.begin(), n, x)] for [n] at most [v.size()]. *)
Definition fill_n {A} (v : list A) (n : nat) (x : A) : list A :=
  replicate n x ++ drop n v.

(** [v.back() = x] on a non-empty vector. *)
Definition set_back {A} (v : list A) (x : A) : list A :=
  <[pred (length v) := x]> v.

(** [std::partial_sum(first, last, out)] on a vector whose element type
    has the conversion [cv]: the list of written values. *)
Fixpoint partial_sum_from (cv : Z → Z) (acc : Z) (l : list Z) : list Z :=
  match l with
  | [] => []
  | x :: l' => let acc' := cv (acc + x)%Z in acc' :: partial_sum_from cv acc' l'
  end.

Definition partial_sum (cv : Z → Z) (l : list Z) : list Z :=
  match l with
  | [] => []
  | x :: l' => x :: partial_sum_from cv x l'
  end.

(** [d.front() = 0; std::partial_sum(c.begin(), c.end()-1, d.begin()+1)]
    on vectors of the same positive size. *)
Definition exclusive_displs (cv : Z → Z) (c : list Z) : list Z :=
  0%Z :: partial_sum cv (removelast c).

(** The sum of a vector of counts, without any wrap-around. *)
Definition sum_Z (l : list Z) : Z := foldr Z.add 0%Z l.
Arguments sum_Z : simpl never.

(** ** Input streams ([std::ifstream], [std::istringstream]) *)

Record stream : Set := Stream {
  buf : list ascii;      (* characters not yet extracted *)
  eofbit : bool;
  failbit : bool }.

Definition good (s : stream) : bool := negb (eofbit s) && negb (failbit s).

Definition set_failbit (s : stream) : stream :=
  {| buf := buf s; eofbit := eofbit s; failbit := true |}.

(** [std::ifstream filestream(name)]: a file that cannot be opened
    ([None]) leaves the stream with [failbit] set. *)
Definition ifstream (file : option (list ascii)) : stream :=
  match file with
  | Some content => {| buf := content; eofbit := false; failbit := false |}
  | None => {| buf := []; eofbit := false; failbit := true |}
  end.

Definition istringstream (line : list ascii) : stream :=
  {| buf := line; eofbit := false; failbit := false |}.

Definition LF : ascii := ascii_of_nat 10.

Definition is_space (c : ascii) : bool :=
  let n := nat_of_ascii c in
  Nat.eqb n 32 || (Nat.leb 9 n && Nat.leb n 13).

Definition is_digit (c : ascii) : bool :=
  let n := nat_of_ascii c in
  Nat.leb 48 n && Nat.leb n 57.

Fixpoint skip_while (p : ascii → bool) (s : list ascii) : list ascii :=
  match s with
  | c :: s' => if p c then skip_while p s' else s
  | [] => []
  end.

Fixpoint scan_while (p : ascii → bool) (s : list ascii) : list ascii :=
  match s with
  | c :: s' => if p c then c :: scan_while p s' else []
  | [] => []
  end.

(** The characters before the first line feed, and what follows it;
    [None] when the end of the input comes first. *)
Fixpoint until_newline (s : list ascii) : list ascii * option (list ascii) :=
  match s with
  | [] => ([], None)
  | c :: s' =>
      if Ascii.eqb c LF then ([], Some s')
      else let '(l, rest) := until_newline s' in (c :: l, rest)
  end.

(** [std::getline(ins, line)]: the delimiter is extracted and dropped;
    reaching the end sets [eofbit], and [failbit] too when nothing was
    extracted.  On a stream that is not good the line is left as it is. *)
Definition getline (ins : stream) (line : list ascii) : stream * list ascii :=
  if good ins then
    match until_newline (buf ins) with
    | (l, Some rest) => ({| buf := rest; eofbit := false; failbit := false |}, l)
    | (l, None) =>
        ({| buf := []; eofbit := true;
            failbit := match l with [] => true | _ => false end |}, l)
    end
  else (set_failbit ins, line).

(** [ins >> str] for a [String]. *)
Definition extract_string (ins : stream) (str : list ascii) : stream * list ascii :=
  if good ins then
    match skip_while is_space (buf ins) with
    | [] => ({| buf := []; eofbit := true; failbit := true |}, str)
    | b =>
        let tok := scan_while (λ c, negb (is_space c)) b in
        let rest := skip_while (λ c, negb (is_space c)) b in
        ({| buf := rest; eofbit := match rest with [] => true | _ => false end;
            failbit := false |}, tok)
    end
  else (set_failbit ins, str).

Definition digit_value (c : ascii) : Z := (Z.of_nat (nat_of_ascii c) - 48)%Z.

Definition decimal_value (ds : list ascii) : Z :=
  fold_left (λ v c, (10 * v + digit_value c)%Z) ds 0%Z.

Definition strip_sign (b : list ascii) : bool * list ascii :=
  match b with
  | c :: b' =>
      if Ascii.eqb c "-"%char then (true, b')
      else if Ascii.eqb c "+"%char then (false, b')
      else (false, b)
  | [] => (false, [])
  end.

(** [ins >> x] for an [unsigned long] (or [size_t]) [x]: a failed sentry
    leaves [x] untouched, a failed conversion stores 0, an overflow
    stores the largest value; both set [failbit]. *)
Definition extract_ulong (ins : stream) (x : Z) : stream * Z :=
  if good ins then
    match skip_while is_space (buf ins) with
    | [] => ({| buf := []; eofbit := true; failbit := true |}, x)
    | b =>
        let '(negative, b1) := strip_sign b in
        let ds := scan_while is_digit b1 in
        let rest := skip_while is_digit b1 in
        let at_end := match rest with [] => true | _ => false end in
        match ds with
        | [] => ({| buf := rest; eofbit := at_end; failbit := true |}, 0%Z)
        | _ =>
            let v := decimal_value ds in
            if bool_decide (ULONG_MAX < v)%Z
            then ({| buf := rest; eofbit := at_end; failbit := true |}, ULONG_MAX)
            else ({| buf := rest; eofbit := at_end; failbit := false |},
                  if negative then to_u64 (- v) else v)
        end
    end
  else (set_failbit ins, x).

(** ** The faidx record and its parser *)

Record faidx_record_t : Set := FaidxRecord {
  len : Z;     (* unsigned long / size_t *)
  pos : Z;
  bases : Z }.

(** [GetFaidxRecord(line, names)].  The local [record] is not
    initialised; [indet] stands for the indeterminate contents it starts
    with, which every field that is not extracted keeps. *)
Definition GetFaidxRecord (indet : faidx_record_t) (line : list ascii)
    (names : list (list ascii)) : faidx_record_t * list (list ascii) :=
  let '(ins, name) := extract_string (istringstream line) [] in
  let '(ins, rlen) := extract_ulong ins (len indet) in
  let '(ins, rpos) := extract_ulong ins (pos indet) in
  let '(ins, rbases) := extract_ulong ins (bases indet) in
  ({| len := rlen; pos := rpos; bases := rbases |}, names ++ [name]).

(** The record [GetFaidxRecord] returns does not depend on the names
    collected so far. *)
Definition parse_record (indet : faidx_record_t) (line : list ascii) : faidx_record_t :=
  (GetFaidxRecord indet line []).1.

(** The progress measure of the [while (std::getline(...))] loop. *)
Definition lines_left (ins : stream) : nat :=
  length (buf ins) + (if good ins then 1 else 0).

(** The loop of rank 0 in the constructor:
    [while (std::getline(filestream, line)) root_records.push_back(GetFaidxRecord(line, root_names));]
    The [n]-th call of [GetFaidxRecord] starts from the indeterminate
    record [indet n]. *)
Equations? read_faidx (indet : nat → faidx_record_t) (filestream : stream)
    (line : list ascii) (n : nat)
    (root_records : list faidx_record_t) (root_names : list (list ascii)) :
    list faidx_record_t * list (list ascii)
    by wf (lines_left filestream) lt :=
  read_faidx indet filestream line n root_records root_names
    with inspect (failbit (getline filestream line).1) := {
    | exist _ true _ => (root_records, root_names)
    | exist _ false Hgood =>
        let r := GetFaidxRecord (indet n) (getline filestream line).2 root_names in
        read_faidx indet (getline filestream line).1 (getline filestream line).2
          (S n) (root_records ++ [r.1]) r.2 }.
Proof.
  revert Hgood. unfold getline, lines_left.
  destruct (good filestream) eqn:Hg; cbn; [|done].
  destruct (until_newline (buf filestream)) as [l [rest|]] eqn:Hu; cbn; [|lia].
  intros _. enough (length rest < length (buf filestream)) by lia.
  clear Hg. revert l rest Hu.
  induction (buf filestream) as [|c s IH]; intros l rest; cbn; [done|].
  destruct (Ascii.eqb c LF).
  - intros [= _ <-]. lia.
  - destruct (until_newline s) as [l' [r'|]]; intros [= _ <-].
    specialize (IH _ _ eq_refl). lia.
Qed.

(** The lines of a text, in the words of the specification of the
    [.fai] format ("each line corresponds to one sequence"): the runs of
    characters other than the line feed, each ended by a line feed or by
    the end of the text; an empty run at the end of the text is not a
    line. *)
Fixpoint fai_lines (content : list ascii) : list (list ascii) :=
  match content with
  | [] => []
  | c :: rest =>
      if Ascii.eqb c LF then [] :: fai_lines rest
      else match fai_lines rest with
           | [] => [[c]]
           | l :: ls => (c :: l) :: ls
           end
  end.

(** ** The constructor [FastaIndex::FastaIndex]

    Both revisions of [FastaIndex.cpp] hold the same constructor; they
    differ in the name of the vector rank 0 parses into ([root_records],
    [allrecords]) and in the spelling of the MPI calls. *)

(** What rank 0 holds after its parsing loop. *)
Definition root_parse (indet : nat → faidx_record_t) (fai : option (list ascii)) :
    list faidx_record_t * list (list ascii) :=
  read_faidx indet (ifstream fai) [] 0 [] [].

(** [sendcounts] as rank 0 leaves it:
    [[
    sendcounts.resize(nprocs);
    MPI_Count records_per_proc = num_records / nprocs;
    std::fill_n(sendcounts.begin(), nprocs-1, records_per_proc);
    sendcounts.back() = num_records - (nprocs-1) * records_per_proc;
    ]] *)
Definition scatter_sendcounts (num_records : Z) (nprocs : nat) : list Z :=
  let sendcounts := replicate nprocs 0%Z in
  let records_per_proc := to_i64 (num_records ÷ Z.of_nat nprocs) in
  let sendcounts := fill_n sendcounts (nprocs - 1) records_per_proc in
  set_back sendcounts
    (to_i64 (num_records - to_i64 ((Z.of_nat nprocs - 1) * records_per_proc))).

(** What [MPI_Scatterv] delivers to rank [r]: [sendcounts[r]] elements
    of the root's buffer, starting at element [displs[r]]. *)
Definition scatterv {A} (sendbuf : list A) (sendcounts displs : list Z) (r : nat) :
    outcome (list A) :=
  match sendcounts !! r, displs !! r with
  | Some c, Some d =>
      if bool_decide (0 ≤ c ∧ 0 ≤ d ∧ d + c ≤ Z.of_nat (length sendbuf))%Z
      then Ok (take (Z.to_nat c) (drop (Z.to_nat d) sendbuf))
      else Fault OutOfBounds
  | _, _ => Fault OutOfBounds
  end.

(** The scatter of the parsed records: the slice every rank ends up with
    in [records] ([myrecords] in the later revision), listed by rank.
    [displs.front()] on rank 0 needs at least one process. *)
Definition scatter_records (root_records : list faidx_record_t) (nprocs : nat) :
    outcome (list (list faidx_record_t)) :=
  let num_records := to_i64 (Z.of_nat (length root_records)) in
  _ ← front (replicate nprocs 0%Z);
  let sendcounts := scatter_sendcounts num_records nprocs in
  let displs := exclusive_displs to_i64 sendcounts in
  for_each (scatterv root_records sendcounts displs) (seq 0 nprocs).

Definition FastaIndex (indet : nat → faidx_record_t) (fai : option (list ascii))
    (nprocs : nat) : outcome (list (list faidx_record_t)) :=
  scatter_records (root_parse indet fai).1 nprocs.

(** The last size is within one of every size. *)
Definition balanced_last (sizes : list nat) : Prop :=
  ∀ x y, last sizes = Some x → y ∈ sizes → x ≤ y + 1 ∧ y ≤ x + 1.

(** ** The read materializer

    [FastaIndex::GetMyReads] of [FastaIndex.cpp] and
    [FastaIndex::GetReadsFromRecords] of the later revision share their
    text up to two places: the clamp of [endpos] against the file size
    and the initial value of the fold that computes [maxlen]. *)

(** [MPI_File_read_at_all(fh, offset, buf, count, MPI_CHAR, ...)]: the
    bytes of the file from [offset] on, at most [count] of them, land at
    the start of [buf]; a negative offset is an error the callers ignore. *)
Definition file_read_at (fasta : list ascii) (offset count : Z)
    (buffer : list ascii) : list ascii :=
  if bool_decide (offset < 0)%Z then buffer
  else
    let data := take (Z.to_nat count) (drop (Z.to_nat offset) fasta) in
    data ++ drop (length data) buffer.

(** [std::memcpy(dst + d, src + s, cnt)] with both ranges inside their
    buffers. *)
Definition memcpy {A} (dst : list A) (d : Z) (src : list A) (s cnt : Z) :
    outcome (list A) :=
  if bool_decide (0 ≤ cnt ∧ 0 ≤ d ∧ d + cnt ≤ Z.of_nat (length dst) ∧
                  0 ≤ s ∧ s + cnt ≤ Z.of_nat (length src))%Z
  then Ok (take (Z.to_nat d) dst ++ take (Z.to_nat cnt) (drop (Z.to_nat s) src)
           ++ drop (Z.to_nat (d + cnt)) dst)
  else Fault OutOfBounds.

(** The buffer after [blk] is stored from offset [off] on. *)
Definition write_at {A} (buffer : list A) (off : nat) (blk : list A) : list A :=
  take off buffer ++ blk ++ drop (off + length blk) buffer.

(** [new char[n]]: [n] characters of indeterminate value. *)
Definition new_chars (indet : nat → ascii) (n : Z) : outcome (list ascii) :=
  if bool_decide (0 ≤ n ≤ I64_MAX)%Z
  then Ok (indet <$> seq 0 (Z.to_nat n))
  else Fault BadAlloc.

(** [String(seqbuf, n)]: the first [n] characters of the buffer. *)
Definition string_of_chars (seqbuf : list ascii) (n : Z) : outcome (list ascii) :=
  if bool_decide (0 ≤ n ≤ Z.of_nat (length seqbuf))%Z
  then Ok (take (Z.to_nat n) seqbuf)
  else Fault OutOfBounds.

(** The inner loop, from the state [(seqbuf, bufptr, remain, locpos)]:
    [[
    while (remain > 0) {
        size_t cnt = std::min(itr->bases, static_cast<size_t>(remain));
        std::memcpy(bufptr, &mychunk.data()[chunkpos + locpos], cnt);
        bufptr += cnt;  remain -= cnt;  locpos += (cnt+1);
    }
    ]]
    [bufptr] is the offset of the pointer into [seqbuf].  With
    [bases == 0] no iteration changes [remain] while [locpos] grows by
    one each time, so the source address leaves the chunk: this is the
    [OutOfBounds] of the [cnt = 0] case. *)
Equations? copy_runs (mychunk : list ascii) (chunkpos rbases : Z)
    (seqbuf : list ascii) (bufptr remain locpos : Z) : outcome (list ascii)
    by wf (Z.to_nat remain) lt :=
  copy_runs mychunk chunkpos rbases seqbuf bufptr remain locpos
    with inspect (bool_decide (0 < remain)%Z) := {
    | exist _ false _ => Ok seqbuf
    | exist _ true Hremain
        with inspect (bool_decide (0 < Z.min rbases (to_u64 remain))%Z) := {
        | exist _ false _ => Fault OutOfBounds
        | exist _ true Hcnt
            with memcpy seqbuf bufptr mychunk (to_u64 (chunkpos + locpos))
                   (Z.min rbases (to_u64 remain)) := {
            | Fault f => Fault f
            | Ok seqbuf' =>
                let cnt := Z.min rbases (to_u64 remain) in
                copy_runs mychunk chunkpos rbases seqbuf'
                  (bufptr + cnt)%Z (to_i64 (remain - cnt)) (to_u64 (locpos + (cnt + 1))) } } }.
Proof.
  apply bool_decide_eq_true in Hremain, Hcnt.
  assert (Hr : (to_u64 remain ≤ remain)%Z).
  { unfold to_u64, wrap_unsigned. apply Z.mod_le; lia. }
  assert (Hw : (to_i64 (remain - Z.min rbases (to_u64 remain)) < remain)%Z).
  { unfold to_i64, wrap_signed.
    pose proof (Z.mod_pos_bound
      (remain - Z.min rbases (to_u64 remain) + 2 ^ (64 - 1)) (2 ^ 64) eq_refl) as Hm.
    destruct (decide (remain < 2 ^ 63)%Z) as [Hlt|Hge].
    - rewrite Z.mod_small.
      + lia.
      + change (2 ^ (64 - 1))%Z with 9223372036854775808%Z.
        change (2 ^ 63)%Z with 9223372036854775808%Z in Hlt.
        change (2 ^ 64)%Z with 18446744073709551616%Z. lia.
    - change (2 ^ (64 - 1))%Z with 9223372036854775808%Z in *.
      change (2 ^ 63)%Z with 9223372036854775808%Z in *.
      change (2 ^ 64)%Z with 18446744073709551616%Z in *. lia. }
  subst cnt. lia.
Qed.

(** The loop over the records:
    [[
    for (auto itr = records.cbegin(); itr != records.cend(); ++itr) {
        size_t locpos = 0;
        ptrdiff_t chunkpos = itr->pos - startpos;
        ptrdiff_t remain = itr->len;
        char *bufptr = seqbuf;
        while (remain > 0) { ... }
        reads.emplace_back(seqbuf, itr->len);
    }
    ]]
    [seqbuf] is one buffer, written again for every record. *)
Fixpoint copy_reads (mychunk : list ascii) (startpos : Z)
    (records : list faidx_record_t) (seqbuf : list ascii)
    (reads : list (list ascii)) : outcome (list (list ascii)) :=
  match records with
  | [] => Ok reads
  | itr :: records' =>
      let locpos := 0%Z in
      let chunkpos := to_i64 (to_u64 (pos itr - startpos)) in
      let remain := to_i64 (len itr) in
      seqbuf' ← copy_runs mychunk chunkpos (bases itr) seqbuf 0%Z remain locpos;
      read ← string_of_chars seqbuf' (len itr);
      copy_reads mychunk startpos records' seqbuf' (reads ++ [read])
  end.

(** [x / y] on [unsigned long]. *)
Definition udiv (x y : Z) : outcome Z :=
  if bool_decide (y = 0%Z) then Fault DivideByZero else Ok (x ÷ y)%Z.

(** Lines 82-94 ([FastaIndex.cpp]) and 83-95 (later revision): the
    byte range [[startpos, endpos)] of the chunk a rank reads.  [clamp]
    is the function applied to [(endpos, filesize)]. *)
Definition chunk_bounds (clamp : Z → Z → Z) (records : list faidx_record_t)
    (filesize : Z) : outcome (Z * Z) :=
  first_record ← front records;
  last_record ← back records;
  let startpos := to_i64 (pos first_record) in
  q ← udiv (len last_record) (bases last_record);
  let endpos := to_i64 (to_u64 (to_u64 (pos last_record + len last_record) + q)) in
  let endpos := clamp endpos filesize in
  Ok (startpos, endpos).

(** [FastaIndex.cpp], line 94: [endpos = std::max(endpos, filesize);] *)
Definition GetMyReads_bounds : list faidx_record_t → Z → outcome (Z * Z) :=
  chunk_bounds Z.max.

(** Later revision, line 95: [endpos = std::min(endpos, filesize);],
    with the [max] form left behind as a comment on line 96. *)
Definition GetReadsFromRecords_bounds : list faidx_record_t → Z → outcome (Z * Z) :=
  chunk_bounds Z.min.

(** [FastaIndex.cpp], line 107:
    [std::accumulate(records.begin(), records.end(), 0, [](unsigned long l, const faidx_record_t& rec) { return l > rec.len? l : rec.len; })]
    The initial value is the [int] literal 0, so the accumulator is an
    [int]: every step converts it to [unsigned long] for the lambda and
    the lambda's result back to [int]. *)
Definition maxlen_int (records : list faidx_record_t) : Z :=
  to_u64 (fold_left (λ acc rec, to_int (Z.max (to_u64 acc) (len rec))) records 0%Z).

(** Later revision, line 109: the same fold from [static_cast<size_t>(0)]. *)
Definition maxlen_size_t (records : list faidx_record_t) : Z :=
  fold_left (λ l rec, Z.max l (len rec)) records 0%Z.

(** The text the two materializers share, given the bounds of the chunk
    and the fold that sizes [seqbuf]; [indet] is the indeterminate
    contents of the fresh [seqbuf]. *)
Definition materialize (bounds : list faidx_record_t → Z → outcome (Z * Z))
    (maxlen_of : list faidx_record_t → Z)
    (indet : nat → ascii) (records : list faidx_record_t) (fasta : list ascii) :
    outcome (list (list ascii)) :=
  let filesize := Z.of_nat (length fasta) in
  '(startpos, endpos) ← bounds records filesize;
  let mychunksize := to_i64 (endpos - startpos) in
  mychunk ← vector_new mychunksize Ascii.zero;
  let mychunk := file_read_at fasta startpos mychunksize mychunk in
  let maxlen := maxlen_of records in
  seqbuf ← new_chars indet maxlen;
  copy_reads mychunk startpos records seqbuf [].

(** [FastaIndex::GetMyReads(index)] of [FastaIndex.cpp], the function
    [main] calls. *)
Definition GetMyReads : (nat → ascii) → list faidx_record_t → list ascii →
    outcome (list (list ascii)) :=
  materialize GetMyReads_bounds maxlen_int.

(** [FastaIndex::GetReadsFromRecords(records)] of the later revision.
    The later [FastaIndex::GetMyReads()] returns what this function
    returns on [myrecords]. *)
Definition GetReadsFromRecords : (nat → ascii) → list faidx_record_t → list ascii →
    outcome (list (list ascii)) :=
  materialize GetReadsFromRecords_bounds maxlen_size_t.

(** A slice of a FASTA index that describes the file it is used on:
    lengths and wrap widths are positive, no record starts before the
    first one, and the bytes the records cover lie before the end of the
    last record and inside the file.  [record_end] is the formula of [endpos];
    [touched_end] is one past the last byte of a record of positive
    length, its last line feed left out. *)
Definition record_end (rec : faidx_record_t) : Z :=
  (pos rec + len rec + len rec / bases rec)%Z.

Definition touched_end (rec : faidx_record_t) : Z :=
  (pos rec + len rec + (len rec - 1) / bases rec)%Z.

Definition well_formed_slice (records : list faidx_record_t) (filesize : Z) : Prop :=
  match head records, last records with
  | Some first_record, Some last_record =>
      (0 ≤ pos first_record)%Z ∧ (record_end last_record ≤ I64_MAX)%Z ∧
      (filesize ≤ I64_MAX)%Z ∧
      Forall (λ rec, (0 < len rec)%Z ∧ (0 < bases rec)%Z ∧
                     (pos first_record ≤ pos rec)%Z ∧
                     (touched_end rec ≤ Z.min (record_end last_record) filesize)%Z)
             records
  | _, _ => False
  end.

(** What the loop over the records needs of one record, for a chunk of
    [chunklen] bytes that starts at [startpos] and a [seqbuf] of
    [maxlen] characters. *)
Definition record_fits (startpos chunklen maxlen : Z) (rec : faidx_record_t) : Prop :=
  (0 ≤ len rec ≤ maxlen)%Z ∧ (0 < bases rec)%Z ∧
  ((0 < len rec)%Z →
     (0 ≤ startpos ≤ pos rec)%Z ∧ (pos rec ≤ I64_MAX)%Z ∧
     (pos rec - startpos + len rec + (len rec - 1) / bases rec ≤ chunklen)%Z).

(** [read] holds the [len] characters that [rec] locates in [bytes], a
    sequence of bytes that starts at file offset [origin]: character [j]
    is the byte at file offset [pos + j + j / bases], one line
    terminator being skipped after every [bases] characters. *)
Definition read_of_record (bytes : list ascii) (origin : Z) (rec : faidx_record_t)
    (read : list ascii) : Prop :=
  Z.of_nat (length read) = len rec ∧
  ∀ j, (0 ≤ j < len rec)%Z →
    read !! Z.to_nat j
      = bytes !! Z.to_nat (pos rec - origin + j + j / bases rec).

Definition sample_fasta : list ascii :=
  list_ascii_of_string ">r1" ++ [LF] ++
  list_ascii_of_string "ACGT" ++ [LF] ++
  list_ascii_of_string "ACGT" ++ [LF] ++
  list_ascii_of_string "AC" ++ [LF] ++
  list_ascii_of_string ">r2" ++ [LF] ++
  list_ascii_of_string "TTTT" ++ [LF].

Definition sample_records : list faidx_record_t :=
  [FaidxRecord 10 4 4; FaidxRecord 4 21 4].

(** ** The k-mer primitive *)

(** Modelled from the spec: the k-mer type [TKmer] of [Kmer.h], which is
    not among the sources.  The specification (sections 1 and 3)
    requires of it a canonical form, a hash from which the owner of a
    k-mer is derived, equality, and a serialized representation of a
    fixed width: [GetRep w] is the canonical k-mer of the window [w],
    [GetKmerOwner km P] its owner among [P] processes,
    [CopyDataInto km] its [N_BYTES] bytes, [FromBytes] the constructor
    from a byte address. *)
Class KmerPrimitive : Type := {
  TKmer : Type;
  TKmer_eq_dec :: EqDecision TKmer;
  TKmer_countable :: Countable TKmer;
  kmer_size : nat;
  N_BYTES : nat;
  GetRep : list ascii → TKmer;
  GetKmerOwner : TKmer → nat → nat;
  CopyDataInto : TKmer → list Byte.byte;
  FromBytes : list Byte.byte → TKmer;
  N_BYTES_pos : 0 < N_BYTES;
  GetKmerOwner_lt : ∀ km nprocs, 0 < nprocs → GetKmerOwner km nprocs < nprocs;
  CopyDataInto_length : ∀ w,
    length w = kmer_size → length (CopyDataInto (GetRep w)) = N_BYTES;
  FromBytes_CopyDataInto : ∀ w,
    length w = kmer_size → FromBytes (CopyDataInto (GetRep w)) = GetRep w }.

(** [MPI_Count_type] and [MPI_Displ_type], the element types of the
    count and displacement vectors of [KmerComm.cpp], are declared in a
    header that is not among the sources, next to the [MPI_ALLTOALL] and
    [MPI_ALLTOALLV] they are passed to.  They are taken as a parameter:
    a signed integer type that holds every [int], with [to_count] the
    conversion to it ([int] itself, or the 64-bit [MPI_Count] that
    [FastaIndex.cpp] uses for the same arguments). *)
Class CountType : Type := {
  to_count : Z → Z;
  to_count_int : ∀ z, (- 2 ^ 31 ≤ z ≤ INT_MAX)%Z → to_count z = z }.

(** Modelled from the spec: the cardinality sketch of section 4.5
    ([HyperLogLog], not among the sources): [hll_Add] updates the
    registers with one k-mer, [hll_ParallelMerge] combines the registers
    of all ranks, [hll_Estimate] is [ceil(Estimate())] as a [size_t]. *)
Record HyperLogLog `{KmerPrimitive} : Type := {
  hll_registers : Type;
  hll_init : hll_registers;
  hll_Add : TKmer → hll_registers → hll_registers;
  hll_ParallelMerge : list hll_registers → hll_registers;
  hll_Estimate : hll_registers → Z }.

(** The value type of [KmerCountMap]; the router stores a default
    constructed entry with every key. *)
Variant KmerCountEntry : Set := KmerCountEntry_default.

Section Router.
Context `{KP : KmerPrimitive} `{CT : CountType}.

(** ** The k-mer enumerator *)

(** The window of [s] that starts at offset [i]. *)
Definition window (s : list ascii) (i : nat) : list ascii :=
  take kmer_size (drop i s).

(** [n] consecutive windows of [s], from offset [i] upwards. *)
Fixpoint foreach_window {St} (handler : TKmer → St → St) (s : list ascii)
    (i n : nat) (st : St) : St :=
  match n with
  | 0 => st
  | S n' => foreach_window handler s (S i) n' (handler (GetRep (window s i)) st)
  end.

(** Modelled from the spec: the template [ForeachKmer] of the missing
    headers, after section 4.4: for each read [s] of length [L ≥ k], for
    each window [s[i..i+k)] with [i ∈ [0, L−k]], form the canonical k-mer
    and invoke the handler; reads shorter than [k] are skipped; reads in
    ascending index order, offsets ascending.  The handler is a function
    object with state [St]. *)
Definition ForeachKmer {St} (myreads : list (list ascii))
    (handler : TKmer → St → St) (st : St) : St :=
  fold_left
    (λ st s,
       if decide (length s < kmer_size) then st
       else foreach_window handler s 0 (length s - kmer_size + 1) st)
    myreads st.

(** Modelled from the spec: [KmerPartitionHandler], after section 4.4:
    computes [owner(km)] and appends [km] to the outgoing bucket of the
    owner. *)
Definition KmerPartitionHandler (nprocs : nat) (km : TKmer)
    (kmerbuckets : list (list TKmer)) : list (list TKmer) :=
  alter (λ bucket, bucket ++ [km]) (GetKmerOwner km nprocs) kmerbuckets.

(** Modelled from the spec: [KmerEstimateHandler], after section 4.4:
    inserts each canonical k-mer into the sketch. *)
Definition KmerEstimateHandler (hll : HyperLogLog) :
    TKmer → hll_registers hll → hll_registers hll :=
  hll_Add hll.

(** ** The router [GetKmerCountMapKeys] *)

(** [std::accumulate(first, last, 0)]: the initial value is the [int]
    literal 0, so the accumulator is an [int] and every partial sum is
    converted to [int]. *)
Definition accumulate_int (v : list Z) : Z :=
  fold_left (λ acc x, to_int (acc + x)) v 0%Z.

(** [for (...) body] threading a state through the iterations. *)
Fixpoint for_fold {A S} (body : S → A → outcome S) (l : list A) (st : S) :
    outcome S :=
  match l with
  | [] => Ok st
  | x :: l' => st' ← body st x; for_fold body l' st'
  end.

(** Lines 149-157: the k-mers of one bucket are copied one after the
    other, [N_BYTES] apart, from [addrs2fill] on. *)
Fixpoint pack_bucket (bucket : list TKmer) (sendbuf : list Byte.byte)
    (addrs2fill : Z) : outcome (list Byte.byte) :=
  match bucket with
  | [] => Ok sendbuf
  | km :: bucket' =>
      sendbuf' ← memcpy sendbuf addrs2fill (CopyDataInto km) 0 (Z.of_nat N_BYTES);
      pack_bucket bucket' sendbuf' (addrs2fill + Z.of_nat N_BYTES)
  end.

(** Lines 140-165, iteration [i]; the [clear()] that ends it frees a
    bucket that is not read again. *)
Definition pack_step (kmerbuckets : list (list TKmer)) (sendcnt sdispls : list Z)
    (sendbuf : list Byte.byte) (i : nat) : outcome (list Byte.byte) :=
  match kmerbuckets !! i, sendcnt !! i, sdispls !! i with
  | Some bucket, Some c, Some d =>
      if bool_decide (Z.of_nat (length bucket) = to_u64 (c ÷ Z.of_nat N_BYTES))
      then pack_bucket bucket sendbuf d
      else Fault AssertionFailed
  | _, _, _ => Fault OutOfBounds
  end.

(** What a rank hands to [MPI_ALLTOALL] and [MPI_ALLTOALLV]. *)
Record send_side : Type := SendSide {
  sendcnt : list Z;
  sdispls : list Z;
  sendbuf : list Byte.byte }.

(** Lines 87-165 on a rank with the reads [myreads]. *)
Definition pack_sends (nprocs : nat) (myreads : list (list ascii)) : outcome send_side :=
  let kmerbuckets :=
    ForeachKmer myreads (KmerPartitionHandler nprocs) (replicate nprocs []) in
  let sendcnt :=
    (λ bucket, to_count (to_u64 (Z.of_nat (length bucket) * Z.of_nat N_BYTES)))
      <$> kmerbuckets in
  _ ← front (replicate nprocs 0%Z);
  let sdispls := exclusive_displs to_count sendcnt in
  let totsend := accumulate_int sendcnt in
  sendbuf ← vector_new totsend Byte.x00;
  sendbuf ← for_fold (pack_step kmerbuckets sendcnt sdispls) (seq 0 nprocs) sendbuf;
  Ok {| sendcnt := sendcnt; sdispls := sdispls; sendbuf := sendbuf |}.

(** [MPI_ALLTOALL] of one element per pair: rank [r] receives from every
    rank [i], in rank order, the [r]-th element of the vector [i] sends. *)
Definition alltoall {A} (sends : list (list A)) (r : nat) : outcome (list A) :=
  for_each
    (λ s, match s !! r with Some x => Ok x | None => Fault OutOfBounds end)
    sends.

(** [MPI_ALLTOALLV] on bytes, on the receiving rank [r]: the message of
    rank [i] is the [sendcnt[r]] bytes of its send buffer from
    [sdispls[r]] on, and is stored from [rdispls[i]] on. *)
Definition alltoallv_step (r : nat) (rdispls : list Z) (recvbuf : list Byte.byte)
    (from : nat * send_side) : outcome (list Byte.byte) :=
  let '(i, side) := from in
  match sendcnt side !! r, sdispls side !! r, rdispls !! i with
  | Some c, Some d, Some rd => memcpy recvbuf rd (sendbuf side) d c
  | _, _, _ => Fault OutOfBounds
  end.

Definition alltoallv (sides : list send_side) (r : nat) (rdispls : list Z)
    (recvbuf : list Byte.byte) : outcome (list Byte.byte) :=
  for_fold (alltoallv_step r rdispls) (imap pair sides) recvbuf.

(** Lines 184-193: [numkmerseeds] k-mers are read from the receive
    buffer, [N_BYTES] apart, and each one that is not yet a key is
    inserted with a default entry. *)
Fixpoint unpack_kmers (numkmerseeds : nat) (recvbuf : list Byte.byte)
    (addrs2read : Z) (kmermap : gmap TKmer KmerCountEntry) :
    outcome (gmap TKmer KmerCountEntry) :=
  match numkmerseeds with
  | 0 => Ok kmermap
  | S n =>
      if bool_decide (0 ≤ addrs2read ∧
                      addrs2read + Z.of_nat N_BYTES ≤ Z.of_nat (length recvbuf))%Z
      then
        let mer := FromBytes (take N_BYTES (drop (Z.to_nat addrs2read) recvbuf)) in
        let kmermap' :=
          match kmermap !! mer with
          | None => <[mer := KmerCountEntry_default]> kmermap
          | Some _ => kmermap
          end in
        unpack_kmers n recvbuf (addrs2read + Z.of_nat N_BYTES) kmermap'
      else Fault OutOfBounds
  end.

(** Lines 47-62: the sketch pass.  Every rank adds its k-mers, the
    registers are merged over all ranks, and rank 0 prints the estimate;
    the result is what the rank writes to standard output. *)
Definition estimate_pass (hll : HyperLogLog) (world : list (list (list ascii)))
    (myrank : nat) : list Z :=
  let merged :=
    hll_ParallelMerge hll
      ((λ myreads, ForeachKmer myreads (KmerEstimateHandler hll) (hll_init hll))
         <$> world) in
  let cardinality_estimate := to_u64 (hll_Estimate hll merged) in
  if decide (myrank = 0) then [cardinality_estimate] else [].

(** [GetKmerCountMapKeys(myreads, commgrid)] as rank [myrank] of a job in
    which rank [i] holds the reads [world !! i].  The collectives need
    every rank to have come through its sending side.  The result is the
    returned [kmermap] and the rank's standard output. *)
Definition GetKmerCountMapKeys (hll : HyperLogLog)
    (world : list (list (list ascii))) (myrank : nat) :
    outcome (gmap TKmer KmerCountEntry * list Z) :=
  let nprocs := length world in
  let stdout := estimate_pass hll world myrank in
  sides ← for_each (pack_sends nprocs) world;
  recvcnt ← alltoall (sendcnt <$> sides) myrank;
  let rdispls := exclusive_displs to_count recvcnt in
  let totrecv := accumulate_int recvcnt in
  recvbuf ← vector_new totrecv Byte.x00;
  recvbuf ← alltoallv sides myrank rdispls recvbuf;
  let numkmerseeds := to_u64 (totrecv ÷ Z.of_nat N_BYTES) in
  kmermap ← unpack_kmers (Z.to_nat numkmerseeds) recvbuf 0%Z ∅;
  Ok (kmermap, stdout).

(** The keys of the map a run returns. *)
Definition key_set (run : outcome (gmap TKmer KmerCountEntry * list Z)) :
    outcome (gset TKmer) :=
  (λ res, dom res.1) <$> run.

(** The handler calls of one enumeration, in the order they are made:
    [ForeachKmer] with a handler that records its arguments. *)
Definition handler_calls (myreads : list (list ascii)) : list TKmer :=
  ForeachKmer myreads (λ km calls, calls ++ [km]) [].

(** ** Notions the properties of the router are stated with *)

(** The canonical k-mers of the windows of one read, by ascending offset. *)
Definition read_kmers (s : list ascii) : list TKmer :=
  if decide (length s < kmer_size) then []
  else (λ i, GetRep (window s i)) <$> seq 0 (length s - kmer_size + 1).

(** Every k-mer the enumerator hands out is the canonical k-mer of a
    window of [kmer_size] characters. *)
Definition is_window_kmer (km : TKmer) : Prop :=
  ∃ w, length w = kmer_size ∧ km = GetRep w.

(** The k-mers a rank with the reads [myreads] sends to rank [i]. *)
Definition bucket_to (nprocs : nat) (myreads : list (list ascii)) (i : nat) : list TKmer :=
  filter (λ km, GetKmerOwner km nprocs = i) (handler_calls myreads).

(** The bytes of a bucket in the send buffer. *)
Definition bucket_bytes (bucket : list TKmer) : list Byte.byte :=
  concat (CopyDataInto <$> bucket).

(** The blocks of the send buffer of a rank, by destination. *)
Definition send_blocks (nprocs : nat) (myreads : list (list ascii)) : list (list Byte.byte) :=
  (λ i, bucket_bytes (bucket_to nprocs myreads i)) <$> seq 0 nprocs.

Definition block_counts (blocks : list (list Byte.byte)) : list Z :=
  (λ b, Z.of_nat (length b)) <$> blocks.

(** The k-mers rank [r] receives, in the order of the receive buffer. *)
Definition incoming (world : list (list (list ascii))) (r : nat) : list TKmer :=
  concat ((λ myreads, bucket_to (length world) myreads r) <$> world).

Definition recv_blocks (world : list (list (list ascii))) (r : nat) : list (list Byte.byte) :=
  (λ myreads, bucket_bytes (bucket_to (length world) myreads r)) <$> world.

Definition side_of (nprocs : nat) (myreads : list (list ascii)) : send_side :=
  {| sendcnt := block_counts (send_blocks nprocs myreads);
     sdispls := exclusive_displs to_count (block_counts (send_blocks nprocs myreads));
     sendbuf := concat (send_blocks nprocs myreads) |}.

(** [km] is the canonical k-mer of a window of a read of the dataset. *)
Definition kmer_occurs (world : list (list (list ascii))) (km : TKmer) : Prop :=
  ∃ myreads s i,
    myreads ∈ world ∧ s ∈ myreads ∧ i + kmer_size ≤ length s ∧
    km = GetRep (window s i).

(** The bytes a rank sends in all, and the bytes rank [r] receives. *)
Definition send_bytes (myreads : list (list ascii)) : Z :=
  Z.of_nat (N_BYTES * length (handler_calls myreads)).

Definition recv_bytes (world : list (list (list ascii))) (r : nat) : Z :=
  Z.of_nat (N_BYTES * length (filter (λ km, GetKmerOwner km (length world) = r)
                                (concat (handler_calls <$> world)))).

End Router.

(** ** A k-mer primitive to run the router on

    One byte per nucleotide: the canonical k-mer is the smaller, in
    lexicographic order, of the window and its reverse complement. *)

Definition complement (c : ascii) : ascii :=
  if Ascii.eqb c "A" then "T"%char
  else if Ascii.eqb c "C" then "G"%char
  else if Ascii.eqb c "G" then "C"%char
  else if Ascii.eqb c "T" then "A"%char
  else c.

Definition reverse_complement (w : list ascii) : list ascii :=
  complement <$> rev w.

Fixpoint lex_le (a b : list ascii) : bool :=
  match a, b with
  | [], _ => true
  | _ :: _, [] => false
  | x :: a', y :: b' =>
      if Nat.ltb (nat_of_ascii x) (nat_of_ascii y) then true
      else if Nat.ltb (nat_of_ascii y) (nat_of_ascii x) then false
      else lex_le a' b'
  end.

Definition canonical (w : list ascii) : list ascii :=
  if lex_le w (reverse_complement w) then w else reverse_complement w.

Definition simple_hash (km : list ascii) : nat :=
  fold_left (λ h c, (31 * h + nat_of_ascii c) mod 251) km 7.

(** A sketch that counts the k-mers it is given. *)
Definition counting_sketch `{KmerPrimitive} : HyperLogLog :=
  {| hll_registers := nat;
     hll_init := 0;
     hll_Add := λ _ n, S n;
     hll_ParallelMerge := λ l, foldr Nat.add 0 l;
     hll_Estimate := Z.of_nat |}.

Definition sample_world : list (list (list ascii)) :=
  [ [list_ascii_of_string "ACGTA"]; [list_ascii_of_string "TTTT"; list_ascii_of_string "AC"] ].

(** ** The text of a FASTA index

    The lines [samtools faidx] writes, which are what [GetFaidxRecord]
    is run on: the name of the sequence, its length, the offset of its
    first base, the bases per line and the bytes per line, separated by
    tabs, the numbers in decimal. *)

Definition TAB : ascii := ascii_of_nat 9.

(** The character of the digit [d]. *)
Definition digit_char (d : Z) : ascii := ascii_of_nat (Z.to_nat (48 + d)).

(** The decimal numeral of a number that is not negative. *)
Equations? decimal (n : Z) : list ascii by wf (Z.to_nat n) lt :=
  decimal n with inspect (bool_decide (n < 10)%Z) := {
    | exist _ true _ => [digit_char n]
    | exist _ false Hn => decimal (n / 10) ++ [digit_char (n mod 10)] }.
Proof.
  apply bool_decide_eq_false in Hn.
  assert (0 ≤ n / 10 < n)%Z; [|lia].
  split; [apply Z.div_pos; lia|apply Z.div_lt; lia].
Qed.

(** One line of the index. *)
Definition fai_line (name : list ascii) (rec : faidx_record_t) (width : Z) : list ascii :=
  name ++ TAB :: decimal (len rec) ++ TAB :: decimal (pos rec)
       ++ TAB :: decimal (bases rec) ++ TAB :: decimal width.

(** An index file: one line per entry, each ended by a line feed. *)
Definition fai_text (entries : list (list ascii * faidx_record_t * Z)) : list ascii :=
  concat ((λ e, fai_line e.1.1 e.1.2 e.2 ++ [LF]) <$> entries).

(** A sequence name: not empty and free of white space. *)
Definition valid_name (name : list ascii) : Prop :=
  name ≠ [] ∧ Forall (λ c, is_space c = false) name.

(** The fields of a record hold values of [unsigned long]. *)
Definition valid_fields (rec : faidx_record_t) : Prop :=
  (0 ≤ len rec ≤ ULONG_MAX)%Z ∧ (0 ≤ pos rec ≤ ULONG_MAX)%Z ∧
  (0 ≤ bases rec ≤ ULONG_MAX)%Z.

(** A separator between two fields: a run of white space, not empty. *)
Definition blanks (ws : list ascii) : Prop :=
  ws ≠ [] ∧ Forall (λ c, is_space c = true) ws.

(** What may follow a number: nothing, or text that does not go on
    with a digit. *)
Definition ends_number (rest : list ascii) : Prop :=
  match rest with
  | [] => True
  | c :: _ => is_digit c = false
  end.

(** What [GetFaidxRecord] extracts into [name] on a line. *)
Definition line_name (line : list ascii) : list ascii :=
  (extract_string (istringstream line) []).2.

(** ** [FastaIndex::PrintInfo] ([FastaIndex.cpp], lines 135-180) *)

(** Line 138:
    [std::accumulate(records.begin(), records.end(), 0, [](unsigned long cur, const faidx_record_t& rec) { return cur + rec.len; })]
    The initial value is the [int] literal 0: the accumulator is an
    [int], converted to [unsigned long] for the lambda, and the sum the
    lambda returns is converted back to [int]. *)
Definition PrintInfo_totbases (records : list faidx_record_t) : Z :=
  to_u64 (fold_left (λ acc rec, to_int (to_u64 (to_u64 acc + len rec))) records 0%Z).

(** [String(buffer + d, n)]: [n] characters of the buffer from offset
    [d] on. *)
Definition string_at (buffer : list ascii) (d n : Z) : outcome (list ascii) :=
  if bool_decide (0 ≤ d ∧ 0 ≤ n ∧ d + n ≤ Z.of_nat (length buffer))%Z
  then Ok (take (Z.to_nat n) (drop (Z.to_nat d) buffer))
  else Fault OutOfBounds.

(** [MPI_Gatherv] on the root: the message of rank [i], the characters
    of its line, is stored from [displs[i]] on. *)
Definition gatherv_step (recvcnts displs : list Z) (recvbuf : list ascii)
    (from : nat * list ascii) : outcome (list ascii) :=
  let '(i, myline) := from in
  match recvcnts !! i, displs !! i with
  | Some c, Some d => memcpy recvbuf d myline 0 c
  | _, _ => Fault OutOfBounds
  end.

(** Lines 145-179, as rank [myrank] of a job in which rank [i] has
    composed the line [lines !! i]: the lines the rank writes to
    standard error.  The text of [myline] comes from an
    [std::ostringstream] fed with the grid coordinates of the rank
    ([CommGrid], not among the sources), the number of reads and the
    [double] average length (line 143); it is taken as given.  [indet]
    is the indeterminate contents of the fresh [recvbuf].
    [[
    MPI_Count sendcnt = myline.size();
    if (myrank == 0) { recvcnts.resize(nprocs); displs.resize(nprocs); }
    MPI_Gather_c(&sendcnt, 1, MPI_COUNT, recvcnts.data(), 1, MPI_COUNT, 0, ...);
    if (myrank == 0) {
        displs.front() = 0;
        std::partial_sum(recvcnts.begin(), recvcnts.end()-1, displs.begin()+1);
        recvbuf = new char[displs.back() + recvcnts.back()];
    }
    MPI_Gatherv_c(sendbuf, sendcnt, MPI_CHAR, recvbuf, recvcnts.data(), displs.data(), MPI_CHAR, 0, ...);
    if (myrank == 0)
        for (int i = 0; i < nprocs; ++i) {
            String line = String(recvbuf + displs[i], recvcnts[i]);
            std::cerr << line << std::endl;
        }
    ]] *)
Definition PrintInfo (indet : nat → ascii) (lines : list (list ascii))
    (myrank : nat) : outcome (list (list ascii)) :=
  let nprocs := length lines in
  if decide (myrank = 0) then
    let recvcnts := (λ myline, to_i64 (Z.of_nat (length myline))) <$> lines in
    _ ← front (replicate nprocs 0%Z);
    let displs := exclusive_displs to_i64 recvcnts in
    d ← back displs;
    c ← back recvcnts;
    recvbuf ← new_chars indet (to_i64 (d + c));
    recvbuf ← for_fold (gatherv_step recvcnts displs) (imap pair lines) recvbuf;
    for_each
      (λ i, match displs !! i, recvcnts !! i with
            | Some d, Some c => string_at recvbuf d c
            | _, _ => Fault OutOfBounds
            end)
      (seq 0 nprocs)
  else Ok [].

(** ** The sequence lines of a FASTA file *)

(** A sequence laid out in lines of [b] characters, each ended by a
    line feed (the last line may be shorter). *)
Fixpoint wrap_lines (fuel b : nat) (s : list ascii) : list ascii :=
  match fuel with
  | 0 => []
  | S fuel' =>
      match s with
      | [] => []
      | _ => take b s ++ LF :: wrap_lines fuel' b (drop b s)
      end
  end.

Definition fasta_wrap (b : nat) (s : list ascii) : list ascii :=
  wrap_lines (length s) b s.

(** The record [rec] locates the sequence [s] in the file: [len] is the
    length of [s], and the lines of [s], [bases] characters each, start
    at byte [pos] of the file. *)
Definition holds_sequence (fasta : list ascii) (rec : faidx_record_t)
    (s : list ascii) : Prop :=
  len rec = Z.of_nat (length s) ∧
  ∃ before after,
    fasta = before ++ fasta_wrap (Z.to_nat (bases rec)) s ++ after ∧
    pos rec = Z.of_nat (length before).

(** ** [GetKmerCountMapValues] and [main] *)

Section Main.
Context `{KP : KmerPrimitive} `{CT : CountType}.

(** [KmerComm.cpp], lines 198-201: the function returns at once; the
    map it was given by reference is as it was. *)
Definition GetKmerCountMapValues (myreads : list (list ascii))
    (kmermap : gmap TKmer KmerCountEntry) : gmap TKmer KmerCountEntry :=
  kmermap.

(** What a run of the program leaves behind: the lines rank 0 wrote to
    standard error, what every rank wrote to standard output, and the
    map [kmercounts] of every rank when it leaves the inner block. *)
Record main_run : Type := MainRun {
  info_lines : list (list ascii);
  estimates : list (list Z);
  kmercounts : list (gmap TKmer KmerCountEntry) }.

(** [main] ([main.cpp], lines 16-39) as a job of [nprocs] processes:
    [[
    FastaIndex index(fasta_fname, commgrid);
    index.PrintInfo();
    Vector<String> myreads = FastaIndex::GetMyReads(index);
    KmerCountMap kmercounts = GetKmerCountMapKeys(myreads, commgrid);
    GetKmerCountMapValues(myreads, kmercounts, commgrid);
    ]]
    [fai] and [fasta] are the contents of the index and of [reads.fa];
    [info_line r records] is the line rank [r] composes in [PrintInfo].
    [main] sets the length of the k-mers to 7 before anything else
    ([TKmer::SetKmerSize]); a run of the program is a run with a k-mer
    primitive whose [kmer_size] is 7.  Every call is collective, so the
    job gets through a call only if every rank does. *)
Definition main (info_line : nat → list faidx_record_t → list ascii)
    (indet_record : nat → faidx_record_t) (indet_char : nat → ascii)
    (hll : HyperLogLog) (fai : option (list ascii)) (fasta : list ascii)
    (nprocs : nat) : outcome main_run :=
  index ← FastaIndex indet_record fai nprocs;
  info ← PrintInfo indet_char (imap info_line index) 0;
  world ← for_each (λ records, GetMyReads indet_char records fasta) index;
  runs ← for_each (GetKmerCountMapKeys hll world) (seq 0 nprocs);
  Ok {| info_lines := info;
        estimates := snd <$> runs;
        kmercounts :=
          zip_with (λ myreads run, GetKmerCountMapValues myreads run.1) world runs |}.

End Main.

(** ** [FastaIndex::GetMyReads()] of the later revision (lines 145-162) *)




(** ** An index that describes a FASTA file *)

(** The records of the whole index, in file order: every sequence is
    not empty and is laid out in lines of a positive width, lies inside
    the file, and ends before the next one starts. *)
Definition index_describes (records : list faidx_record_t) (filesize : Z) : Prop :=
  (filesize < I64_MAX)%Z ∧
  Forall (λ rec, (0 < len rec)%Z ∧ (0 < bases rec)%Z ∧ (0 ≤ pos rec)%Z ∧
                 (touched_end rec ≤ filesize)%Z) records ∧
  ∀ i rec next,
    records !! i = Some rec → records !! S i = Some next →
    (record_end rec ≤ pos next)%Z.

(** ** A k-mer primitive with wide k-mers

    One nucleotide per k-mer and 2^30 bytes per serialized k-mer: two
    k-mers on a rank are 2^31 bytes to send. *)

Definition wide_rep (w : list ascii) : bool :=
  match w with
  | c :: _ => Ascii.eqb c "A"
  | [] => false
  end.

Definition wide_bytes (km : bool) : list Byte.byte :=
  replicate (S (Z.to_nat (2 ^ 30 - 1))) (if km then Byte.x01 else Byte.x00).

Definition wide_of_bytes (bytes : list Byte.byte) : bool :=
  match bytes with
  | Byte.x01 :: _ => true
  | _ => false
  end.

(** * Properties *)

Lemma to_int_id z : (- 2 ^ 31 ≤ z ≤ INT_MAX)%Z → to_int z = z.
Proof.
  unfold to_int, wrap_signed, INT_MAX. intros Hz.
  change (2 ^ (32 - 1))%Z with 2147483648%Z in *.
  change (2 ^ 31)%Z with 2147483648%Z in *.
  change (2 ^ 32)%Z with 4294967296%Z.
  rewrite Z.mod_small; lia.
Qed.

Lemma to_i64_id z : (- 2 ^ 63 ≤ z ≤ I64_MAX)%Z → to_i64 z = z.
Proof.
  unfold to_i64, wrap_signed, I64_MAX. intros Hz.
  change (2 ^ (64 - 1))%Z with 9223372036854775808%Z in *.
  change (2 ^ 63)%Z with 9223372036854775808%Z in *.
  change (2 ^ 64)%Z with 18446744073709551616%Z.
  rewrite Z.mod_small; lia.
Qed.

Lemma to_u64_id z : (0 ≤ z ≤ ULONG_MAX)%Z → to_u64 z = z.
Proof.
  unfold to_u64, wrap_unsigned, ULONG_MAX. intros Hz.
  change (2 ^ 64)%Z with 18446744073709551616%Z in *.
  rewrite Z.mod_small; lia.
Qed.

Lemma for_each_Ok {A B} (body : A → outcome B) (g : A → B) (l : list A) :
  (∀ x, x ∈ l → body x = Ok (g x)) → for_each body l = Ok (g <$> l).
Proof.
  induction l as [|x l IH]; intros Hb; [done|].
  cbn. rewrite Hb by left. cbn. rewrite IH; [done|].
  intros y Hy. apply Hb. by right.
Qed.

Lemma for_fold_app {A S} (body : S → A → outcome S) (l1 l2 : list A) (st : S) :
  for_fold body (l1 ++ l2) st = (st' ← for_fold body l1 st; for_fold body l2 st').
Proof.
  revert st. induction l1 as [|x l1 IH]; intros st; cbn; [done|].
  destruct (body st x); cbn; [apply IH|done].
Qed.

(** ** Sums and displacements *)

Lemma sum_Z_cons x l : sum_Z (x :: l) = (x + sum_Z l)%Z.
Proof. done. Qed.

Lemma sum_Z_app l1 l2 : sum_Z (l1 ++ l2) = (sum_Z l1 + sum_Z l2)%Z.
Proof. unfold sum_Z. induction l1; cbn; lia. Qed.

Lemma sum_Z_nonneg l : Forall (λ x, 0 ≤ x)%Z l → (0 ≤ sum_Z l)%Z.
Proof. unfold sum_Z. induction 1; cbn; lia. Qed.

Lemma sum_Z_take_nonneg l i : Forall (λ x, 0 ≤ x)%Z l → (0 ≤ sum_Z (take i l))%Z.
Proof. intros Hl. apply sum_Z_nonneg. by apply Forall_take. Qed.

Lemma sum_Z_take_le l i : Forall (λ x, 0 ≤ x)%Z l → (sum_Z (take i l) ≤ sum_Z l)%Z.
Proof.
  intros Hl. rewrite <- (take_drop i l) at 2. rewrite sum_Z_app.
  assert (0 ≤ sum_Z (drop i l))%Z by (apply sum_Z_nonneg; by apply Forall_drop). lia.
Qed.

Lemma sum_Z_take_S l i x :
  l !! i = Some x → sum_Z (take (S i) l) = (sum_Z (take i l) + x)%Z.
Proof.
  intros Hi. rewrite (take_S_r _ _ _ Hi), sum_Z_app. unfold sum_Z; cbn. lia.
Qed.

Lemma partial_sum_from_lookup cv bound acc l i :
  (∀ z, 0 ≤ z ≤ bound → cv z = z)%Z →
  Forall (λ x, 0 ≤ x)%Z l → (0 ≤ acc)%Z → (acc + sum_Z l ≤ bound)%Z →
  i < length l →
  partial_sum_from cv acc l !! i = Some (acc + sum_Z (take (S i) l))%Z.
Proof.
  intros Hcv Hl. revert acc i.
  induction Hl as [|x l Hx Hl IH]; intros acc i Hacc Hsum Hi; cbn in Hi; [lia|].
  pose proof (sum_Z_nonneg l Hl) as Hnn. rewrite sum_Z_cons in Hsum.
  cbn [partial_sum_from]. rewrite Hcv by lia.
  rewrite firstn_cons, sum_Z_cons.
  destruct i as [|i]; cbn [lookup list_lookup].
  - rewrite take_0. f_equal. unfold sum_Z; cbn. lia.
  - rewrite IH by lia. f_equal. lia.
Qed.

Lemma partial_sum_lookup cv bound l i :
  (∀ z, 0 ≤ z ≤ bound → cv z = z)%Z →
  Forall (λ x, 0 ≤ x)%Z l → (sum_Z l ≤ bound)%Z → i < length l →
  partial_sum cv l !! i = Some (sum_Z (take (S i) l)).
Proof.
  intros Hcv Hl Hsum Hi. destruct l as [|x l]; [cbn in Hi; lia|].
  apply Forall_cons in Hl as [Hx Hl]. rewrite sum_Z_cons in Hsum.
  destruct i as [|i]; cbn.
  - rewrite take_0, sum_Z_cons. f_equal. unfold sum_Z; cbn. lia.
  - cbn in Hi. rewrite (partial_sum_from_lookup cv bound) by (try done; lia).
    by rewrite sum_Z_cons.
Qed.

Lemma removelast_snoc {A} (l : list A) x : removelast (l ++ [x]) = l.
Proof. apply removelast_last. Qed.

Lemma take_removelast {A} (l : list A) i :
  i < length l → take i (removelast l) = take i l.
Proof.
  destruct l as [|y l' _] using rev_ind; [cbn; lia|].
  rewrite removelast_snoc, length_app. cbn. intros Hi.
  rewrite take_app_le by lia. done.
Qed.

Lemma exclusive_displs_length cv c :
  c ≠ [] → length (exclusive_displs cv c) = length c.
Proof.
  destruct c as [|y c _] using rev_ind; [done|]. intros _.
  unfold exclusive_displs. rewrite removelast_snoc, length_app. cbn.
  destruct c as [|x c]; cbn; [done|]. f_equal.
  replace (length c + 1) with (S (length c)) by lia. f_equal.
  generalize x. induction c; intros; cbn; [done|]. by f_equal.
Qed.

(** With counts that are not negative and a sum that the element type
    holds, the displacement of index [i] is the sum of the counts before
    it. *)
Lemma exclusive_displs_lookup cv bound c i :
  (∀ z, 0 ≤ z ≤ bound → cv z = z)%Z →
  Forall (λ x, 0 ≤ x)%Z c → (sum_Z c ≤ bound)%Z → i < length c →
  exclusive_displs cv c !! i = Some (sum_Z (take i c)).
Proof.
  intros Hcv Hc Hsum Hi. unfold exclusive_displs.
  destruct i as [|i]; [done|]. cbn.
  rewrite <- (take_removelast c (S i)) by lia.
  assert (Hr : Forall (λ x, 0 ≤ x)%Z (removelast c)).
  { destruct c as [|y c _] using rev_ind; [done|].
    rewrite removelast_snoc. by apply Forall_app in Hc as [? _]. }
  assert (Hrs : (sum_Z (removelast c) ≤ sum_Z c)%Z).
  { destruct c as [|y c _] using rev_ind; [done|].
    rewrite removelast_snoc, sum_Z_app. apply Forall_app in Hc as [_ Hy].
    rewrite Forall_singleton in Hy.
    assert (sum_Z [y] = y) as -> by (unfold sum_Z; cbn; lia). lia. }
  assert (Hlen : i < length (removelast c)).
  { destruct c as [|y c _] using rev_ind; [cbn in Hi; lia|].
    rewrite removelast_snoc. rewrite length_app in Hi. cbn in Hi. lia. }
  rewrite (partial_sum_lookup cv bound) by (try done; lia). done.
Qed.

(** ** The scatter of the constructor *)

Lemma scatter_sendcounts_eq (N : Z) (nprocs : nat) :
  0 < nprocs → (0 ≤ N ≤ I64_MAX)%Z →
  scatter_sendcounts N nprocs =
    replicate (nprocs - 1) (N / Z.of_nat nprocs)%Z
      ++ [(N - (Z.of_nat nprocs - 1) * (N / Z.of_nat nprocs))%Z].
Proof.
  intros HP HN. unfold scatter_sendcounts, fill_n, set_back.
  assert (Hq : (0 ≤ N / Z.of_nat nprocs ≤ N)%Z).
  { split; [apply Z.div_pos; lia|]. apply Z.div_le_upper_bound; nia. }
  assert (Hm : (Z.of_nat nprocs * (N / Z.of_nat nprocs) ≤ N)%Z).
  { apply Z.mul_div_le. lia. }
  rewrite Z.quot_div_nonneg by lia.
  rewrite (to_i64_id (N / _)) by (unfold I64_MAX in *; lia).
  rewrite (to_i64_id (_ * _)) by (unfold I64_MAX in *; nia).
  rewrite to_i64_id by (unfold I64_MAX in *; nia).
  rewrite drop_replicate.
  replace (nprocs - (nprocs - 1)) with 1 by lia. cbn [replicate].
  rewrite length_app, length_replicate. cbn [length].
  rewrite insert_app_r_alt by (rewrite length_replicate; lia).
  rewrite length_replicate.
  replace (pred (nprocs - 1 + 1) - (nprocs - 1)) with 0 by lia.
  done.
Qed.

Lemma scatterv_counts {A} (sendbuf : list A) (c : list Z) (r : nat) (x : Z) :
  Forall (λ x, 0 ≤ x)%Z c → sum_Z c = Z.of_nat (length sendbuf) →
  (sum_Z c ≤ I64_MAX)%Z → c !! r = Some x →
  scatterv sendbuf c (exclusive_displs to_i64 c) r =
    Ok (take (Z.to_nat x) (drop (Z.to_nat (sum_Z (take r c))) sendbuf)).
Proof.
  intros Hc Hsum Hmax Hr. unfold scatterv. rewrite Hr.
  rewrite (exclusive_displs_lookup to_i64 I64_MAX);
    [|intros; apply to_i64_id; unfold I64_MAX in *; lia
     |done|done|by eapply lookup_lt_Some].
  pose proof (sum_Z_take_S _ _ _ Hr) as HS.
  pose proof (sum_Z_take_le c (S r) Hc).
  pose proof (sum_Z_take_nonneg c r Hc).
  assert (0 ≤ x)%Z by (by eapply (Forall_lookup_1 _ c)).
  rewrite bool_decide_eq_true_2 by lia. done.
Qed.

Lemma scatter_records_by_counts (root_records : list faidx_record_t) (nprocs : nat) :
  let N := Z.of_nat (length root_records) in
  let c := scatter_sendcounts N nprocs in
  0 < nprocs → (N ≤ I64_MAX)%Z →
  scatter_records root_records nprocs =
    Ok ((λ r, take (Z.to_nat (c !!! r))
                (drop (Z.to_nat (sum_Z (take r c))) root_records)) <$> seq 0 nprocs)
  ∧ Forall (λ x, 0 ≤ x)%Z c ∧ sum_Z c = N ∧ length c = nprocs.
Proof.
  intros N c HP HN. subst c. unfold scatter_records. fold N.
  rewrite (to_i64_id N) by (unfold I64_MAX in *; lia).
  destruct nprocs as [|p]; [lia|]. cbn [replicate front mbind outcome_bind].
  rewrite scatter_sendcounts_eq by lia.
  set (P := Z.of_nat (S p)). set (q := (N / P)%Z).
  assert (Hq : (0 ≤ q)%Z) by (apply Z.div_pos; lia).
  assert (Hm : (P * q ≤ N)%Z) by (apply Z.mul_div_le; lia).
  set (c := replicate (S p - 1) q ++ [(N - (P - 1) * q)%Z]).
  assert (Hc : Forall (λ x, 0 ≤ x)%Z c).
  { apply Forall_app; split; [by apply Forall_replicate|].
    apply Forall_singleton. nia. }
  assert (Hs : sum_Z c = N).
  { subst c. rewrite sum_Z_app.
    assert (∀ n, sum_Z (replicate n q) = (Z.of_nat n * q)%Z) as ->.
    { induction n as [|n IH]; [done|].
      cbn [replicate]. rewrite sum_Z_cons, IH. lia. }
    rewrite sum_Z_cons. unfold sum_Z at 1; cbn. lia. }
  assert (Hl : length c = S p).
  { subst c. rewrite length_app, length_replicate. cbn. lia. }
  split; [|done].
  apply for_each_Ok. intros r Hr. apply elem_of_seq in Hr.
  destruct (lookup_lt_is_Some_2 c r) as [x Hx]; [lia|].
  rewrite (scatterv_counts _ _ _ x) by (try done; lia).
  by rewrite (list_lookup_total_correct _ _ _ Hx).
Qed.

(** C3, as amended: the scatter partition gives each of the first P-1
    ranks floor(N/P) records and the last rank N - (P-1)*floor(N/P); the
    sizes sum to N; the last slice exceeds the others by N mod P, which
    is below P. *)
Theorem scatter_partition_sizes (root_records : list faidx_record_t) (nprocs : nat) :
  let N := length root_records in
  0 < nprocs → nprocs ≤ N → (Z.of_nat N ≤ I64_MAX)%Z →
  ∃ slices,
    scatter_records root_records nprocs = Ok slices ∧
    length <$> slices =
      replicate (nprocs - 1) (N / nprocs) ++ [N - (nprocs - 1) * (N / nprocs)] ∧
    sum_list (length <$> slices) = N ∧
    N - (nprocs - 1) * (N / nprocs) = N / nprocs + N mod nprocs ∧
    N mod nprocs < nprocs.
Proof.
  intros N HP HNP HN.
  destruct (scatter_records_by_counts root_records nprocs HP HN)
    as (Hrun & Hc & Hs & Hl).
  eexists. split; [exact Hrun|].
  pose proof (Nat.div_mod_eq N nprocs) as Hdm.
  pose proof (Nat.mod_upper_bound N nprocs ltac:(lia)) as Hmod.
  match type of Hrun with _ = Ok ?s =>
    assert (Hsizes : length <$> s =
      replicate (nprocs - 1) (N / nprocs) ++ [N - (nprocs - 1) * (N / nprocs)])
  end.
  { fold N in Hc, Hs, Hl. set (c := scatter_sendcounts (Z.of_nat N) nprocs) in *.
    transitivity (Z.to_nat <$> c).
    - apply list_eq. intros r. rewrite !list_lookup_fmap.
      destruct (decide (r < nprocs)) as [Hr|Hr].
      + rewrite lookup_seq_lt by done. cbn.
        destruct (lookup_lt_is_Some_2 c r) as [x Hx]; [lia|].
        rewrite Hx, (list_lookup_total_correct _ _ _ Hx). cbn. f_equal.
        pose proof (sum_Z_take_S _ _ _ Hx) as HS.
        pose proof (sum_Z_take_le c (S r) Hc).
        pose proof (sum_Z_take_nonneg c r Hc).
        assert (0 ≤ x)%Z by (by eapply (Forall_lookup_1 _ c)).
        rewrite length_take, length_drop. fold N. fold c. lia.
      + rewrite lookup_seq_ge by lia. rewrite lookup_ge_None_2 by lia. done.
    - subst c. rewrite scatter_sendcounts_eq by (unfold I64_MAX in *; lia).
      rewrite fmap_app, fmap_replicate. cbn [fmap list_fmap].
      rewrite <- Nat2Z.inj_div, Nat2Z.id. do 2 f_equal.
      assert ((nprocs - 1) * (N / nprocs) ≤ nprocs * (N / nprocs))
        by (apply Nat.mul_le_mono_r; lia).
      destruct nprocs as [|p]; [lia|].
      replace (S p - 1) with p in * by lia. nia. }
  rewrite Hsizes. split; [done|].
  split; [|split; [|done]];
    (assert ((nprocs - 1) * (N / nprocs) ≤ nprocs * (N / nprocs))
       by (apply Nat.mul_le_mono_r; lia);
     destruct nprocs as [|p]; [lia|];
     replace (S p - 1) with p in * by lia).
  2: nia.
  rewrite sum_list_with_app, sum_list_replicate.
  assert (∀ x : nat, sum_list [x] = x) as -> by (intros; cbn; unfold id; lia).
  nia.
Qed.

(** C3 does not hold as stated: five records on three processes are
    split into slices of 1, 1 and 3 records, and 3 exceeds 1 by two. *)
Lemma scatter_partition_five_by_three :
  3 ≤ 5 ∧
  ∃ slices,
    scatter_records (replicate 5 (FaidxRecord 100 0 80)) 3 = Ok slices ∧
    length <$> slices = [1; 1; 3] ∧
    ¬ balanced_last (length <$> slices).
Proof.
  split; [lia|]. eexists. split; [vm_compute; reflexivity|].
  split; [reflexivity|]. intros Hb.
  destruct (Hb 3 1) as [Hle _]; [reflexivity|set_solver|]. lia.
Qed.

Lemma scatter_partition_sizes_witness :
  ∃ slices,
    scatter_records (replicate 7 (FaidxRecord 100 0 80)) 3 = Ok slices ∧
    length <$> slices = [2; 2; 3].
Proof.
  destruct (scatter_partition_sizes (replicate 7 (FaidxRecord 100 0 80)) 3)
    as (slices & Hrun & Hsizes & _).
  - lia.
  - vm_compute; lia.
  - vm_compute; discriminate.
  - exists slices. split; [exact Hrun|exact Hsizes].
Defined.

(** ** The parsing loop of rank 0 *)

Lemma read_faidx_step indet fs line n recs names :
  read_faidx indet fs line n recs names =
    if failbit (getline fs line).1 then (recs, names)
    else
      let r := GetFaidxRecord (indet n) (getline fs line).2 names in
      read_faidx indet (getline fs line).1 (getline fs line).2 (S n) (recs ++ [r.1]) r.2.
Proof.
  funelim (read_faidx indet fs line n recs names);
    match goal with e : failbit _ = _ |- _ => by rewrite e end.
Qed.

Lemma read_faidx_not_good indet fs line n recs names :
  good fs = false → read_faidx indet fs line n recs names = (recs, names).
Proof.
  intros Hg. rewrite read_faidx_step. unfold getline. by rewrite Hg.
Qed.

Lemma GetFaidxRecord_record indet line names :
  (GetFaidxRecord indet line names).1 = parse_record indet line.
Proof.
  unfold parse_record, GetFaidxRecord.
  destruct (extract_string _ _) as [s0 name].
  destruct (extract_ulong s0 _) as [s1 l].
  destruct (extract_ulong s1 _) as [s2 p].
  by destruct (extract_ulong s2 _) as [s3 b].
Qed.

Lemma until_newline_lines content :
  match until_newline content with
  | (l, Some rest) => fai_lines content = l :: fai_lines rest ∧ length rest < length content
  | (l, None) => fai_lines content = match l with [] => [] | _ => [l] end
  end.
Proof.
  induction content as [|c s IH]; cbn; [done|].
  destruct (Ascii.eqb c LF); [split; [done|lia]|].
  destruct (until_newline s) as [l [rest|]].
  - cbn in IH. destruct IH as [-> Hlen]. split; [done|lia].
  - rewrite IH. by destruct l.
Qed.

Lemma read_faidx_lines indet content :
  ∀ line n recs names,
    (read_faidx indet {| buf := content; eofbit := false; failbit := false |}
       line n recs names).1
    = recs ++ imap (λ i l, parse_record (indet (n + i)) l) (fai_lines content).
Proof.
  remember (length content) as m eqn:Hm. revert content Hm.
  induction (lt_wf m) as [m _ IH]. intros content Hm line n recs names.
  rewrite read_faidx_step. unfold getline. cbn [good eofbit failbit buf negb andb].
  pose proof (until_newline_lines content) as Hu.
  destruct (until_newline content) as [l [rest|]]; cbn [fst snd failbit].
  - destruct Hu as [-> Hlen]. cbn zeta.
    rewrite (IH (length rest)) by (try done; lia).
    rewrite GetFaidxRecord_record, <- app_assoc. cbn [imap app].
    rewrite Nat.add_0_r. do 2 f_equal.
    apply imap_ext. intros i x _. cbn. do 2 f_equal. lia.
  - destruct l as [|x l]; [by rewrite Hu, app_nil_r|].
    cbn zeta. rewrite Hu, read_faidx_not_good by done.
    cbn. by rewrite GetFaidxRecord_record, Nat.add_0_r.
Qed.

(** C10: rank 0 parses exactly one record per line of the [.fai] file,
    whatever the file holds: the [n]-th record is what [GetFaidxRecord]
    makes of the [n]-th line, starting from indeterminate field values;
    a blank line yields the wholly indeterminate record, and a line with
    only a name keeps all three numeric fields indeterminate. *)
Theorem one_record_per_fai_line (indet : nat → faidx_record_t) (content : list ascii) :
  let root_records := (root_parse indet (Some content)).1 in
  length root_records = length (fai_lines content) ∧
  root_records = imap (λ n line, parse_record (indet n) line) (fai_lines content) ∧
  (∀ n, fai_lines content !! n = Some [] → root_records !! n = Some (indet n)) ∧
  (∀ n c, is_space c = false →
     fai_lines content !! n = Some [c] → root_records !! n = Some (indet n)).
Proof.
  cbn zeta. unfold root_parse, ifstream.
  rewrite read_faidx_lines. cbn [app].
  split; [by rewrite length_imap|]. split; [done|].
  split.
  - intros n Hn. rewrite list_lookup_imap, Hn. cbn.
    by destruct (indet n).
  - intros n c Hc Hn. rewrite list_lookup_imap, Hn. cbn.
    unfold parse_record, GetFaidxRecord, extract_string. cbn.
    rewrite Hc. cbn. rewrite Hc. cbn. by destruct (indet n).
Qed.

(** ** A [.fai] that cannot be opened *)

Lemma scatter_records_nil (nprocs : nat) :
  0 < nprocs → scatter_records [] nprocs = Ok (replicate nprocs []).
Proof.
  intros HP.
  destruct (scatter_records_by_counts [] nprocs HP) as (-> & _).
  { cbn. unfold I64_MAX. lia. }
  f_equal. rewrite (const_fmap _ _ []); [by rewrite length_seq|].
  intros _ r _. by rewrite drop_nil, take_nil.
Qed.

(** C5, as amended: when the [.fai] file cannot be opened on rank 0,
    the construction reports no error on any rank: rank 0 parses no
    record and every rank is left with an empty record slice. *)
Theorem missing_fai_builds_empty_index (indet : nat → faidx_record_t) (nprocs : nat) :
  0 < nprocs →
  (root_parse indet None).1 = [] ∧
  FastaIndex indet None nprocs = Ok (replicate nprocs []) ∧
  ¬ failed (FastaIndex indet None nprocs).
Proof.
  intros HP. unfold FastaIndex, root_parse.
  rewrite read_faidx_not_good by done. cbn [fst].
  rewrite scatter_records_nil by done. by split; [|split; [|intros []]].
Qed.

Lemma missing_fai_builds_empty_index_witness :
  FastaIndex (λ _, FaidxRecord 0 0 0) None 3 = Ok [[]; []; []].
Proof.
  apply (missing_fai_builds_empty_index (λ _, FaidxRecord 0 0 0) 3). lia.
Defined.

(** C5 does not hold as stated: with two processes and a [.fai] file
    that cannot be opened the construction does not fail; both ranks
    are left with an empty slice. *)
Lemma missing_fai_is_not_reported :
  FastaIndex (λ _, FaidxRecord 0 0 0) None 2 = Ok [[]; []] ∧
  ¬ failed (FastaIndex (λ _, FaidxRecord 0 0 0) None 2).
Proof. split; [by vm_compute|]. vm_compute. intros []. Qed.

(** ** The clamp of [endpos] *)

(** C4 at one record of four bases at offset 4 in a file of 100 bytes:
    the end of the record is at offset 8; [GetMyReads] of
    [FastaIndex.cpp] extends the chunk to the end of the file, offset
    100, where the later [GetReadsFromRecords] stops at min(8, 100). *)
Theorem GetMyReads_clamps_with_max :
  let records := [FaidxRecord 4 4 80] in
  GetMyReads_bounds records 100 = Ok (4, 100)%Z ∧
  GetMyReads_bounds records 100 ≠ Ok (4, Z.min 8 100)%Z ∧
  GetReadsFromRecords_bounds records 100 = Ok (4, Z.min 8 100)%Z.
Proof. by vm_compute. Qed.

(** ** The materializer on a well-formed slice *)

Lemma copy_runs_step mychunk chunkpos rbases seqbuf bufptr remain locpos :
  copy_runs mychunk chunkpos rbases seqbuf bufptr remain locpos =
    if bool_decide (0 < remain)%Z then
      let cnt := Z.min rbases (to_u64 remain) in
      if bool_decide (0 < cnt)%Z then
        seqbuf' ← memcpy seqbuf bufptr mychunk (to_u64 (chunkpos + locpos)) cnt;
        copy_runs mychunk chunkpos rbases seqbuf'
          (bufptr + cnt)%Z (to_i64 (remain - cnt)) (to_u64 (locpos + (cnt + 1)))
      else Fault OutOfBounds
    else Ok seqbuf.
Proof.
  funelim (copy_runs mychunk chunkpos rbases seqbuf bufptr remain locpos);
    cbn zeta;
    repeat match goal with
           | e : bool_decide ?P = _ |- context [bool_decide ?P] => rewrite e
           | e : memcpy ?a ?b ?c ?d ?n = _ |- context [memcpy ?a ?b ?c ?d ?n] =>
               rewrite e
           end; done.
Qed.

Lemma memcpy_Ok {A} (dst : list A) (d : Z) (src : list A) (s cnt : Z) :
  (0 ≤ cnt)%Z → (0 ≤ d)%Z → (d + cnt ≤ Z.of_nat (length dst))%Z →
  (0 ≤ s)%Z → (s + cnt ≤ Z.of_nat (length src))%Z →
  memcpy dst d src s cnt =
    Ok (take (Z.to_nat d) dst ++ take (Z.to_nat cnt) (drop (Z.to_nat s) src)
        ++ drop (Z.to_nat (d + cnt)) dst)
  ∧ length (take (Z.to_nat d) dst ++ take (Z.to_nat cnt) (drop (Z.to_nat s) src)
        ++ drop (Z.to_nat (d + cnt)) dst) = length dst.
Proof.
  intros. unfold memcpy. rewrite bool_decide_eq_true_2 by lia.
  split; [done|].
  rewrite !length_app, !length_take, !length_drop. lia.
Qed.

(** What a buffer holds after [cnt] elements of [src], from index [s],
    were copied to it from index [d] on. *)
Lemma copied_lookup {A} (dst src : list A) (d s cnt i : nat) :
  d + cnt ≤ length dst → s + cnt ≤ length src →
  (take d dst ++ take cnt (drop s src) ++ drop (d + cnt) dst) !! i
    = if decide (d ≤ i < d + cnt) then src !! (s + (i - d)) else dst !! i.
Proof.
  intros Hd Hs.
  assert (Hl1 : length (take d dst) = d) by (rewrite length_take; lia).
  assert (Hl2 : length (take cnt (drop s src)) = cnt)
    by (rewrite length_take, length_drop; lia).
  case_decide as Hi.
  - rewrite lookup_app_r by lia. rewrite lookup_app_l by lia.
    rewrite Hl1, lookup_take_lt, lookup_drop by lia. done.
  - destruct (decide (i < d)) as [Hlt|Hge].
    + rewrite lookup_app_l by lia. by rewrite lookup_take_lt by lia.
    + rewrite lookup_app_r by lia. rewrite lookup_app_r by lia.
      rewrite Hl1, Hl2, lookup_drop. f_equal. lia.
Qed.

(** The inner loop on a record that lies inside the chunk: it ends, it
    leaves what was before [bufptr] untouched, and the [j]-th character
    it stores is the byte of the chunk [j + j / bases] places after the
    start of the copy (one byte is skipped after every full run). *)
Lemma copy_runs_Ok mychunk chunkpos rbases :
  (0 < rbases)%Z → (Z.of_nat (length mychunk) ≤ I64_MAX)%Z →
  ∀ remain seqbuf bufptr locpos,
    (0 ≤ remain ≤ I64_MAX)%Z → (0 ≤ bufptr)%Z →
    (bufptr + remain ≤ Z.of_nat (length seqbuf))%Z → (0 ≤ locpos)%Z →
    ((0 < remain)%Z →
       (0 ≤ chunkpos)%Z ∧
       (chunkpos + locpos + remain + (remain - 1) / rbases
          ≤ Z.of_nat (length mychunk))%Z) →
    ∃ seqbuf',
      copy_runs mychunk chunkpos rbases seqbuf bufptr remain locpos = Ok seqbuf' ∧
      length seqbuf' = length seqbuf ∧
      (∀ i, i < Z.to_nat bufptr → seqbuf' !! i = seqbuf !! i) ∧
      (∀ j, (0 ≤ j < remain)%Z →
         seqbuf' !! Z.to_nat (bufptr + j)
           = mychunk !! Z.to_nat (chunkpos + locpos + j + j / rbases)).
Proof.
  intros Hb HL remain.
  remember (Z.to_nat remain) as m eqn:Hm. revert remain Hm.
  induction (lt_wf m) as [m _ IH].
  intros remain Hm seqbuf bufptr locpos Hrem Hbuf Hroom Hloc Hvalid.
  rewrite copy_runs_step. case_bool_decide as Hpos.
  2:{ exists seqbuf. split; [done|]. split; [done|]. split; [done|].
      intros j Hj. lia. }
  destruct (Hvalid Hpos) as [Hcp Hend]. cbn zeta.
  rewrite (to_u64_id remain) by (unfold I64_MAX, ULONG_MAX in *; lia).
  set (cnt := Z.min rbases remain).
  assert (Hcnt : (0 < cnt ≤ remain)%Z) by (subst cnt; lia).
  assert (Hcb : (cnt ≤ rbases)%Z) by (subst cnt; lia).
  rewrite bool_decide_eq_true_2 by lia.
  assert (Hq : (0 ≤ (remain - 1) / rbases)%Z) by (apply Z.div_pos; lia).
  rewrite (to_u64_id (chunkpos + locpos))
    by (unfold I64_MAX, ULONG_MAX in *; lia).
  destruct (memcpy_Ok seqbuf bufptr mychunk (chunkpos + locpos) cnt)
    as [-> Hlen]; try lia.
  cbn [mbind outcome_bind].
  rewrite to_i64_id by (unfold I64_MAX in *; lia).
  rewrite to_u64_id by (unfold I64_MAX, ULONG_MAX in *; lia).
  set (seqbuf1 := take _ seqbuf ++ _) in *.
  assert (Hlook : ∀ i, seqbuf1 !! i
    = if decide (Z.to_nat bufptr ≤ i < Z.to_nat bufptr + Z.to_nat cnt)
      then mychunk !! (Z.to_nat (chunkpos + locpos) + (i - Z.to_nat bufptr))
      else seqbuf !! i).
  { intros i. subst seqbuf1.
    replace (Z.to_nat (bufptr + cnt)) with (Z.to_nat bufptr + Z.to_nat cnt) by lia.
    apply copied_lookup; lia. }
  destruct (IH (Z.to_nat (remain - cnt)) ltac:(lia) (remain - cnt)%Z eq_refl
              seqbuf1 (bufptr + cnt)%Z (locpos + (cnt + 1))%Z)
    as (seqbuf' & Hrun & Hlen' & Hpre & Hcont); try lia.
  { intros Hmore. split; [done|].
    assert (cnt = rbases) as -> by (subst cnt; lia).
    replace (remain - 1)%Z with (remain - rbases - 1 + 1 * rbases)%Z in Hend by lia.
    rewrite Z.div_add in Hend by lia. lia. }
  exists seqbuf'. split; [exact Hrun|]. split; [lia|]. split.
  - intros i Hi. rewrite Hpre by lia. rewrite Hlook.
    by rewrite decide_False by lia.
  - intros j Hj. destruct (decide (j < cnt)%Z) as [Hlt|Hge].
    + rewrite Hpre by lia. rewrite Hlook, decide_True by lia.
      rewrite Z.div_small by lia. f_equal. lia.
    + assert (cnt = rbases) as Hcr by (subst cnt; lia).
      specialize (Hcont (j - cnt)%Z ltac:(lia)).
      replace (bufptr + cnt + (j - cnt))%Z with (bufptr + j)%Z in Hcont by lia.
      rewrite Hcont. f_equal. f_equal. rewrite Hcr.
      replace (j - rbases)%Z with (j + (-1) * rbases)%Z by lia.
      rewrite Z.div_add by lia. lia.
Qed.

Lemma string_of_chars_Ok seqbuf n :
  (0 ≤ n ≤ Z.of_nat (length seqbuf))%Z →
  string_of_chars seqbuf n = Ok (take (Z.to_nat n) seqbuf) ∧
  Z.of_nat (length (take (Z.to_nat n) seqbuf)) = n.
Proof.
  intros Hn. unfold string_of_chars. rewrite bool_decide_eq_true_2 by done.
  split; [done|]. rewrite length_take. lia.
Qed.

Lemma copy_reads_Ok mychunk startpos records :
  (Z.of_nat (length mychunk) ≤ I64_MAX)%Z →
  ∀ seqbuf reads,
    (Z.of_nat (length seqbuf) ≤ I64_MAX)%Z →
    Forall (record_fits startpos (Z.of_nat (length mychunk))
              (Z.of_nat (length seqbuf))) records →
    ∃ out,
      copy_reads mychunk startpos records seqbuf reads = Ok (reads ++ out) ∧
      Forall2 (read_of_record mychunk startpos) records out.
Proof.
  intros HL. induction records as [|itr records IH]; intros seqbuf reads HM Hfit.
  { exists []. by rewrite app_nil_r. }
  apply Forall_cons in Hfit as [(Hlen & Hb & Hpos) Hfit].
  cbn [copy_reads]. cbv zeta.
  rewrite (to_i64_id (len itr)) by (unfold I64_MAX in *; lia).
  destruct (copy_runs_Ok mychunk (to_i64 (to_u64 (pos itr - startpos)))
              (bases itr) Hb HL (len itr) seqbuf 0%Z 0%Z)
    as (seqbuf' & -> & Hlen' & _ & Hcont); try lia.
  { intros Hpl. destruct (Hpos Hpl) as (Hsp & Hp & Hend).
    rewrite to_u64_id by (unfold I64_MAX, ULONG_MAX in *; lia).
    rewrite to_i64_id by (unfold I64_MAX in *; lia). lia. }
  cbn [mbind outcome_bind].
  destruct (string_of_chars_Ok seqbuf' (len itr)) as [-> Hread]; [lia|].
  cbn [mbind outcome_bind].
  destruct (IH seqbuf' (reads ++ [take (Z.to_nat (len itr)) seqbuf']))
    as (out & -> & Hout); [lia|by rewrite Hlen'|].
  exists (take (Z.to_nat (len itr)) seqbuf' :: out).
  rewrite <- app_assoc. split; [done|]. constructor; [|done].
  split; [done|]. intros j Hj.
  rewrite lookup_take_lt by lia.
  specialize (Hcont j Hj). rewrite Z.add_0_l, Z.add_0_r in Hcont. rewrite Hcont.
  destruct (Hpos ltac:(lia)) as (Hsp & Hp & Hend).
  rewrite to_u64_id by (unfold I64_MAX, ULONG_MAX in *; lia).
  rewrite to_i64_id by (unfold I64_MAX in *; lia).
  done.
Qed.

Lemma chunk_bounds_Ok clamp records filesize first_record last_record :
  head records = Some first_record → last records = Some last_record →
  (0 ≤ pos first_record ≤ I64_MAX)%Z →
  (0 ≤ pos last_record)%Z → (0 ≤ len last_record)%Z → (0 < bases last_record)%Z →
  (record_end last_record ≤ I64_MAX)%Z →
  chunk_bounds clamp records filesize =
    Ok (pos first_record, clamp (record_end last_record) filesize).
Proof.
  intros Hh Hl Hpf Hpl Hll Hbl He. unfold chunk_bounds, front, back, udiv.
  destruct records as [|r records]; [done|]. injection Hh as ->.
  rewrite Hl. cbn [mbind outcome_bind].
  rewrite bool_decide_eq_false_2 by lia. cbn [mbind outcome_bind].
  unfold record_end in *.
  assert (0 ≤ len last_record / bases last_record)%Z by (apply Z.div_pos; lia).
  rewrite Z.quot_div_nonneg by lia.
  rewrite (to_i64_id (pos first_record)) by (unfold I64_MAX in *; lia).
  rewrite (to_u64_id (pos last_record + len last_record))
    by (unfold I64_MAX, ULONG_MAX in *; lia).
  rewrite to_u64_id by (unfold I64_MAX, ULONG_MAX in *; lia).
  rewrite to_i64_id by (unfold I64_MAX in *; lia). done.
Qed.

Lemma file_read_at_length fasta offset count buffer :
  Z.of_nat (length buffer) = count →
  length (file_read_at fasta offset count buffer) = length buffer.
Proof.
  intros Hc. unfold file_read_at. case_bool_decide; [done|].
  rewrite length_app, length_drop, length_take, length_drop. lia.
Qed.

Lemma vector_new_Ok {A} (n : Z) (x : A) :
  (0 ≤ n ≤ I64_MAX)%Z →
  vector_new n x = Ok (replicate (Z.to_nat n) x).
Proof.
  intros Hn. unfold vector_new.
  rewrite to_u64_id by (unfold I64_MAX, ULONG_MAX in *; lia).
  by rewrite bool_decide_eq_true_2 by lia.
Qed.

Lemma maxlen_size_t_spec records bound :
  Forall (λ rec, 0 ≤ len rec ≤ bound)%Z records → (0 ≤ bound)%Z →
  (0 ≤ maxlen_size_t records ≤ bound)%Z ∧
  Forall (λ rec, len rec ≤ maxlen_size_t records)%Z records.
Proof.
  unfold maxlen_size_t. intros Hr Hb.
  enough (∀ l0, (0 ≤ l0 ≤ bound)%Z →
    (l0 ≤ fold_left (λ l rec, Z.max l (len rec)) records l0 ≤ bound)%Z ∧
    Forall (λ rec, len rec ≤ fold_left (λ l rec, Z.max l (len rec)) records l0)%Z
      records) as Hgen.
  { destruct (Hgen 0%Z) as [? ?]; [lia|]. split; [lia|done]. }
  induction Hr as [|rec records Hrec Hr IH]; intros l0 Hl0; cbn [fold_left].
  { split; [lia|constructor]. }
  destruct (IH (Z.max l0 (len rec))) as [Hle Hall]; [lia|].
  split; [lia|]. constructor; [lia|done].
Qed.

Lemma maxlen_int_size_t records :
  Forall (λ rec, 0 ≤ len rec ≤ INT_MAX)%Z records →
  maxlen_int records = maxlen_size_t records.
Proof.
  unfold maxlen_int, maxlen_size_t. intros Hr.
  enough (∀ l0, (0 ≤ l0 ≤ INT_MAX)%Z →
    fold_left (λ acc rec, to_int (Z.max (to_u64 acc) (len rec))) records l0
      = fold_left (λ l rec, Z.max l (len rec)) records l0 ∧
    (0 ≤ fold_left (λ l rec, Z.max l (len rec)) records l0 ≤ INT_MAX)%Z) as Hgen.
  { destruct (Hgen 0%Z) as [-> ?]; [unfold INT_MAX; lia|].
    apply to_u64_id. unfold INT_MAX, ULONG_MAX in *. lia. }
  induction Hr as [|rec records Hrec Hr IH]; intros l0 Hl0; cbn [fold_left]; [done|].
  rewrite (to_u64_id l0) by (unfold INT_MAX, ULONG_MAX in *; lia).
  rewrite to_int_id by (unfold INT_MAX in *; lia).
  apply IH. lia.
Qed.

Lemma file_read_at_lookup fasta offset count buffer k :
  (0 ≤ offset)%Z → Z.of_nat (length buffer) = count →
  k < Z.to_nat count → Z.to_nat offset + k < length fasta →
  file_read_at fasta offset count buffer !! k = fasta !! (Z.to_nat offset + k).
Proof.
  intros Ho Hc Hk Hf. unfold file_read_at.
  rewrite bool_decide_eq_false_2 by lia.
  rewrite lookup_app_l by (rewrite length_take, length_drop; lia).
  by rewrite lookup_take_lt, lookup_drop by lia.
Qed.

Lemma Forall2_impl_Forall {A B} (P Q : A → B → Prop) (R : A → Prop) l k :
  Forall2 P l k → Forall R l → (∀ x y, R x → P x y → Q x y) → Forall2 Q l k.
Proof.
  intros HP HR Himpl. induction HP as [|x y l k Hxy HP IH]; [constructor|].
  apply Forall_cons in HR as [Hx HR]. constructor; [by apply Himpl|by apply IH].
Qed.

Lemma materialize_Ok bounds maxlen_of indet records fasta startpos endpos :
  let filesize := Z.of_nat (length fasta) in
  bounds records filesize = Ok (startpos, endpos) →
  (0 ≤ startpos ≤ endpos)%Z → (endpos ≤ I64_MAX)%Z →
  (0 ≤ maxlen_of records ≤ I64_MAX)%Z →
  Forall (record_fits startpos (Z.min (endpos - startpos) (filesize - startpos))
            (maxlen_of records)) records →
  ∃ reads,
    materialize bounds maxlen_of indet records fasta = Ok reads ∧
    length reads = length records ∧
    Forall2 (read_of_record fasta 0) records reads.
Proof.
  intros filesize Hb Hse He Hm Hfit. unfold materialize. fold filesize.
  rewrite Hb. cbn [mbind outcome_bind].
  rewrite (to_i64_id (endpos - startpos)) by (unfold I64_MAX in *; lia).
  rewrite vector_new_Ok by lia. cbn [mbind outcome_bind].
  unfold new_chars. rewrite bool_decide_eq_true_2 by done.
  cbn [mbind outcome_bind].
  set (mychunk := file_read_at _ _ _ _).
  assert (Hchunk : Z.of_nat (length mychunk) = (endpos - startpos)%Z).
  { subst mychunk. rewrite file_read_at_length; rewrite length_replicate; lia. }
  set (seqbuf := indet <$> _).
  assert (Hseq : Z.of_nat (length seqbuf) = maxlen_of records).
  { subst seqbuf. rewrite length_fmap, length_seq. lia. }
  destruct (copy_reads_Ok mychunk startpos records) with (seqbuf := seqbuf)
    (reads := @nil (list ascii)) as (out & -> & Hout).
  - lia.
  - lia.
  - rewrite Hchunk, Hseq. eapply Forall_impl; [exact Hfit|].
    intros rec (Hl & Hbs & Hp). split; [done|]. split; [done|].
    intros Hpl. destruct (Hp Hpl) as (? & ? & ?). repeat split; lia.
  - exists out. cbn [app]. split; [done|].
    split; [by apply Forall2_length in Hout|].
    eapply Forall2_impl_Forall; [exact Hout|exact Hfit|].
    intros rec read (Hl & Hbs & Hp) (Hlen & Hcont). split; [done|].
    intros j Hj. rewrite (Hcont j Hj).
    destruct (Hp ltac:(lia)) as (Hsp & Hpmax & Hend).
    assert (Hjb : (0 ≤ j / bases rec ≤ (len rec - 1) / bases rec)%Z).
    { split; [apply Z.div_pos; lia|apply Z.div_le_mono; lia]. }
    subst mychunk. rewrite file_read_at_lookup.
    + f_equal. lia.
    + lia.
    + rewrite length_replicate. lia.
    + lia.
    + subst filesize. lia.
Qed.

Lemma materialize_well_formed clamp maxlen_of indet records fasta :
  (∀ a b, Z.min a b ≤ clamp a b ≤ Z.max a b)%Z →
  maxlen_of records = maxlen_size_t records →
  well_formed_slice records (Z.of_nat (length fasta)) →
  ∃ reads,
    materialize (chunk_bounds clamp) maxlen_of indet records fasta = Ok reads ∧
    length reads = length records ∧
    Forall2 (read_of_record fasta 0) records reads.
Proof.
  intros Hclamp Hmax Hwf. unfold well_formed_slice in Hwf.
  destruct (head records) as [first_record|] eqn:Hh; [|done].
  destruct (last records) as [last_record|] eqn:Hl; [|done].
  destruct Hwf as (Hp0 & He & Hf & Hall).
  set (filesize := Z.of_nat (length fasta)) in *.
  assert (Hrec : ∀ rec, rec ∈ records →
    (0 < len rec)%Z ∧ (0 < bases rec)%Z ∧ (pos first_record ≤ pos rec)%Z ∧
    (touched_end rec ≤ Z.min (record_end last_record) filesize)%Z ∧
    (pos rec + len rec ≤ touched_end rec)%Z).
  { intros rec Hin. rewrite Forall_forall in Hall.
    destruct (Hall rec Hin) as (? & ? & ? & ?).
    repeat (split; [done|]). unfold touched_end.
    assert (0 ≤ (len rec - 1) / bases rec)%Z by (apply Z.div_pos; lia). lia. }
  destruct (Hrec first_record) as (Hf1 & Hf2 & _ & Hf4 & Hf5);
    [by apply head_Some_elem_of|].
  destruct (Hrec last_record) as (Hl1 & Hl2 & Hl3 & Hl4 & Hl5);
    [by apply last_Some_elem_of|].
  pose proof (Hclamp (record_end last_record) filesize) as Hc.
  destruct (maxlen_size_t_spec records I64_MAX) as [Hmb Hml].
  { apply Forall_forall. intros rec Hin.
    destruct (Hrec rec Hin) as (? & ? & ? & ? & ?). lia. }
  { unfold I64_MAX. lia. }
  apply (materialize_Ok _ _ _ _ _ (pos first_record)
           (clamp (record_end last_record) filesize)).
  - apply (chunk_bounds_Ok _ _ _ first_record last_record); try done; lia.
  - lia.
  - lia.
  - by rewrite Hmax.
  - rewrite Hmax. apply Forall_forall. intros rec Hin.
    destruct (Hrec rec Hin) as (? & ? & ? & ? & ?).
    rewrite Forall_forall in Hml. specialize (Hml rec Hin). cbn beta in Hml.
    unfold record_fits. split; [lia|]. split; [done|]. intros _.
    unfold touched_end in *. lia.
Qed.

(** X25: on a non-empty slice of a FASTA index that describes the file,
    [GetReadsFromRecords] returns as many reads as the slice has
    records, and for every index i the i-th read belongs to the i-th
    record: it has the length the record gives in [len], and its
    characters are the bytes of the file that the record locates, line
    terminators left out.  [GetMyReads] of [FastaIndex.cpp], which
    sizes its copy buffer through an [int], does the same when no read
    of the slice is longer than [INT_MAX]. *)
Theorem reads_match_records (indet : nat → ascii) (records : list faidx_record_t)
    (fasta : list ascii) :
  records ≠ [] →
  well_formed_slice records (Z.of_nat (length fasta)) →
  (∃ reads,
     GetReadsFromRecords indet records fasta = Ok reads ∧
     length reads = length records ∧
     ∀ i rec, records !! i = Some rec →
       ∃ read, reads !! i = Some read ∧
         Z.of_nat (length read) = len rec ∧ read_of_record fasta 0 rec read) ∧
  (Forall (λ rec, len rec ≤ INT_MAX)%Z records →
   ∃ reads,
     GetMyReads indet records fasta = Ok reads ∧
     length reads = length records ∧
     ∀ i rec, records !! i = Some rec →
       ∃ read, reads !! i = Some read ∧
         Z.of_nat (length read) = len rec ∧ read_of_record fasta 0 rec read).
Proof.
  intros _ Hwf.
  assert (Hidx : ∀ reads, Forall2 (read_of_record fasta 0) records reads →
    ∀ i rec, records !! i = Some rec →
      ∃ read, reads !! i = Some read ∧
        Z.of_nat (length read) = len rec ∧ read_of_record fasta 0 rec read).
  { intros reads Hall i rec Hi.
    destruct (Forall2_lookup_l _ _ _ _ _ Hall Hi) as (read & Hr & Hrr).
    exists read. split; [done|]. split; [apply Hrr|done]. }
  split.
  - destruct (materialize_well_formed Z.min maxlen_size_t indet records fasta)
      as (reads & Hrun & Hlen & Hall); [lia|done|done|].
    exists reads. split; [exact Hrun|]. split; [done|by apply Hidx].
  - intros Hint.
    destruct (materialize_well_formed Z.max maxlen_int indet records fasta)
      as (reads & Hrun & Hlen & Hall); [lia| |done|].
    + apply maxlen_int_size_t.
      unfold well_formed_slice in Hwf.
      destruct (head records), (last records); try done.
      destruct Hwf as (_ & _ & _ & Hall).
      rewrite Forall_forall in Hall. rewrite Forall_forall in Hint.
      apply Forall_forall.
      intros rec Hin. specialize (Hint rec Hin). cbn beta in Hint.
      destruct (Hall rec Hin) as (? & _). lia.
    + exists reads. split; [exact Hrun|]. split; [done|by apply Hidx].
Qed.

Lemma reads_match_records_witness :
  (∃ reads,
     GetReadsFromRecords (λ _, "?"%char) sample_records sample_fasta = Ok reads ∧
     length reads = 2 ∧
     ∃ read, reads !! 1 = Some read ∧ Z.of_nat (length read) = 4%Z) ∧
  (∃ reads,
     GetMyReads (λ _, "?"%char) sample_records sample_fasta = Ok reads ∧
     length reads = 2 ∧
     ∃ read, reads !! 1 = Some read ∧ Z.of_nat (length read) = 4%Z).
Proof.
  destruct (reads_match_records (λ _, "?"%char) sample_records sample_fasta)
    as [Hnew Hold].
  - discriminate.
  - unfold well_formed_slice, sample_records. cbn [head last].
    repeat split; [by vm_compute ..|].
    repeat constructor; by vm_compute.
  - split.
    + destruct Hnew as (reads & Hrun & Hlen & Hidx).
      exists reads. split; [exact Hrun|]. split; [exact Hlen|].
      destruct (Hidx 1 (FaidxRecord 4 21 4) eq_refl) as (read & Hr & Hl & _).
      exists read. split; [exact Hr|exact Hl].
    + destruct Hold as (reads & Hrun & Hlen & Hidx).
      { repeat constructor; by vm_compute. }
      exists reads. split; [exact Hrun|]. split; [exact Hlen|].
      destruct (Hidx 1 (FaidxRecord 4 21 4) eq_refl) as (read & Hr & Hl & _).
      exists read. split; [exact Hr|exact Hl].
Defined.

(** ** Buffers written block by block *)

Lemma write_at_length {A} (buffer : list A) off blk :
  off + length blk ≤ length buffer → length (write_at buffer off blk) = length buffer.
Proof.
  intros. unfold write_at. rewrite !length_app, length_take, length_drop. lia.
Qed.

Lemma write_at_adjacent {A} (buffer : list A) off blk1 blk2 :
  off + length blk1 + length blk2 ≤ length buffer →
  write_at (write_at buffer off blk1) (off + length blk1) blk2
    = write_at buffer off (blk1 ++ blk2).
Proof.
  intros Hle.
  rewrite <- (take_drop off buffer).
  assert (Ha : length (take off buffer) = off) by (rewrite length_take; lia).
  revert Ha. generalize (take off buffer) as a. intros a Ha.
  assert (Hd : length blk1 + length blk2 ≤ length (drop off buffer))
    by (rewrite length_drop; lia).
  revert Hd. generalize (drop off buffer) as d. intros d Hd. subst off.
  unfold write_at.
  rewrite !take_app_length, !length_app.
  rewrite !drop_app_ge by lia.
  replace (length a + length blk1 - length a) with (length blk1) by lia.
  replace (length a + length blk1 + length blk2 - length a - length blk1)
    with (length blk2) by lia.
  replace (length a + (length blk1 + length blk2) - length a)
    with (length blk2 + length blk1) by lia.
  rewrite take_app_add, take_app_length, drop_drop, <- !app_assoc.
  do 4 f_equal. lia.
Qed.

Lemma memcpy_write_at {A} (dst : list A) (d : nat) (src : list A) (s cnt : nat) :
  d + cnt ≤ length dst → s + cnt ≤ length src →
  memcpy dst (Z.of_nat d) src (Z.of_nat s) (Z.of_nat cnt)
    = Ok (write_at dst d (take cnt (drop s src))).
Proof.
  intros Hd Hs.
  destruct (memcpy_Ok dst (Z.of_nat d) src (Z.of_nat s) (Z.of_nat cnt))
    as [-> _]; try lia.
  unfold write_at. rewrite !Nat2Z.id, length_take, length_drop. do 4 f_equal. lia.
Qed.

(** Blocks stored one after the other, each at the offset where the
    blocks before it end, fill the front of the buffer with their
    concatenation. *)
Lemma for_fold_blocks {A B} (body : list B → A → outcome (list B))
    (blk : A → list B) (xs : list A) (buffer : list B) :
  length (concat (blk <$> xs)) ≤ length buffer →
  (∀ i x buf, xs !! i = Some x → length buf = length buffer →
     body buf x = Ok (write_at buf (length (concat (blk <$> take i xs))) (blk x))) →
  for_fold body xs buffer
    = Ok (concat (blk <$> xs) ++ drop (length (concat (blk <$> xs))) buffer).
Proof.
  induction xs as [|x xs IH] using rev_ind; intros Hlen Hbody.
  { cbn. by rewrite drop_0. }
  rewrite fmap_app, concat_app, length_app in Hlen. cbn in Hlen.
  rewrite app_nil_r in Hlen.
  rewrite for_fold_app, IH; [|lia|].
  - cbn [mbind outcome_bind for_fold].
    rewrite (Hbody (length xs) x).
    + cbn [mbind outcome_bind]. f_equal.
      rewrite take_app_length. unfold write_at.
      rewrite take_app_length.
      rewrite drop_app_ge by lia.
      rewrite drop_drop, fmap_app, concat_app, length_app. cbn.
      rewrite !app_nil_r, <- app_assoc. do 3 f_equal. lia.
    + by rewrite lookup_app_r, Nat.sub_diag by lia.
    + rewrite length_app, length_drop. lia.
  - intros i y buf Hi Hb.
    rewrite (Hbody i y buf); [|by apply lookup_app_l_Some|done].
    rewrite take_app_le; [done|]. apply lookup_lt_Some in Hi. lia.
Qed.

Lemma concat_lookup_block {A} (xss : list (list A)) (r : nat) (xs : list A) :
  xss !! r = Some xs →
  take (length xs) (drop (length (concat (take r xss))) (concat xss)) = xs.
Proof.
  intros Hr. rewrite <- (take_drop_middle _ _ _ Hr) at 2.
  rewrite concat_app, drop_app_length. cbn. by rewrite take_app_length.
Qed.

Lemma concat_take_length_le {A} (xss : list (list A)) (r : nat) (xs : list A) :
  xss !! r = Some xs →
  length (concat (take r xss)) + length xs ≤ length (concat xss).
Proof.
  intros Hr. rewrite <- (take_drop_middle _ _ _ Hr) at 2.
  rewrite concat_app, length_app. cbn. rewrite length_app. lia.
Qed.

(** ** The enumerator *)

Section RouterFacts.
Context `{KP : KmerPrimitive} `{CT : CountType}.

Lemma foreach_window_fold {St} (handler : TKmer → St → St) s i n st :
  foreach_window handler s i n st
    = fold_left (λ st km, handler km st) ((λ j, GetRep (window s j)) <$> seq i n) st.
Proof.
  revert i st. induction n as [|n IH]; intros i st; cbn; [done|]. apply IH.
Qed.

Lemma ForeachKmer_fold {St} (handler : TKmer → St → St) myreads st :
  ForeachKmer myreads handler st
    = fold_left (λ st km, handler km st) (concat (read_kmers <$> myreads)) st.
Proof.
  unfold ForeachKmer. revert st.
  induction myreads as [|s myreads IH]; intros st; cbn; [done|].
  rewrite fold_left_app, IH. f_equal. unfold read_kmers.
  case_decide; [done|]. apply foreach_window_fold.
Qed.

Lemma fold_left_snoc {A} (l acc : list A) :
  fold_left (λ calls x, calls ++ [x]) l acc = acc ++ l.
Proof.
  revert acc. induction l as [|x l IH]; intros acc; cbn.
  - by rewrite app_nil_r.
  - by rewrite IH, <- app_assoc.
Qed.

Lemma handler_calls_eq myreads :
  handler_calls myreads = concat (read_kmers <$> myreads).
Proof. unfold handler_calls. by rewrite ForeachKmer_fold, fold_left_snoc. Qed.

Lemma ForeachKmer_calls {St} (handler : TKmer → St → St) myreads st :
  ForeachKmer myreads handler st
    = fold_left (λ st km, handler km st) (handler_calls myreads) st.
Proof. by rewrite handler_calls_eq, ForeachKmer_fold. Qed.

Lemma handler_calls_one s : handler_calls [s] = read_kmers s.
Proof. rewrite handler_calls_eq. cbn. by rewrite app_nil_r. Qed.

Lemma window_length s i : i + kmer_size ≤ length s → length (window s i) = kmer_size.
Proof. intros. unfold window. rewrite length_take, length_drop. lia. Qed.

(** C7: for a read of length L ≥ k the handler is called once per window
    [s[i..i+k)], i from 0 to L-k in ascending order, with the canonical
    k-mer of that window; a shorter read causes no call, a read of
    length k exactly one; and the reads are taken in the order of the
    vector.  Whatever the handler, its state after the enumeration is
    that of these calls made one after the other. *)
Theorem handler_called_once_per_window (s : list ascii) :
  (kmer_size ≤ length s →
     handler_calls [s]
       = (λ i, GetRep (take kmer_size (drop i s))) <$> seq 0 (length s - kmer_size + 1) ∧
     length (handler_calls [s]) = length s - kmer_size + 1 ∧
     ∀ i, i ≤ length s - kmer_size →
       handler_calls [s] !! i = Some (GetRep (take kmer_size (drop i s))) ∧
       length (take kmer_size (drop i s)) = kmer_size) ∧
  (length s < kmer_size → handler_calls [s] = []) ∧
  (length s = kmer_size → handler_calls [s] = [GetRep s]) ∧
  (∀ myreads, handler_calls (s :: myreads) = handler_calls [s] ++ handler_calls myreads) ∧
  (∀ St (handler : TKmer → St → St) myreads st,
     ForeachKmer myreads handler st
       = fold_left (λ st km, handler km st) (handler_calls myreads) st).
Proof.
  rewrite handler_calls_one. unfold read_kmers.
  split; [|split; [|split; [|split]]].
  - intros Hle. rewrite decide_False by lia. split; [done|].
    split; [by rewrite length_fmap, length_seq|].
    intros i Hi. rewrite list_lookup_fmap, lookup_seq_lt by lia.
    split; [done|]. apply window_length. lia.
  - intros Hlt. by rewrite decide_True.
  - intros Heq. rewrite decide_False by lia.
    replace (length s - kmer_size + 1) with 1 by lia. cbn.
    unfold window. rewrite drop_0, take_ge by lia. done.
  - intros myreads. rewrite !handler_calls_eq. reflexivity.
  - intros. apply ForeachKmer_calls.
Qed.

Lemma elem_of_read_kmers km s :
  km ∈ read_kmers s ↔ ∃ i, i + kmer_size ≤ length s ∧ km = GetRep (window s i).
Proof.
  unfold read_kmers. case_decide as Hs.
  - split; [by intros ?%elem_of_nil|]. intros (i & Hi & _). lia.
  - rewrite list_elem_of_fmap. split.
    + intros (i & -> & Hi%elem_of_seq). exists i. split; [lia|done].
    + intros (i & Hi & ->). exists i. split; [done|]. apply elem_of_seq. lia.
Qed.

Lemma elem_of_handler_calls km myreads :
  km ∈ handler_calls myreads ↔
  ∃ s i, s ∈ myreads ∧ i + kmer_size ≤ length s ∧ km = GetRep (window s i).
Proof.
  rewrite handler_calls_eq, list_elem_of_In, in_concat. split.
  - intros (l & Hl & Hkm). apply list_elem_of_In, list_elem_of_fmap in Hl.
    destruct Hl as (s & -> & Hs). apply list_elem_of_In, elem_of_read_kmers in Hkm.
    destruct Hkm as (i & Hi & ->). by exists s, i.
  - intros (s & i & Hs & Hi & ->). exists (read_kmers s). split.
    + apply list_elem_of_In, list_elem_of_fmap. by exists s.
    + apply list_elem_of_In, elem_of_read_kmers. by exists i.
Qed.

Lemma handler_calls_window_kmers myreads :
  Forall is_window_kmer (handler_calls myreads).
Proof.
  apply Forall_forall. intros km (s & i & _ & Hi & ->)%elem_of_handler_calls.
  exists (window s i). split; [by apply window_length|done].
Qed.

(** ** The outgoing buckets *)

Lemma partition_fold nprocs calls init :
  length init = nprocs →
  fold_left (λ b km, KmerPartitionHandler nprocs km b) calls init
    = imap (λ i b, b ++ filter (λ km, GetKmerOwner km nprocs = i) calls) init.
Proof.
  revert init. induction calls as [|x calls IH]; intros init Hlen; cbn [fold_left].
  { apply list_eq. intros i. rewrite list_lookup_imap.
    destruct (init !! i); cbn; [|done]. by rewrite app_nil_r. }
  rewrite IH by (unfold KmerPartitionHandler; by rewrite length_alter).
  apply list_eq. intros i. rewrite !list_lookup_imap.
  unfold KmerPartitionHandler.
  destruct (decide (GetKmerOwner x nprocs = i)) as [Heq|Hne].
  - rewrite Heq, list_lookup_alter_eq.
    destruct (init !! _); cbn -[filter]; [|done].
    by rewrite filter_cons_True, <- app_assoc by done.
  - rewrite list_lookup_alter_ne by done.
    destruct (init !! i); cbn -[filter]; [|done].
    by rewrite filter_cons_False by done.
Qed.

Lemma buckets_eq nprocs myreads :
  ForeachKmer myreads (KmerPartitionHandler nprocs) (replicate nprocs [])
    = bucket_to nprocs myreads <$> seq 0 nprocs.
Proof.
  rewrite ForeachKmer_calls, partition_fold by apply length_replicate.
  apply list_eq. intros i. rewrite list_lookup_imap, list_lookup_fmap.
  destruct (decide (i < nprocs)) as [Hi|Hi].
  - by rewrite lookup_replicate_2, lookup_seq_lt by done.
  - rewrite (proj1 (lookup_replicate_None _ _ _)), lookup_seq_ge by lia. done.
Qed.

Lemma filter_lt_S {A} (f : A → nat) (n : nat) (l : list A) :
  length (filter (λ x, f x < n) l) + length (filter (λ x, f x = n) l)
    = length (filter (λ x, f x < S n) l).
Proof.
  induction l as [|x l IH]; [done|].
  rewrite !filter_cons. repeat case_decide; cbn; lia.
Qed.

Lemma buckets_total_length {A} (f : A → nat) (n : nat) (l : list A) :
  length (concat ((λ i, filter (λ x, f x = i) l) <$> seq 0 n))
    = length (filter (λ x, f x < n) l).
Proof.
  induction n as [|n IH].
  - cbn. induction l as [|x l IHl]; [done|].
    rewrite filter_cons. case_decide; [lia|done].
  - rewrite seq_S, fmap_app, concat_app, length_app, IH. cbn.
    rewrite app_nil_r. apply filter_lt_S.
Qed.

Lemma buckets_cover nprocs myreads :
  0 < nprocs →
  length (concat (bucket_to nprocs myreads <$> seq 0 nprocs))
    = length (handler_calls myreads).
Proof.
  intros HP. unfold bucket_to.
  rewrite (buckets_total_length (λ km, GetKmerOwner km nprocs)).
  f_equal. induction (handler_calls myreads) as [|km l IH]; [done|].
  rewrite filter_cons_True by (by apply GetKmerOwner_lt). by f_equal.
Qed.

Lemma bucket_to_window_kmers nprocs myreads i :
  Forall is_window_kmer (bucket_to nprocs myreads i).
Proof.
  unfold bucket_to. apply Forall_forall.
  intros km [_ Hkm]%list_elem_of_filter.
  pose proof (handler_calls_window_kmers myreads) as Hall.
  rewrite Forall_forall in Hall. by apply Hall.
Qed.

Lemma bucket_bytes_length bucket :
  Forall is_window_kmer bucket →
  length (bucket_bytes bucket) = N_BYTES * length bucket.
Proof.
  unfold bucket_bytes. induction 1 as [|km bucket (w & Hw & ->) _ IH]; cbn; [lia|].
  rewrite length_app, IH, CopyDataInto_length by done. lia.
Qed.

Lemma bucket_bytes_app b1 b2 :
  bucket_bytes (b1 ++ b2) = bucket_bytes b1 ++ bucket_bytes b2.
Proof. unfold bucket_bytes. by rewrite fmap_app, concat_app. Qed.

Lemma bucket_bytes_concat buckets :
  concat (bucket_bytes <$> buckets) = bucket_bytes (concat buckets).
Proof.
  induction buckets as [|b buckets IH]; [done|].
  cbn [fmap list_fmap concat]. rewrite bucket_bytes_app. f_equal. exact IH.
Qed.

(** ** Totals at [int] width *)

Lemma accumulate_int_exact (v : list Z) :
  Forall (λ x, 0 ≤ x)%Z v → (sum_Z v ≤ INT_MAX)%Z → accumulate_int v = sum_Z v.
Proof.
  unfold accumulate_int. intros Hv Hsum.
  enough (∀ acc, (0 ≤ acc)%Z → (acc + sum_Z v ≤ INT_MAX)%Z →
    fold_left (λ acc x, to_int (acc + x)) v acc = (acc + sum_Z v)%Z) as Hgen.
  { rewrite Hgen; lia. }
  induction Hv as [|x v Hx Hv IH]; intros acc Hacc Hle; cbn [fold_left].
  { unfold sum_Z; cbn. lia. }
  rewrite sum_Z_cons in Hle |- *.
  pose proof (sum_Z_nonneg v Hv).
  rewrite to_int_id by (unfold INT_MAX in *; lia).
  rewrite IH; lia.
Qed.

Lemma to_int_add_l a x : to_int (to_int a + x) = to_int (a + x).
Proof.
  unfold to_int, wrap_signed.
  replace ((a + 2 ^ (32 - 1)) mod 2 ^ 32 - 2 ^ (32 - 1) + x + 2 ^ (32 - 1))%Z
    with ((a + 2 ^ (32 - 1)) mod 2 ^ 32 + x)%Z by lia.
  rewrite Zplus_mod_idemp_l. do 2 f_equal. lia.
Qed.

(** Whatever the counts, the total the code computes is their sum
    reduced to an [int]. *)
Lemma accumulate_int_wraps (v : list Z) : accumulate_int v = to_int (sum_Z v).
Proof.
  unfold accumulate_int.
  enough (∀ a, fold_left (λ acc x, to_int (acc + x)) v (to_int a)
               = to_int (a + sum_Z v)) as Hgen.
  { specialize (Hgen 0%Z). rewrite Z.add_0_l in Hgen. rewrite <- Hgen. done. }
  induction v as [|x v IH]; intros a; cbn [fold_left].
  { unfold sum_Z; cbn. by rewrite Z.add_0_r. }
  rewrite to_int_add_l, IH, sum_Z_cons. f_equal. lia.
Qed.

Lemma sum_Z_lengths {A} (blocks : list (list A)) :
  sum_Z ((λ b, Z.of_nat (length b)) <$> blocks) = Z.of_nat (length (concat blocks)).
Proof.
  induction blocks as [|b blocks IH]; [done|].
  cbn [fmap list_fmap concat]. rewrite sum_Z_cons, length_app.
  fold (fmap (M:=list) (λ b, Z.of_nat (length b)) blocks). lia.
Qed.

Lemma lengths_nonneg {A} (blocks : list (list A)) :
  Forall (λ x, 0 ≤ x)%Z ((λ b, Z.of_nat (length b)) <$> blocks).
Proof. apply Forall_fmap, Forall_forall. intros b _. cbn. lia. Qed.

(** ** The sending side *)

Lemma pack_bucket_write bucket (buf : list Byte.byte) (addr : nat) :
  Forall is_window_kmer bucket →
  addr + length (bucket_bytes bucket) ≤ length buf →
  pack_bucket bucket buf (Z.of_nat addr) = Ok (write_at buf addr (bucket_bytes bucket)).
Proof.
  intros Hb. revert buf addr.
  induction Hb as [|km bucket (w & Hw & ->) Hb IH]; intros buf addr Hlen.
  { cbn. unfold write_at. cbn. by rewrite Nat.add_0_r, take_drop. }
  cbn [pack_bucket]. unfold bucket_bytes in Hlen |- *. cbn in Hlen |- *.
  rewrite length_app, CopyDataInto_length in Hlen by done.
  change 0%Z with (Z.of_nat 0).
  rewrite memcpy_write_at by (rewrite ?CopyDataInto_length by done; lia).
  rewrite drop_0, take_ge by (by rewrite CopyDataInto_length).
  cbn [mbind outcome_bind]. rewrite <- Nat2Z.inj_add.
  fold (bucket_bytes bucket) in Hlen |- *.
  rewrite IH by (rewrite write_at_length; rewrite ?CopyDataInto_length by done; lia).
  f_equal. rewrite <- (CopyDataInto_length w Hw) at 1.
  apply write_at_adjacent. rewrite CopyDataInto_length by done. lia.
Qed.

Lemma sum_Z_block_counts blocks :
  sum_Z (block_counts blocks) = Z.of_nat (length (concat blocks)).
Proof. apply sum_Z_lengths. Qed.

Lemma block_counts_nonneg blocks : Forall (λ x, 0 ≤ x)%Z (block_counts blocks).
Proof. apply lengths_nonneg. Qed.

Lemma send_blocks_total nprocs myreads :
  0 < nprocs →
  length (concat (send_blocks nprocs myreads))
    = N_BYTES * length (handler_calls myreads).
Proof.
  intros HP.
  assert (send_blocks nprocs myreads
          = bucket_bytes <$> (bucket_to nprocs myreads <$> seq 0 nprocs)) as ->.
  { unfold send_blocks. by rewrite <- list_fmap_compose. }
  rewrite bucket_bytes_concat, bucket_bytes_length, buckets_cover; [done..|].
  apply Forall_forall. intros km Hin%list_elem_of_In.
  apply in_concat in Hin as (b & Hb%list_elem_of_In & Hkm%list_elem_of_In).
  apply list_elem_of_fmap in Hb as (i & -> & _).
  pose proof (bucket_to_window_kmers nprocs myreads i) as Hall.
  rewrite Forall_forall in Hall. by apply Hall.
Qed.

Lemma displs_of_blocks (blocks : list (list Byte.byte)) i :
  (Z.of_nat (length (concat blocks)) ≤ INT_MAX)%Z → i < length blocks →
  exclusive_displs to_count (block_counts blocks) !! i
    = Some (Z.of_nat (length (concat (take i blocks)))).
Proof.
  intros Hmax Hi. unfold block_counts.
  rewrite (exclusive_displs_lookup to_count INT_MAX).
  - by rewrite <- fmap_take, sum_Z_lengths.
  - intros z Hz. apply to_count_int. lia.
  - apply lengths_nonneg.
  - by rewrite sum_Z_lengths.
  - by rewrite length_fmap.
Qed.

Lemma pack_sends_Ok nprocs myreads :
  0 < nprocs →
  (Z.of_nat (N_BYTES * length (handler_calls myreads)) ≤ INT_MAX)%Z →
  pack_sends nprocs myreads =
    Ok {| sendcnt := block_counts (send_blocks nprocs myreads);
          sdispls := exclusive_displs to_count (block_counts (send_blocks nprocs myreads));
          sendbuf := concat (send_blocks nprocs myreads) |}.
Proof.
  intros HP Hfit. unfold pack_sends. rewrite buckets_eq.
  pose proof (send_blocks_total nprocs myreads HP) as Htot.
  pose proof N_BYTES_pos as HN.
  set (blocks := send_blocks nprocs myreads) in *.
  assert (Hcnt :
    (λ bucket, to_count (to_u64 (Z.of_nat (length bucket) * Z.of_nat N_BYTES)))
      <$> (bucket_to nprocs myreads <$> seq 0 nprocs) = block_counts blocks).
  { subst blocks. unfold block_counts, send_blocks.
    rewrite <- !list_fmap_compose. apply list_fmap_ext. intros _ i _. cbn.
    rewrite bucket_bytes_length by apply bucket_to_window_kmers.
    assert (length (bucket_to nprocs myreads i) ≤ length (handler_calls myreads))
      by apply length_filter.
    assert (N_BYTES * length (bucket_to nprocs myreads i)
              ≤ N_BYTES * length (handler_calls myreads))
      by (apply Nat.mul_le_mono_l; lia).
    rewrite to_u64_id by (unfold INT_MAX, ULONG_MAX in *; lia).
    rewrite to_count_int by (unfold INT_MAX in *; lia). lia. }
  rewrite Hcnt.
  destruct nprocs as [|p]; [lia|]. cbn [replicate front mbind outcome_bind].
  rewrite accumulate_int_exact;
    [|apply block_counts_nonneg|rewrite sum_Z_block_counts; lia].
  rewrite sum_Z_block_counts.
  rewrite vector_new_Ok by (unfold INT_MAX, I64_MAX in *; lia).
  cbn [mbind outcome_bind]. rewrite Nat2Z.id.
  rewrite (for_fold_blocks _ (λ i, bucket_bytes (bucket_to (S p) myreads i))).
  - fold (send_blocks (S p) myreads). fold blocks.
    rewrite drop_ge by (rewrite length_replicate; lia).
    by rewrite app_nil_r.
  - fold (send_blocks (S p) myreads). fold blocks.
    by rewrite length_replicate.
  - intros i x buf Hx Hbuf. rewrite length_replicate in Hbuf.
    pose proof (lookup_lt_Some _ _ _ Hx) as Hi. rewrite length_seq in Hi.
    rewrite lookup_seq_lt in Hx by done. injection Hx as <-. cbn [Nat.add].
    rewrite fmap_take. fold (send_blocks (S p) myreads). fold blocks.
    assert (Hblk : blocks !! i = Some (bucket_bytes (bucket_to (S p) myreads i))).
    { subst blocks. unfold send_blocks.
      by rewrite list_lookup_fmap, lookup_seq_lt. }
    assert (Hblen : length blocks = S p).
    { subst blocks. unfold send_blocks. by rewrite length_fmap, length_seq. }
    unfold pack_step.
    rewrite list_lookup_fmap, lookup_seq_lt by done.
    cbn [fmap option_fmap option_map Nat.add].
    unfold block_counts at 1. rewrite list_lookup_fmap, Hblk.
    cbn [fmap option_fmap option_map].
    rewrite displs_of_blocks by lia.
    rewrite bucket_bytes_length by apply bucket_to_window_kmers.
    rewrite bool_decide_eq_true_2.
    + pose proof (concat_take_length_le _ _ _ Hblk).
      rewrite pack_bucket_write; [done| apply bucket_to_window_kmers | lia].
    + rewrite Nat2Z.inj_mul, Z.mul_comm, Z.quot_mul by lia.
      rewrite to_u64_id; [done|]. 
      assert (length (bucket_to (S p) myreads i) ≤ length (handler_calls myreads))
        by apply length_filter.
      unfold INT_MAX, ULONG_MAX in *. nia.
Qed.

Lemma to_int_high_half (z : Z) :
  (2 ^ 31 ≤ z < 2 ^ 32)%Z → to_int z = (z - 2 ^ 32)%Z.
Proof.
  intros Hz. unfold to_int, wrap_signed.
  change (2 ^ (32 - 1))%Z with 2147483648%Z.
  change (2 ^ 31)%Z with 2147483648%Z in Hz.
  change (2 ^ 32)%Z with 4294967296%Z in *.
  replace (z + 2147483648)%Z with (z - 2147483648 + 1 * 4294967296)%Z by lia.
  rewrite Z.mod_add, Z.mod_small by lia. lia.
Qed.

(** A negative [totsend]: every bucket is counted exactly, the fold of
    lines 132-133 leaves the sum of the counts reduced to an [int], and
    when that is negative the send buffer of line 138 cannot be
    allocated. *)
Lemma pack_sends_negative_total nprocs myreads :
  0 < nprocs →
  (∀ i, (Z.of_nat (N_BYTES * length (bucket_to nprocs myreads i)) ≤ INT_MAX)%Z) →
  (to_int (send_bytes myreads) < 0)%Z →
  pack_sends nprocs myreads = Fault BadAlloc.
Proof.
  intros HP Hbucket Hneg. unfold pack_sends. rewrite buckets_eq.
  assert (Hcnt :
    (λ bucket, to_count (to_u64 (Z.of_nat (length bucket) * Z.of_nat N_BYTES)))
      <$> (bucket_to nprocs myreads <$> seq 0 nprocs)
    = block_counts (send_blocks nprocs myreads)).
  { unfold block_counts, send_blocks.
    rewrite <- !list_fmap_compose. apply list_fmap_ext. intros _ i _. cbn.
    rewrite bucket_bytes_length by apply bucket_to_window_kmers.
    specialize (Hbucket i).
    rewrite to_u64_id by (unfold INT_MAX, ULONG_MAX in *; lia).
    rewrite to_count_int by (unfold INT_MAX in *; lia). lia. }
  rewrite Hcnt.
  destruct nprocs as [|p]; [lia|]. cbn [replicate front mbind outcome_bind].
  rewrite accumulate_int_wraps, sum_Z_block_counts, send_blocks_total by lia.
  fold (send_bytes myreads). unfold vector_new.
  revert Hneg. generalize (send_bytes myreads). intros z Hneg.
  assert (Hlow : (- 2 ^ 31 ≤ to_int z)%Z).
  { unfold to_int, wrap_signed.
    change (2 ^ (32 - 1))%Z with 2147483648%Z.
    change (2 ^ 31)%Z with 2147483648%Z.
    pose proof (Z.mod_pos_bound (z + 2147483648) (2 ^ 32)) as Hm. lia. }
  assert (Hu : to_u64 (to_int z) = (to_int z + 2 ^ 64)%Z).
  { unfold to_u64, wrap_unsigned.
    change (2 ^ 31)%Z with 2147483648%Z in Hlow.
    change (2 ^ 64)%Z with 18446744073709551616%Z.
    replace (to_int z)
      with (to_int z + 18446744073709551616 + (-1) * 18446744073709551616)%Z
      at 1 by lia.
    rewrite Z.mod_add, Z.mod_small by lia. lia. }
  rewrite Hu, bool_decide_eq_false_2; [done|].
  unfold I64_MAX. change (2 ^ 31)%Z with 2147483648%Z in Hlow.
  change (2 ^ 64)%Z with 18446744073709551616%Z.
  change (2 ^ 63)%Z with 9223372036854775808%Z. lia.
Qed.

(** X19: the defect of lines 132-133 on a rank: when the bytes to send are
    2^31 or more in all (and less than 2^32), with every single bucket
    still within [INT_MAX] bytes, [totsend] is negative and the send
    buffer cannot be allocated. *)
Lemma pack_sends_overflow nprocs myreads :
  0 < nprocs →
  (∀ i, (Z.of_nat (N_BYTES * length (bucket_to nprocs myreads i)) ≤ INT_MAX)%Z) →
  (2 ^ 31 ≤ send_bytes myreads < 2 ^ 32)%Z →
  pack_sends nprocs myreads = Fault BadAlloc.
Proof.
  intros HP Hbucket Htot. apply pack_sends_negative_total; [done|done|].
  rewrite to_int_high_half by done. lia.
Qed.

(** ** The receiving side *)

Lemma incoming_window_kmers world r : Forall is_window_kmer (incoming world r).
Proof.
  apply Forall_forall. intros km Hin%list_elem_of_In.
  apply in_concat in Hin as (b & Hb%list_elem_of_In & Hkm%list_elem_of_In).
  apply list_elem_of_fmap in Hb as (myreads & -> & _).
  pose proof (bucket_to_window_kmers (length world) myreads r) as Hall.
  rewrite Forall_forall in Hall. by apply Hall.
Qed.

Lemma recv_blocks_concat world r :
  concat (recv_blocks world r) = bucket_bytes (incoming world r).
Proof.
  unfold incoming. rewrite <- bucket_bytes_concat.
  unfold recv_blocks. by rewrite <- list_fmap_compose.
Qed.

Lemma unpack_kmers_dom kms :
  Forall is_window_kmer kms →
  ∀ (pre : list Byte.byte) (kmermap : gmap TKmer KmerCountEntry),
  ∃ kmermap',
    unpack_kmers (length kms) (pre ++ bucket_bytes kms) (Z.of_nat (length pre)) kmermap
      = Ok kmermap' ∧
    dom kmermap' = dom kmermap ∪ list_to_set kms.
Proof.
  intros Hall. induction Hall as [|km kms Hkm Hkms IH]; intros pre kmermap.
  { exists kmermap. split; [done|]. set_solver. }
  destruct Hkm as (w & Hw & ->).
  cbn [length unpack_kmers]. unfold bucket_bytes. cbn [fmap list_fmap concat].
  fold (fmap (M:=list) CopyDataInto kms). fold (bucket_bytes kms).
  pose proof (CopyDataInto_length w Hw) as Hc.
  rewrite bool_decide_eq_true_2 by (rewrite !length_app; lia).
  rewrite Nat2Z.id, drop_app_length.
  assert (Htake : take N_BYTES (CopyDataInto (GetRep w) ++ bucket_bytes kms)
                  = CopyDataInto (GetRep w)).
  { rewrite <- Hc. apply take_app_length. }
  destruct (IH (pre ++ CopyDataInto (GetRep w))
              (match kmermap !! GetRep w with
               | None => <[GetRep w := KmerCountEntry_default]> kmermap
               | Some _ => kmermap
               end)) as (kmermap' & Hrun & Hdom).
  exists kmermap'. split.
  - rewrite Htake, FromBytes_CopyDataInto by done. rewrite <- Hrun.
    rewrite length_app, Nat2Z.inj_add, Hc, <- app_assoc. done.
  - rewrite Hdom. destruct (kmermap !! GetRep w) eqn:Hlook.
    + apply elem_of_dom_2 in Hlook. set_solver.
    + rewrite dom_insert_L. set_solver.
Qed.

Lemma side_of_lookup nprocs myreads r :
  r < nprocs →
  (Z.of_nat (N_BYTES * length (handler_calls myreads)) ≤ INT_MAX)%Z →
  let side := side_of nprocs myreads in
  let blk := bucket_bytes (bucket_to nprocs myreads r) in
  ∃ d : nat,
    sendcnt side !! r = Some (Z.of_nat (length blk)) ∧
    sdispls side !! r = Some (Z.of_nat d) ∧
    d + length blk ≤ length (sendbuf side) ∧
    take (length blk) (drop d (sendbuf side)) = blk.
Proof.
  intros Hr Hfit side blk. subst side. unfold side_of.
  cbn [sendcnt sdispls sendbuf].
  assert (HP : 0 < nprocs) by lia.
  pose proof (send_blocks_total nprocs myreads HP) as Htot.
  assert (Hblk : send_blocks nprocs myreads !! r = Some blk).
  { unfold send_blocks. by rewrite list_lookup_fmap, lookup_seq_lt. }
  exists (length (concat (take r (send_blocks nprocs myreads)))).
  split; [|split; [|split]].
  - unfold block_counts. by rewrite list_lookup_fmap, Hblk.
  - apply displs_of_blocks; [lia|by eapply lookup_lt_Some].
  - by apply concat_take_length_le.
  - by apply concat_lookup_block.
Qed.

(** ** The router *)

Lemma for_each_fmap {A B C} (body : B → outcome C) (f : A → B) (l : list A) :
  for_each body (f <$> l) = for_each (λ x, body (f x)) l.
Proof. induction l as [|x l IH]; [done|]. cbn. by rewrite IH. Qed.

Lemma filter_concat {A} (P : A → Prop) `{∀ x, Decision (P x)} (ls : list (list A)) :
  concat (filter P <$> ls) = filter P (concat ls).
Proof.
  induction ls as [|l ls IH]; [done|].
  cbn [fmap list_fmap concat]. rewrite filter_app. f_equal. exact IH.
Qed.

Lemma incoming_eq world r :
  incoming world r
    = filter (λ km, GetKmerOwner km (length world) = r) (concat (handler_calls <$> world)).
Proof.
  unfold incoming, bucket_to. rewrite <- filter_concat.
  by rewrite <- list_fmap_compose.
Qed.

Lemma elem_of_incoming world r km :
  km ∈ incoming world r ↔
  GetKmerOwner km (length world) = r ∧ kmer_occurs world km.
Proof.
  rewrite incoming_eq, list_elem_of_filter, list_elem_of_In, in_concat.
  unfold kmer_occurs. split.
  - intros (Ho & calls & Hc%list_elem_of_In & Hkm%list_elem_of_In).
    apply list_elem_of_fmap in Hc as (myreads & -> & Hm).
    apply elem_of_handler_calls in Hkm as (s & i & Hs & Hi & ->).
    split; [done|]. by exists myreads, s, i.
  - intros (Ho & myreads & s & i & Hm & Hs & Hi & ->). split; [done|].
    exists (handler_calls myreads). split.
    + apply list_elem_of_In, list_elem_of_fmap. by exists myreads.
    + apply list_elem_of_In, elem_of_handler_calls. by exists s, i.
Qed.

Lemma router_run (hll : HyperLogLog) (world : list (list (list ascii))) (r : nat) :
  r < length world →
  (∀ myreads, myreads ∈ world → (send_bytes myreads ≤ INT_MAX)%Z) →
  (recv_bytes world r ≤ INT_MAX)%Z →
  ∃ kmermap,
    GetKmerCountMapKeys hll world r = Ok (kmermap, estimate_pass hll world r) ∧
    dom kmermap = list_to_set (incoming world r).
Proof.
  intros Hr Hsend Hrecv. unfold GetKmerCountMapKeys.
  set (nprocs := length world). assert (HP : 0 < nprocs) by lia.
  pose proof N_BYTES_pos as HN.
  rewrite (for_each_Ok _ (side_of nprocs))
    by (intros myreads Hin; apply pack_sends_Ok; [done|by apply Hsend]).
  cbn [mbind outcome_bind].
  (* the counts received *)
  unfold alltoall. rewrite !for_each_fmap.
  rewrite (for_each_Ok _
    (λ myreads, Z.of_nat (length (bucket_bytes (bucket_to nprocs myreads r))))).
  2:{ intros myreads Hin.
      destruct (side_of_lookup nprocs myreads r Hr (Hsend _ Hin))
        as (d & -> & _). done. }
  cbn [mbind outcome_bind].
  assert (Hcnts :
    (λ myreads, Z.of_nat (length (bucket_bytes (bucket_to nprocs myreads r))))
      <$> world = block_counts (recv_blocks world r)).
  { unfold block_counts, recv_blocks. by rewrite <- list_fmap_compose. }
  rewrite Hcnts.
  assert (Htot : length (concat (recv_blocks world r))
                 = N_BYTES * length (incoming world r)).
  { rewrite recv_blocks_concat. apply bucket_bytes_length, incoming_window_kmers. }
  assert (Hfit : (Z.of_nat (length (concat (recv_blocks world r))) ≤ INT_MAX)%Z).
  { rewrite Htot, incoming_eq. exact Hrecv. }
  rewrite accumulate_int_exact;
    [|apply block_counts_nonneg|by rewrite sum_Z_block_counts].
  rewrite sum_Z_block_counts.
  rewrite vector_new_Ok by (unfold INT_MAX, I64_MAX in *; lia).
  cbn [mbind outcome_bind]. rewrite Nat2Z.id.
  (* the bytes received *)
  set (blk := λ x : nat * send_side,
    take (Z.to_nat (sendcnt x.2 !!! r))
      (drop (Z.to_nat (sdispls x.2 !!! r)) (sendbuf x.2))).
  set (xs := imap pair (side_of nprocs <$> world)).
  assert (Hx : ∀ i x, xs !! i = Some x →
    ∃ myreads, world !! i = Some myreads ∧ x = (i, side_of nprocs myreads) ∧
      blk x = bucket_bytes (bucket_to nprocs myreads r)).
  { intros i x. subst xs. rewrite list_lookup_imap, list_lookup_fmap.
    destruct (world !! i) as [myreads|] eqn:Hw; [|done]. cbn.
    intros [= <-]. exists myreads. split; [done|]. split; [done|].
    assert (Hin : myreads ∈ world) by (by eapply list_elem_of_lookup_2).
    destruct (side_of_lookup nprocs myreads r Hr (Hsend _ Hin))
      as (d & Hc & Hd & _ & Htake).
    subst blk. cbn [snd].
    rewrite (list_lookup_total_correct _ _ _ Hc),
      (list_lookup_total_correct _ _ _ Hd), !Nat2Z.id. exact Htake. }
  assert (Hblks : blk <$> xs = recv_blocks world r).
  { apply list_eq. intros i. unfold recv_blocks.
    rewrite !list_lookup_fmap.
    destruct (xs !! i) as [x|] eqn:Hxi.
    - destruct (Hx i x Hxi) as (myreads & -> & _ & Hb). cbn. by rewrite Hb.
    - subst xs. rewrite list_lookup_imap, list_lookup_fmap in Hxi.
      by destruct (world !! i). }
  unfold alltoallv. fold xs.
  rewrite (for_fold_blocks _ blk).
  2:{ by rewrite Hblks, length_replicate. }
  2:{ intros i x buf Hxi Hbuf. rewrite length_replicate in Hbuf.
      destruct (Hx i x Hxi) as (myreads & Hw & -> & Hb).
      assert (Hin : myreads ∈ world) by (by eapply list_elem_of_lookup_2).
      destruct (side_of_lookup nprocs myreads r Hr (Hsend _ Hin))
        as (d & Hc & Hd & Hroom & Htake).
      unfold alltoallv_step. rewrite Hc, Hd.
      assert (Hblk : recv_blocks world r !! i
                     = Some (bucket_bytes (bucket_to nprocs myreads r))).
      { unfold recv_blocks. by rewrite list_lookup_fmap, Hw. }
      rewrite displs_of_blocks; [|lia|by eapply lookup_lt_Some].
      pose proof (concat_take_length_le _ _ _ Hblk).
      rewrite memcpy_write_at by lia.
      rewrite Htake, fmap_take, Hblks, Hb. done. }
  cbn [mbind outcome_bind].
  rewrite Hblks, drop_ge, app_nil_r by (rewrite length_replicate; lia).
  (* the k-mers received *)
  rewrite Htot, Nat2Z.inj_mul, Z.mul_comm, Z.quot_mul by lia.
  rewrite to_u64_id by (unfold INT_MAX, ULONG_MAX in *; lia).
  rewrite Nat2Z.id, recv_blocks_concat.
  destruct (unpack_kmers_dom (incoming world r) (incoming_window_kmers world r)
              [] ∅) as (kmermap & Hrun & Hdom).
  cbn [app length] in Hrun. change (Z.of_nat 0) with 0%Z in Hrun.
  rewrite Hrun. cbn [mbind outcome_bind].
  exists kmermap. split; [done|]. rewrite Hdom, dom_empty_L. set_solver.
Qed.

(** X24: when the bytes every rank sends, and the bytes every rank
    receives, are at most [INT_MAX] in all, the key set of the map that
    [GetKmerCountMapKeys] returns on rank [r] is the set of the canonical
    k-mers of the windows of the reads of the whole dataset whose owner
    is [r]; so a k-mer that occurs in the dataset is a key on the rank
    [owner(km)] and on no other. *)
Theorem owned_keys_are_the_owned_kmers (hll : HyperLogLog)
    (world : list (list (list ascii))) :
  let nprocs := length world in
  Forall (λ myreads, send_bytes myreads ≤ INT_MAX)%Z world →
  Forall (λ r, recv_bytes world r ≤ INT_MAX)%Z (seq 0 nprocs) →
  (∀ r, r < nprocs →
     ∃ keys,
       key_set (GetKmerCountMapKeys hll world r) = Ok keys ∧
       ∀ km, km ∈ keys ↔ GetKmerOwner km nprocs = r ∧ kmer_occurs world km) ∧
  (∀ km, kmer_occurs world km →
     GetKmerOwner km nprocs < nprocs ∧
     ∀ r keys, r < nprocs →
       key_set (GetKmerCountMapKeys hll world r) = Ok keys →
       (km ∈ keys ↔ r = GetKmerOwner km nprocs)).
Proof.
  intros nprocs Hsend Hrecv.
  assert (Hrun : ∀ r, r < nprocs →
     ∃ keys,
       key_set (GetKmerCountMapKeys hll world r) = Ok keys ∧
       ∀ km, km ∈ keys ↔ GetKmerOwner km nprocs = r ∧ kmer_occurs world km).
  { intros r Hr. rewrite Forall_forall in Hsend. rewrite Forall_forall in Hrecv.
    destruct (router_run hll world r Hr Hsend) as (kmermap & Hrun & Hdom).
    { apply Hrecv, elem_of_seq. lia. }
    exists (dom kmermap). unfold key_set. rewrite Hrun. split; [done|].
    intros km. rewrite Hdom, elem_of_list_to_set. apply elem_of_incoming. }
  split; [exact Hrun|].
  intros km Hocc.
  assert (HP : 0 < nprocs).
  { destruct Hocc as (myreads & _ & _ & Hin & _).
    subst nprocs. destruct world; [by apply elem_of_nil in Hin|cbn; lia]. }
  split; [by apply GetKmerOwner_lt|].
  intros r keys Hr Hkeys. destruct (Hrun r Hr) as (keys' & Hkeys' & Hiff).
  rewrite Hkeys in Hkeys'. injection Hkeys' as <-.
  rewrite Hiff. naive_solver.
Qed.

(** The sketch does not reach the map: whatever the sketch is and
    does, a run ends with the same key set on every rank, or fails
    alike. *)
Lemma sketch_does_not_reach_the_map (hll1 hll2 : HyperLogLog)
    (world : list (list (list ascii))) (r : nat) :
  key_set (GetKmerCountMapKeys hll1 world r)
    = key_set (GetKmerCountMapKeys hll2 world r).
Proof.
  unfold key_set, GetKmerCountMapKeys.
  destruct (for_each _ world) as [sides|]; cbn; [|done].
  destruct (alltoall _ r) as [recvcnt|]; cbn; [|done].
  destruct (vector_new _ _) as [recvbuf|]; cbn; [|done].
  destruct (alltoallv _ _ _ _) as [recvbuf'|]; cbn; [|done].
  by destruct (unpack_kmers _ _ _ _).
Qed.

End RouterFacts.

(** C9 at two buckets of 2^30 bytes each: the sum is 2^31, the total
    the code computes is -2^31, and the send buffer of that size cannot
    be allocated. *)
Theorem totals_wrap_at_int_width :
  let sendcnt := [2 ^ 30; 2 ^ 30]%Z in
  sum_Z sendcnt = (2 ^ 31)%Z ∧
  accumulate_int sendcnt = (- 2 ^ 31)%Z ∧
  accumulate_int sendcnt ≠ sum_Z sendcnt ∧
  vector_new (accumulate_int sendcnt) Byte.x00 = Fault BadAlloc.
Proof. by vm_compute. Qed.

(** C6: on one process and an empty [.fai] the construction leaves the
    empty slice and the router returns the empty map, but both
    materializers take [records.front()] of the empty slice. *)
Theorem empty_slice_reaches_front `{KP : KmerPrimitive} `{CT : CountType}
    (hll : HyperLogLog) (indet : nat → faidx_record_t) (seqbuf : nat → ascii)
    (fasta : list ascii) :
  FastaIndex indet (Some []) 1 = Ok [[]] ∧
  GetMyReads seqbuf [] fasta = Fault EmptyVector ∧
  GetReadsFromRecords seqbuf [] fasta = Fault EmptyVector ∧
  (fst <$> GetKmerCountMapKeys hll [[]] 0) = Ok ∅.
Proof.
  split; [|split; [|split]]; try done.
  assert (Hcalls : handler_calls (KP := KP) [] = []) by reflexivity.
  destruct (router_run hll [[]] 0) as (kmermap & -> & Hdom).
  - cbn. lia.
  - intros myreads ->%list_elem_of_singleton.
    unfold send_bytes. rewrite Hcalls. cbn [length].
    rewrite Nat.mul_0_r. unfold INT_MAX. lia.
  - unfold recv_bytes. cbn [fmap list_fmap concat]. rewrite Hcalls.
    cbn [app]. rewrite filter_nil. cbn [length].
    rewrite Nat.mul_0_r. unfold INT_MAX. lia.
  - cbn [fmap outcome_fmap fst]. f_equal. apply dom_empty_iff_L. rewrite Hdom.
    unfold incoming, bucket_to. cbn [fmap list_fmap concat]. rewrite Hcalls.
    reflexivity.
Qed.

(** ** The router on a concrete k-mer primitive *)

Lemma canonical_length w : length (canonical w) = length w.
Proof.
  unfold canonical, reverse_complement.
  destruct (lex_le _ _); [done|]. by rewrite length_fmap, length_rev.
Qed.

Lemma ascii_of_byte_of_ascii_list (km : list ascii) :
  ascii_of_byte <$> (byte_of_ascii <$> km) = km.
Proof.
  induction km as [|c km IH]; [done|].
  cbn [fmap list_fmap]. rewrite ascii_of_byte_of_ascii. f_equal. exact IH.
Qed.

(** K-mers of [S k] nucleotides, one byte each. *)
Definition byte_kmers (k : nat) : KmerPrimitive :=
  {| TKmer := list ascii;
     TKmer_eq_dec := _;
     TKmer_countable := _;
     kmer_size := S k;
     N_BYTES := S k;
     GetRep := canonical;
     GetKmerOwner := λ km nprocs, simple_hash km mod nprocs;
     CopyDataInto := fmap byte_of_ascii;
     FromBytes := fmap ascii_of_byte;
     N_BYTES_pos := Nat.lt_0_succ k;
     GetKmerOwner_lt := λ km nprocs Hpos,
       Nat.mod_upper_bound (simple_hash km) nprocs (Nat.neq_sym _ _ (Nat.lt_neq _ _ Hpos));
     CopyDataInto_length := λ w Hw,
       eq_trans (length_fmap byte_of_ascii (canonical w))
                (eq_trans (canonical_length w) Hw);
     FromBytes_CopyDataInto := λ w _, ascii_of_byte_of_ascii_list (canonical w) |}.

Lemma to_i64_int z : (- 2 ^ 31 ≤ z ≤ INT_MAX)%Z → to_i64 z = z.
Proof. intros Hz. apply to_i64_id. unfold INT_MAX, I64_MAX in *. lia. Qed.

(** The two candidates for [MPI_Count_type]. *)
Definition count_int : CountType :=
  {| to_count := to_int; to_count_int := to_int_id |}.

Definition count_i64 : CountType :=
  {| to_count := to_i64; to_count_int := to_i64_int |}.

Lemma owned_keys_are_the_owned_kmers_witness :
  ∃ keys,
    key_set (GetKmerCountMapKeys (KP:=byte_kmers 2) (CT:=count_i64)
               counting_sketch sample_world 1)
      = Ok keys ∧
    ∀ km, km ∈ keys ↔
      GetKmerOwner (KmerPrimitive:=byte_kmers 2) km 2 = 1 ∧
      kmer_occurs (KP:=byte_kmers 2) sample_world km.
Proof.
  destruct (owned_keys_are_the_owned_kmers (KP:=byte_kmers 2) (CT:=count_i64)
              counting_sketch sample_world) as [Hrun _].
  - repeat constructor; by vm_compute.
  - repeat constructor; by vm_compute.
  - apply (Hrun 1). cbn. lia.
Defined.

Lemma handler_called_once_per_window_witness :
  handler_calls (KP:=byte_kmers 2) [list_ascii_of_string "ACGTA"]
    = [list_ascii_of_string "ACG"; list_ascii_of_string "ACG";
       list_ascii_of_string "GTA"] ∧
  handler_calls (KP:=byte_kmers 2) [list_ascii_of_string "AC"] = [] ∧
  handler_calls (KP:=byte_kmers 2) [list_ascii_of_string "TTT"]
    = [list_ascii_of_string "AAA"].
Proof.
  destruct (handler_called_once_per_window (KP:=byte_kmers 2)
              (list_ascii_of_string "ACGTA")) as (Hlong & _).
  destruct (handler_called_once_per_window (KP:=byte_kmers 2)
              (list_ascii_of_string "AC")) as (_ & Hshort & _).
  destruct (handler_called_once_per_window (KP:=byte_kmers 2)
              (list_ascii_of_string "TTT")) as (_ & _ & Hexact & _).
  split; [|split].
  - destruct Hlong as (Hcalls & _); [cbn; lia|]. exact Hcalls.
  - apply Hshort. cbn. lia.
  - apply Hexact. reflexivity.
Defined.

Lemma one_record_per_fai_line_witness :
  let indet := λ n, FaidxRecord (Z.of_nat n) 7 9 in
  let content :=
    list_ascii_of_string "r1 8 4 80" ++ [LF] ++ [LF] ++ list_ascii_of_string "r3" in
  length (root_parse indet (Some content)).1 = 3 ∧
  (root_parse indet (Some content)).1 !! 1 = Some (FaidxRecord 1 7 9).
Proof.
  intros indet content.
  destruct (one_record_per_fai_line indet content) as (Hlen & _ & Hblank & _).
  split; [exact Hlen|]. apply (Hblank 1). reflexivity.
Defined.

(** ** Which records a rank receives *)

Lemma sum_Z_replicate n q : sum_Z (replicate n q) = (Z.of_nat n * q)%Z.
Proof.
  induction n as [|n IH]; [done|].
  cbn [replicate]. rewrite sum_Z_cons, IH. lia.
Qed.

(** The slices of the scatter, by rank: blocks of [N / nprocs]
    consecutive records, and for the last rank all that is left. *)
Lemma scatter_records_blocks (root_records : list faidx_record_t) (nprocs : nat) :
  let N := length root_records in
  let q := N / nprocs in
  0 < nprocs → (Z.of_nat N ≤ I64_MAX)%Z →
  scatter_records root_records nprocs =
    Ok (((λ r, take q (drop (r * q) root_records)) <$> seq 0 (nprocs - 1))
        ++ [drop ((nprocs - 1) * q) root_records]).
Proof.
  intros N q HP HN.
  destruct (scatter_records_by_counts root_records nprocs HP HN)
    as (-> & _ & _ & _).
  fold N. rewrite scatter_sendcounts_eq by lia.
  assert (HqZ : (Z.of_nat N / Z.of_nat nprocs)%Z = Z.of_nat q).
  { subst q. by rewrite Nat2Z.inj_div. }
  rewrite HqZ.
  assert (Hq : nprocs * q ≤ N) by (subst q; apply Nat.Div0.mul_div_le).
  set (c := replicate (nprocs - 1) (Z.of_nat q)
              ++ [(Z.of_nat N - (Z.of_nat nprocs - 1) * Z.of_nat q)%Z]).
  assert (Htake : ∀ r, r ≤ nprocs - 1 → sum_Z (take r c) = Z.of_nat (r * q)).
  { intros r Hr. subst c.
    rewrite take_app_le by (rewrite length_replicate; lia).
    rewrite take_replicate, Nat.min_l by lia.
    rewrite sum_Z_replicate. lia. }
  f_equal.
  replace (seq 0 nprocs) with (seq 0 (nprocs - 1) ++ [nprocs - 1]).
  2:{ replace nprocs with (nprocs - 1 + 1) at 3 by lia.
      by rewrite seq_app. }
  rewrite fmap_app. f_equal.
  - apply list_fmap_ext. intros i r [Heq Hr]%lookup_seq. cbn in Heq. subst i.
    rewrite Htake by lia.
    replace (c !!! r) with (Z.of_nat q).
    + by rewrite !Nat2Z.id.
    + symmetry. apply list_lookup_total_correct. subst c.
      rewrite lookup_app_l by (rewrite length_replicate; lia).
      apply lookup_replicate_2. lia.
  - cbn [fmap list_fmap]. f_equal.
    rewrite Htake by lia. rewrite Nat2Z.id.
    apply take_ge. rewrite length_drop.
    replace (c !!! (nprocs - 1))
      with (Z.of_nat N - (Z.of_nat nprocs - 1) * Z.of_nat q)%Z.
    + fold N. nia.
    + symmetry. apply list_lookup_total_correct. subst c.
      rewrite lookup_app_r by (rewrite length_replicate; lia).
      rewrite length_replicate. by replace (nprocs - 1 - (nprocs - 1)) with 0 by lia.
Qed.

Lemma concat_blocks {A} (l : list A) (q n : nat) :
  concat ((λ r, take q (drop (r * q) l)) <$> seq 0 n) = take (n * q) l.
Proof.
  induction n as [|n IH]; [done|].
  replace (S n) with (n + 1) at 1 by lia.
  rewrite seq_app, fmap_app, concat_app, IH. cbn [seq fmap list_fmap concat].
  rewrite app_nil_r, Nat.add_0_l, take_take_drop. f_equal. lia.
Qed.

(** X2: the constructor hands rank [r] the records [r * q .. r * q + q - 1]
    of the index, [q = N / nprocs], and the last rank the records from
    [(nprocs - 1) * q] to the end. *)
Theorem rank_slice_is_a_block (indet : nat → faidx_record_t)
    (fai : option (list ascii)) (nprocs : nat) :
  let root_records := (root_parse indet fai).1 in
  let q := length root_records / nprocs in
  0 < nprocs → (Z.of_nat (length root_records) ≤ I64_MAX)%Z →
  ∃ slices,
    FastaIndex indet fai nprocs = Ok slices ∧
    length slices = nprocs ∧
    (∀ r, r < nprocs - 1 → slices !! r = Some (take q (drop (r * q) root_records))) ∧
    slices !! (nprocs - 1) = Some (drop ((nprocs - 1) * q) root_records).
Proof.
  intros root_records q HP HN. unfold FastaIndex. fold root_records.
  rewrite scatter_records_blocks by done. fold q.
  eexists. split; [done|].
  assert (Hlen : length ((λ r, take q (drop (r * q) root_records))
                           <$> seq 0 (nprocs - 1)) = nprocs - 1).
  { by rewrite length_fmap, length_seq. }
  split; [|split].
  - rewrite length_app, Hlen. cbn. lia.
  - intros r Hr. rewrite lookup_app_l by lia.
    rewrite list_lookup_fmap, lookup_seq_lt by lia. done.
  - rewrite lookup_app_r by lia. rewrite Hlen.
    by replace (nprocs - 1 - (nprocs - 1)) with 0 by lia.
Qed.

Lemma rank_slice_is_a_block_witness :
  let indet := λ _, FaidxRecord 0 0 0 in
  let fai := Some (list_ascii_of_string "a 1 3 80 81" ++ [LF] ++
                   list_ascii_of_string "b 2 7 80 81" ++ [LF] ++
                   list_ascii_of_string "c 3 12 80 81" ++ [LF]) in
  ∃ slices,
    FastaIndex indet fai 2 = Ok slices ∧
    slices !! 0 = Some [FaidxRecord 1 3 80] ∧
    slices !! 1 = Some [FaidxRecord 2 7 80; FaidxRecord 3 12 80].
Proof.
  intros indet fai.
  destruct (rank_slice_is_a_block indet fai 2) as (slices & Hrun & _ & Hfirst & Hlast).
  - lia.
  - by vm_compute.
  - exists slices. split; [exact Hrun|]. split.
    + rewrite (Hfirst 0) by lia. by vm_compute.
    + change (2 - 1) with 1 in Hlast. rewrite Hlast. by vm_compute.
Defined.

(** X1: the slices of the ranks, put one after the other in rank order, are
    the records of the index in file order: every record goes to one
    rank, none is lost, none is sent twice. *)
Theorem scatter_is_a_partition (indet : nat → faidx_record_t)
    (fai : option (list ascii)) (nprocs : nat) :
  let root_records := (root_parse indet fai).1 in
  0 < nprocs → (Z.of_nat (length root_records) ≤ I64_MAX)%Z →
  ∃ slices,
    FastaIndex indet fai nprocs = Ok slices ∧
    length slices = nprocs ∧
    concat slices = root_records.
Proof.
  intros root_records HP HN. unfold FastaIndex. fold root_records.
  rewrite scatter_records_blocks by done.
  eexists. split; [done|]. split.
  - rewrite length_app, length_fmap, length_seq. cbn. lia.
  - rewrite concat_app, concat_blocks. cbn [concat].
    rewrite app_nil_r. apply take_drop.
Qed.

Lemma scatter_is_a_partition_witness :
  let indet := λ _, FaidxRecord 0 0 0 in
  let fai := Some (list_ascii_of_string "a 1 3 80 81" ++ [LF] ++
                   list_ascii_of_string "b 2 7 80 81" ++ [LF] ++
                   list_ascii_of_string "c 3 12 80 81" ++ [LF]) in
  ∃ slices,
    FastaIndex indet fai 2 = Ok slices ∧
    concat slices = [FaidxRecord 1 3 80; FaidxRecord 2 7 80; FaidxRecord 3 12 80].
Proof.
  intros indet fai.
  destruct (scatter_is_a_partition indet fai 2) as (slices & Hrun & _ & Hcat).
  - lia.
  - by vm_compute.
  - exists slices. split; [exact Hrun|]. rewrite Hcat. by vm_compute.
Defined.

Lemma scatter_records_few (root_records : list faidx_record_t) (nprocs : nat) :
  (Z.of_nat nprocs ≤ INT_MAX)%Z → length root_records < nprocs →
  scatter_records root_records nprocs
    = Ok (replicate (nprocs - 1) [] ++ [root_records]).
Proof.
  intros HP Hlt.
  rewrite scatter_records_blocks by (unfold I64_MAX, INT_MAX in *; lia).
  rewrite Nat.div_small by done. rewrite Nat.mul_0_r, drop_0. do 2 f_equal.
  assert (Hnil : ∀ n s,
    (λ r, take 0 (drop (r * 0) root_records)) <$> seq s n = replicate n []).
  { induction n as [|n IH]; intros s; [done|].
    cbn [seq fmap list_fmap replicate take]. f_equal. apply IH. }
  apply Hnil.
Qed.

(** X3: with fewer records than processes ([nprocs] is an [int]) the
    constructor still succeeds: the last rank receives every record and
    all other ranks an empty slice. *)
Theorem fewer_records_than_ranks (indet : nat → faidx_record_t)
    (fai : option (list ascii)) (nprocs : nat) :
  let root_records := (root_parse indet fai).1 in
  (Z.of_nat nprocs ≤ INT_MAX)%Z → length root_records < nprocs →
  FastaIndex indet fai nprocs = Ok (replicate (nprocs - 1) [] ++ [root_records]).
Proof. intros root_records HP Hlt. by apply scatter_records_few. Qed.

Lemma fewer_records_than_ranks_witness :
  FastaIndex (λ _, FaidxRecord 0 0 0)
    (Some (list_ascii_of_string "a 1 3 80 81" ++ [LF])) 3
  = Ok [[]; []; [FaidxRecord 1 3 80]].
Proof.
  rewrite (fewer_records_than_ranks (λ _, FaidxRecord 0 0 0)
             (Some (list_ascii_of_string "a 1 3 80 81" ++ [LF])) 3).
  - by vm_compute.
  - by vm_compute.
  - vm_compute. lia.
Defined.

(** ** Parsing the lines of an index *)

Lemma decimal_step n :
  decimal n = if bool_decide (n < 10)%Z then [digit_char n]
              else decimal (n / 10) ++ [digit_char (n mod 10)].
Proof.
  funelim (decimal n);
    match goal with e : bool_decide _ = _ |- _ => by rewrite e end.
Qed.

Lemma digit_char_facts d :
  (0 ≤ d < 10)%Z →
  is_digit (digit_char d) = true ∧ digit_value (digit_char d) = d ∧
  is_space (digit_char d) = false ∧
  Ascii.eqb (digit_char d) "-" = false ∧ Ascii.eqb (digit_char d) "+" = false ∧
  Ascii.eqb (digit_char d) LF = false.
Proof.
  intros Hd.
  assert (d = 0 ∨ d = 1 ∨ d = 2 ∨ d = 3 ∨ d = 4 ∨ d = 5 ∨ d = 6 ∨ d = 7
          ∨ d = 8 ∨ d = 9)%Z as Hcases by lia.
  repeat destruct Hcases as [->|Hcases]; try subst d; by vm_compute.
Qed.

Lemma decimal_value_snoc ds c :
  decimal_value (ds ++ [c]) = (10 * decimal_value ds + digit_value c)%Z.
Proof. unfold decimal_value. by rewrite fold_left_app. Qed.

(** The numeral of [n] is a non-empty run of digits whose value is [n]. *)
Lemma decimal_spec n :
  (0 ≤ n)%Z →
  Forall (λ c, is_digit c = true) (decimal n) ∧
  Forall (λ c, is_space c = false) (decimal n) ∧
  Forall (λ c, Ascii.eqb c LF = false) (decimal n) ∧
  (∃ c ds, decimal n = c :: ds ∧
     Ascii.eqb c "-" = false ∧ Ascii.eqb c "+" = false) ∧
  decimal_value (decimal n) = n.
Proof.
  remember (Z.to_nat n) as m eqn:Hm. revert n Hm.
  induction (lt_wf m) as [m _ IH]. intros n Hm Hn.
  rewrite decimal_step. case_bool_decide as Hlt.
  - destruct (digit_char_facts n) as (Hd & Hv & Hs & Hminus & Hplus & Hlf); [lia|].
    repeat split; try by apply Forall_singleton.
    + by exists (digit_char n), [].
    + unfold decimal_value. cbn. lia.
  - assert (Hq : (0 ≤ n / 10 < n)%Z).
    { split; [apply Z.div_pos; lia|apply Z.div_lt; lia]. }
    destruct (IH (Z.to_nat (n / 10)) ltac:(lia) (n / 10)%Z eq_refl ltac:(lia))
      as (Hd & Hs & Hlf & (c & ds & Hc & Hminus & Hplus) & Hv).
    destruct (digit_char_facts (n mod 10))
      as (Hd' & Hv' & Hs' & _ & _ & Hlf'); [apply Z.mod_pos_bound; lia|].
    repeat split.
    + apply Forall_app; split; [done|by apply Forall_singleton].
    + apply Forall_app; split; [done|by apply Forall_singleton].
    + apply Forall_app; split; [done|by apply Forall_singleton].
    + exists c, (ds ++ [digit_char (n mod 10)]). by rewrite Hc.
    + rewrite decimal_value_snoc, Hv, Hv'.
      pose proof (Z.div_mod n 10). lia.
Qed.

Lemma scan_skip_while_app (p : ascii → bool) (l r : list ascii) :
  Forall (λ c, p c = true) l →
  match r with [] => True | c :: _ => p c = false end →
  scan_while p (l ++ r) = l ∧ skip_while p (l ++ r) = r.
Proof.
  intros Hl Hr. induction Hl as [|c l Hc _ [IH1 IH2]].
  - destruct r as [|c r]; [done|]. cbn. by rewrite Hr.
  - cbn. rewrite Hc. by rewrite IH1, IH2.
Qed.

Lemma is_space_TAB : is_space TAB = true.
Proof. done. Qed.

Lemma is_digit_TAB : is_digit TAB = false.
Proof. done. Qed.

Lemma space_not_digit c : is_space c = true → is_digit c = false.
Proof. destruct c as [[] [] [] [] [] [] [] []]; by vm_compute. Qed.

Lemma blanks_end_number ws rest : blanks ws → ends_number (ws ++ rest).
Proof.
  intros [Hne Hws]. destruct ws as [|c ws]; [done|].
  apply Forall_cons in Hws as [Hc _]. cbn. by apply space_not_digit.
Qed.

Lemma extract_string_word name ws rest :
  valid_name name → blanks ws →
  extract_string (istringstream (name ++ ws ++ rest)) []
    = ({| buf := ws ++ rest; eofbit := false; failbit := false |}, name).
Proof.
  intros [Hne Hname] [Hwne Hws]. unfold extract_string, istringstream.
  cbn [good eofbit failbit buf negb andb].
  destruct name as [|c name]; [done|].
  destruct ws as [|b ws]; [done|].
  apply Forall_cons in Hname as [Hc Hname].
  apply Forall_cons in Hws as [Hb Hws].
  assert (Hskip0 : skip_while is_space ((c :: name) ++ (b :: ws) ++ rest)
                   = c :: name ++ (b :: ws) ++ rest) by (cbn; by rewrite Hc).
  rewrite Hskip0.
  destruct (scan_skip_while_app (λ c, negb (is_space c)) (c :: name)
              ((b :: ws) ++ rest)) as [Hscan Hskip].
  { apply Forall_cons. split; [by rewrite Hc|].
    eapply Forall_impl; [exact Hname|]. intros a Ha. cbn beta. by rewrite Ha. }
  { cbn. by rewrite Hb. }
  cbn [app] in Hscan, Hskip |- *. by rewrite Hscan, Hskip.
Qed.

Lemma extract_string_name name rest :
  valid_name name →
  extract_string (istringstream (name ++ TAB :: rest)) []
    = ({| buf := TAB :: rest; eofbit := false; failbit := false |}, name).
Proof.
  intros Hname. apply (extract_string_word name [TAB] rest); [done|].
  split; [done|by repeat constructor].
Qed.

Lemma skip_spaces ws rest :
  Forall (λ c, is_space c = true) ws →
  match rest with [] => True | c :: _ => is_space c = false end →
  skip_while is_space (ws ++ rest) = rest.
Proof. intros Hws Hrest. by apply scan_skip_while_app. Qed.

Lemma extract_ulong_number ws v rest x :
  Forall (λ c, is_space c = true) ws → (0 ≤ v ≤ ULONG_MAX)%Z → ends_number rest →
  extract_ulong {| buf := ws ++ decimal v ++ rest; eofbit := false; failbit := false |} x
    = ({| buf := rest;
          eofbit := match rest with [] => true | _ => false end;
          failbit := false |}, v).
Proof.
  intros Hws Hv Hrest. unfold extract_ulong.
  cbn [good eofbit failbit buf negb andb].
  destruct (decimal_spec v) as (Hd & Hs & _ & (c & ds & Hc & Hminus & Hplus) & Hval);
    [lia|].
  destruct (scan_skip_while_app is_digit (decimal v) rest Hd) as [Hscan Hskip].
  { by destruct rest. }
  rewrite skip_spaces; [|done|].
  2:{ rewrite Hc in *. apply Forall_cons in Hs as [Hsc _]. done. }
  rewrite Hc in *. cbn [app strip_sign]. rewrite Hminus, Hplus.
  cbn [app] in Hscan, Hskip. rewrite Hscan, Hskip, Hval.
  by rewrite bool_decide_eq_false_2 by lia.
Qed.

Lemma GetFaidxRecord_fields indet name ws1 ws2 ws3 rec rest names :
  valid_name name → blanks ws1 → blanks ws2 → blanks ws3 →
  valid_fields rec → ends_number rest →
  GetFaidxRecord indet
    (name ++ ws1 ++ decimal (len rec) ++ ws2 ++ decimal (pos rec)
          ++ ws3 ++ decimal (bases rec) ++ rest) names
  = (rec, names ++ [name]).
Proof.
  intros Hname Hw1 Hw2 Hw3 (Hlen & Hpos & Hbases) Hrest.
  unfold GetFaidxRecord. rewrite extract_string_word by done.
  rewrite extract_ulong_number;
    [|by destruct Hw1|done|by apply blanks_end_number].
  assert (Hgood : ∀ ws tail, blanks ws →
    match ws ++ tail with [] => true | _ => false end = false).
  { intros ws tail [Hne _]. by destruct ws. }
  rewrite Hgood by done.
  rewrite extract_ulong_number;
    [|by destruct Hw2|done|by apply blanks_end_number].
  rewrite Hgood by done.
  rewrite extract_ulong_number; [|by destruct Hw3|done|done].
  by destruct rec.
Qed.

Lemma GetFaidxRecord_fai_line indet name rec width names :
  valid_name name → valid_fields rec → (0 ≤ width)%Z →
  GetFaidxRecord indet (fai_line name rec width) names = (rec, names ++ [name]).
Proof.
  intros Hname Hrec Hwidth.
  assert (Htab : blanks [TAB]) by (split; [done|by repeat constructor]).
  apply (GetFaidxRecord_fields indet name [TAB] [TAB] [TAB] rec
           (TAB :: decimal width)); done.
Qed.

(** X4: a line that spells a name and three numbers, separated by any
    white space, yields the record of the three numbers, whatever the
    uninitialised local held, and its name is appended to the names;
    what follows the third number on the line is not read. *)
Theorem spelled_fields_are_parsed (indet : faidx_record_t)
    (name ws1 ws2 ws3 : list ascii) (rec : faidx_record_t) (rest : list ascii)
    (names : list (list ascii)) :
  valid_name name → blanks ws1 → blanks ws2 → blanks ws3 →
  valid_fields rec → ends_number rest →
  GetFaidxRecord indet
    (name ++ ws1 ++ decimal (len rec) ++ ws2 ++ decimal (pos rec)
          ++ ws3 ++ decimal (bases rec) ++ rest) names
  = (rec, names ++ [name]).
Proof. apply GetFaidxRecord_fields. Qed.

Lemma spelled_fields_are_parsed_witness :
  GetFaidxRecord (FaidxRecord 7 7 7)
    (list_ascii_of_string "read1" ++ list_ascii_of_string "  "
       ++ list_ascii_of_string "1500" ++ [TAB] ++ list_ascii_of_string "7"
       ++ list_ascii_of_string " " ++ list_ascii_of_string "80"
       ++ list_ascii_of_string " 81 and more") []
  = (FaidxRecord 1500 7 80, [list_ascii_of_string "read1"]).
Proof.
  apply (spelled_fields_are_parsed (FaidxRecord 7 7 7) (list_ascii_of_string "read1")
           (list_ascii_of_string "  ") [TAB] (list_ascii_of_string " ")
           (FaidxRecord 1500 7 80) (list_ascii_of_string " 81 and more") []).
  - split; [done|]. by repeat constructor.
  - split; [done|]. by repeat constructor.
  - split; [done|]. by repeat constructor.
  - split; [done|]. by repeat constructor.
  - by vm_compute.
  - done.
Defined.

(** ** Parsing a whole index *)

Lemma GetFaidxRecord_names indet line names :
  (GetFaidxRecord indet line names).2 = names ++ [line_name line].
Proof.
  unfold line_name, GetFaidxRecord.
  destruct (extract_string _ _) as [s0 name].
  destruct (extract_ulong s0 _) as [s1 l].
  destruct (extract_ulong s1 _) as [s2 p].
  by destruct (extract_ulong s2 _) as [s3 b].
Qed.

Lemma read_faidx_names indet content :
  ∀ line n recs names,
    (read_faidx indet {| buf := content; eofbit := false; failbit := false |}
       line n recs names).2
    = names ++ (line_name <$> fai_lines content).
Proof.
  remember (length content) as m eqn:Hm. revert content Hm.
  induction (lt_wf m) as [m _ IH]. intros content Hm line n recs names.
  rewrite read_faidx_step. unfold getline. cbn [good eofbit failbit buf negb andb].
  pose proof (until_newline_lines content) as Hu.
  destruct (until_newline content) as [l [rest|]]; cbn [fst snd failbit].
  - destruct Hu as [-> Hlen]. cbn zeta.
    rewrite (IH (length rest)) by (try done; lia).
    by rewrite GetFaidxRecord_names, <- app_assoc.
  - destruct l as [|x l]; [by rewrite Hu, app_nil_r|].
    cbn zeta. rewrite Hu, read_faidx_not_good by done.
    cbn [snd]. by rewrite GetFaidxRecord_names.
Qed.

(** X6: rank 0 collects one name per line of the index, whatever the file
    holds: the first white-space delimited word of the line, the empty
    string for a blank line.  The names stay aligned with the records. *)
Theorem one_name_per_fai_line (indet : nat → faidx_record_t) (content : list ascii) :
  let root_records := (root_parse indet (Some content)).1 in
  let root_names := (root_parse indet (Some content)).2 in
  root_names = line_name <$> fai_lines content ∧
  length root_names = length root_records ∧
  (∀ n, fai_lines content !! n = Some [] → root_names !! n = Some []).
Proof.
  cbn zeta. unfold root_parse, ifstream.
  rewrite read_faidx_names, read_faidx_lines. cbn [app].
  split; [done|]. split; [by rewrite length_fmap, length_imap|].
  intros n Hn. by rewrite list_lookup_fmap, Hn.
Qed.

Lemma not_space_not_LF c : is_space c = false → Ascii.eqb c LF = false.
Proof.
  intros Hc. destruct (Ascii.eqb c LF) eqn:Heq; [|done].
  apply Ascii.eqb_eq in Heq. by subst c.
Qed.

Lemma fai_line_no_LF name rec width :
  valid_name name → valid_fields rec → (0 ≤ width)%Z →
  Forall (λ c, Ascii.eqb c LF = false) (fai_line name rec width).
Proof.
  intros [_ Hname] (Hlen & Hpos & Hbases) Hwidth. unfold fai_line.
  destruct (decimal_spec (len rec)) as (_ & _ & Hl & _); [lia|].
  destruct (decimal_spec (pos rec)) as (_ & _ & Hp & _); [lia|].
  destruct (decimal_spec (bases rec)) as (_ & _ & Hb & _); [lia|].
  destruct (decimal_spec width) as (_ & _ & Hw & _); [lia|].
  repeat (apply Forall_app; split) || (apply Forall_cons; split) || done.
  eapply Forall_impl; [exact Hname|]. apply not_space_not_LF.
Qed.

Lemma fai_lines_line l rest :
  Forall (λ c, Ascii.eqb c LF = false) l →
  fai_lines (l ++ LF :: rest) = l :: fai_lines rest.
Proof.
  induction 1 as [|c l Hc _ IH]; [done|].
  cbn [app fai_lines]. by rewrite Hc, IH.
Qed.

Lemma fai_lines_text entries :
  Forall (λ e, valid_name e.1.1 ∧ valid_fields e.1.2 ∧ (0 ≤ e.2)%Z) entries →
  fai_lines (fai_text entries) = (λ e, fai_line e.1.1 e.1.2 e.2) <$> entries.
Proof.
  unfold fai_text. induction 1 as [|e entries (Hn & Hf & Hw) _ IH]; [done|].
  cbn [fmap list_fmap concat]. rewrite <- app_assoc. cbn [app].
  rewrite fai_lines_line by by apply fai_line_no_LF. by rewrite IH.
Qed.

(** X5: reading back an index that was written from a list of entries
    gives the records and the names of the entries, in order. *)
Theorem fai_text_round_trip (indet : nat → faidx_record_t)
    (entries : list (list ascii * faidx_record_t * Z)) :
  Forall (λ e, valid_name e.1.1 ∧ valid_fields e.1.2 ∧ (0 ≤ e.2)%Z) entries →
  root_parse indet (Some (fai_text entries))
    = ((λ e, e.1.2) <$> entries, (λ e, e.1.1) <$> entries).
Proof.
  intros Hentries.
  rewrite (surjective_pairing (root_parse _ _)). unfold root_parse, ifstream.
  rewrite read_faidx_names, read_faidx_lines, fai_lines_text by done.
  cbn [app]. f_equal.
  - clear -Hentries. generalize 0.
    induction Hentries as [|e entries (Hn & Hf & Hw) _ IH]; intros k; [done|].
    cbn [fmap list_fmap imap]. f_equal.
    + unfold parse_record. by rewrite GetFaidxRecord_fai_line.
    + rewrite <- (IH (S k)). apply imap_ext. intros i x _. cbn.
      do 2 f_equal. lia.
  - rewrite <- list_fmap_compose. apply list_fmap_ext.
    intros i e He. cbn. unfold line_name, fai_line.
    rewrite Forall_forall in Hentries.
    destruct (Hentries e) as (Hn & _); [by eapply list_elem_of_lookup_2|].
    by rewrite extract_string_name.
Qed.

Lemma fai_text_round_trip_witness :
  root_parse (λ _, FaidxRecord 7 7 7)
    (Some (fai_text [(list_ascii_of_string "r1", FaidxRecord 10 4 4, 5%Z);
                     (list_ascii_of_string "r2", FaidxRecord 4 21 4, 5%Z)]))
  = ([FaidxRecord 10 4 4; FaidxRecord 4 21 4],
     [list_ascii_of_string "r1"; list_ascii_of_string "r2"]).
Proof.
  apply (fai_text_round_trip (λ _, FaidxRecord 7 7 7)
           [(list_ascii_of_string "r1", FaidxRecord 10 4 4, 5%Z);
            (list_ascii_of_string "r2", FaidxRecord 4 21 4, 5%Z)]).
  repeat constructor; by vm_compute.
Defined.

(** ** [FastaIndex::PrintInfo] *)

Lemma to_int_to_u64 x : to_int (to_u64 x) = to_int x.
Proof.
  unfold to_int, to_u64, wrap_signed, wrap_unsigned. f_equal.
  rewrite Zplus_mod, Z.mod_mod_divide by (exists (2 ^ 32)%Z; done).
  by rewrite <- Zplus_mod.
Qed.

Lemma to_int_to_u64_add a x : to_int (to_u64 (to_u64 a + x)) = to_int (a + x).
Proof.
  rewrite to_int_to_u64.
  rewrite <- (to_int_add_l (to_u64 a)), to_int_to_u64. apply to_int_add_l.
Qed.

Lemma PrintInfo_totbases_eq records :
  PrintInfo_totbases records = to_u64 (to_int (sum_Z (len <$> records))).
Proof.
  unfold PrintInfo_totbases. f_equal.
  enough (∀ a, fold_left (λ acc rec, to_int (to_u64 (to_u64 acc + len rec)))
                 records (to_int a)
               = to_int (a + sum_Z (len <$> records))) as Hgen.
  { specialize (Hgen 0%Z). rewrite Z.add_0_l in Hgen. by rewrite <- Hgen. }
  induction records as [|rec records IH]; intros a; cbn [fold_left fmap list_fmap].
  { unfold sum_Z; cbn. by rewrite Z.add_0_r. }
  rewrite to_int_to_u64_add, to_int_add_l, IH, sum_Z_cons. f_equal. lia.
Qed.

(** X17: the number of bases [PrintInfo] reports for a rank is the sum of the
    lengths of its records cut down to an [int] and widened again: the
    sum itself as long as this is at most [INT_MAX], and a number of
    about 2^64 once the sum reaches 2^31. *)
Theorem PrintInfo_totbases_is_an_int (records : list faidx_record_t) :
  let total := sum_Z (len <$> records) in
  PrintInfo_totbases records = to_u64 (to_int total) ∧
  ((0 ≤ total ≤ INT_MAX)%Z → PrintInfo_totbases records = total) ∧
  ((2 ^ 31 ≤ total < 2 ^ 32)%Z →
     PrintInfo_totbases records = (total + 2 ^ 64 - 2 ^ 32)%Z).
Proof.
  intros total. rewrite PrintInfo_totbases_eq. fold total.
  split; [done|]. split.
  - intros Ht. rewrite to_int_id by (unfold INT_MAX in *; lia).
    apply to_u64_id. unfold INT_MAX, ULONG_MAX in *. lia.
  - intros Ht.
    assert (Hw : to_int total = (total - 2 ^ 32)%Z).
    { unfold to_int, wrap_signed.
      change (2 ^ (32 - 1))%Z with 2147483648%Z.
      change (2 ^ 31)%Z with 2147483648%Z in Ht.
      change (2 ^ 32)%Z with 4294967296%Z in *.
      replace (total + 2147483648)%Z
        with (total - 2147483648 + 1 * 4294967296)%Z by lia.
      rewrite Z.mod_add, Z.mod_small by lia. lia. }
    rewrite Hw. unfold to_u64, wrap_unsigned.
    change (2 ^ 31)%Z with 2147483648%Z in Ht.
    change (2 ^ 32)%Z with 4294967296%Z in *.
    change (2 ^ 64)%Z with 18446744073709551616%Z.
    replace (total - 4294967296)%Z
      with (total + 18446744073709551616 - 4294967296
            + (-1) * 18446744073709551616)%Z at 1 by lia.
    rewrite Z.mod_add, Z.mod_small by lia. lia.
Qed.

Lemma PrintInfo_totbases_is_an_int_witness :
  PrintInfo_totbases [FaidxRecord 10 4 4; FaidxRecord 4 21 4] = 14%Z ∧
  PrintInfo_totbases [FaidxRecord (2 ^ 30) 4 80; FaidxRecord (2 ^ 30) 0 80]
    = (2 ^ 64 - 2 ^ 31)%Z.
Proof.
  split.
  - destruct (PrintInfo_totbases_is_an_int [FaidxRecord 10 4 4; FaidxRecord 4 21 4])
      as (_ & Hexact & _).
    rewrite Hexact; by vm_compute.
  - destruct (PrintInfo_totbases_is_an_int
                [FaidxRecord (2 ^ 30) 4 80; FaidxRecord (2 ^ 30) 0 80])
      as (_ & _ & Hwrap).
    rewrite Hwrap; by vm_compute.
Defined.

Lemma line_displs (lines : list (list ascii)) i :
  (Z.of_nat (length (concat lines)) ≤ I64_MAX)%Z → i < length lines →
  exclusive_displs to_i64 ((λ l, Z.of_nat (length l)) <$> lines) !! i
    = Some (Z.of_nat (length (concat (take i lines)))).
Proof.
  intros Hmax Hi.
  rewrite (exclusive_displs_lookup to_i64 I64_MAX).
  - by rewrite <- fmap_take, sum_Z_lengths.
  - intros z Hz. apply to_i64_id. lia.
  - apply lengths_nonneg.
  - by rewrite sum_Z_lengths.
  - by rewrite length_fmap.
Qed.

Lemma line_counts (lines : list (list ascii)) :
  (Z.of_nat (length (concat lines)) ≤ I64_MAX)%Z →
  (λ myline, to_i64 (Z.of_nat (length myline))) <$> lines
    = (λ l, Z.of_nat (length l)) <$> lines.
Proof.
  intros Hmax. apply list_fmap_ext. intros i l Hl.
  pose proof (concat_take_length_le _ _ _ Hl).
  apply to_i64_id. lia.
Qed.

Lemma lookup_total_seq {A} `{Inhabited A} (l : list A) :
  (λ i, l !!! i) <$> seq 0 (length l) = l.
Proof.
  apply list_eq. intros i. rewrite list_lookup_fmap.
  destruct (l !! i) as [x|] eqn:Hi.
  - rewrite lookup_seq_lt by by eapply lookup_lt_Some.
    cbn. by rewrite (list_lookup_total_correct _ _ _ Hi).
  - rewrite lookup_seq_ge; [done|]. by apply lookup_ge_None.
Qed.

Lemma PrintInfo_root (indet : nat → ascii) (lines : list (list ascii)) :
  lines ≠ [] → (Z.of_nat (length (concat lines)) ≤ I64_MAX)%Z →
  PrintInfo indet lines 0 = Ok lines.
Proof.
  intros Hne Hmax. unfold PrintInfo. rewrite decide_True by done.
  rewrite line_counts by done.
  set (cnts := (λ l, Z.of_nat (length l)) <$> lines).
  assert (Hn : 0 < length lines) by (destruct lines; [done|cbn; lia]).
  assert (Hcl : length cnts = length lines) by (subst cnts; by rewrite length_fmap).
  destruct (length lines) as [|p] eqn:En; [lia|].
  cbn [replicate front mbind outcome_bind].
  (* the size of the receive buffer *)
  destruct (lookup_lt_is_Some_2 lines p) as [lastline Hlast]; [lia|].
  assert (Hd : back (exclusive_displs to_i64 cnts)
               = Ok (Z.of_nat (length (concat (take p lines))))).
  { unfold back. rewrite last_lookup, exclusive_displs_length
      by (intros Hc; by rewrite Hc in Hcl).
    rewrite Hcl. cbn [pred]. subst cnts. by rewrite line_displs by lia. }
  assert (Hc : back cnts = Ok (Z.of_nat (length lastline))).
  { unfold back. rewrite last_lookup, Hcl. cbn [pred]. subst cnts.
    by rewrite list_lookup_fmap, Hlast. }
  rewrite Hd, Hc. cbn [mbind outcome_bind].
  assert (Htot : length (concat (take p lines)) + length lastline
                 = length (concat lines)).
  { transitivity (length (concat (take p lines ++ [lastline]))).
    - rewrite concat_app, length_app. cbn [concat]. by rewrite app_nil_r.
    - rewrite <- (take_S_r _ _ _ Hlast), take_ge; [done|lia]. }
  rewrite to_i64_id by (unfold I64_MAX in *; lia).
  unfold new_chars. rewrite bool_decide_eq_true_2 by (unfold I64_MAX in *; lia).
  cbn [mbind outcome_bind].
  set (recvbuf := indet <$> seq 0 _).
  assert (Hbuf : length recvbuf = length (concat lines)).
  { subst recvbuf. rewrite length_fmap, length_seq. lia. }
  (* the lines gathered *)
  assert (Hsnd : snd <$> imap pair lines = lines).
  { apply list_eq. intros i. rewrite list_lookup_fmap, list_lookup_imap.
    by destruct (lines !! i). }
  rewrite (for_fold_blocks _ snd).
  2:{ rewrite Hsnd. lia. }
  2:{ intros i x buf Hxi Hlen. rewrite list_lookup_imap in Hxi.
      destruct (lines !! i) as [myline|] eqn:Hi; [|done].
      cbn in Hxi. injection Hxi as <-. unfold gatherv_step.
      assert (Hlt : i < length lines) by by eapply lookup_lt_Some.
      subst cnts. rewrite list_lookup_fmap, Hi. cbn [fmap option_fmap option_map].
      rewrite line_displs by (try done; lia).
      pose proof (concat_take_length_le _ _ _ Hi).
      change 0%Z with (Z.of_nat 0).
      rewrite memcpy_write_at by (cbn; lia).
      rewrite drop_0, firstn_all, fmap_take, Hsnd. done. }
  cbn [mbind outcome_bind].
  rewrite Hsnd, drop_ge, app_nil_r by lia.
  (* the lines printed *)
  rewrite (for_each_Ok _ (λ i, lines !!! i)).
  - f_equal. rewrite <- En. apply lookup_total_seq.
  - intros i Hi%elem_of_seq.
    destruct (lookup_lt_is_Some_2 lines i) as [myline Hl]; [lia|].
    subst cnts. cbn beta. rewrite line_displs by (try done; lia).
    rewrite list_lookup_fmap, Hl. cbn [fmap option_fmap option_map].
    pose proof (concat_take_length_le _ _ _ Hl).
    unfold string_at. rewrite bool_decide_eq_true_2 by lia.
    rewrite !Nat2Z.id, (concat_lookup_block _ _ _ Hl).
    by rewrite (list_lookup_total_correct _ _ _ Hl).
Qed.

(** X16: rank 0 writes to standard error the line of every rank, whole and
    in rank order; no other rank writes anything. *)
Theorem PrintInfo_prints_every_line (indet : nat → ascii) (lines : list (list ascii)) :
  lines ≠ [] → (Z.of_nat (length (concat lines)) ≤ I64_MAX)%Z →
  PrintInfo indet lines 0 = Ok lines ∧
  ∀ myrank, myrank ≠ 0 → PrintInfo indet lines myrank = Ok [].
Proof.
  intros Hne Hmax. split; [by apply PrintInfo_root|].
  intros myrank Hrank. unfold PrintInfo. by rewrite decide_False.
Qed.

Lemma PrintInfo_prints_every_line_witness :
  let lines := [list_ascii_of_string "P(0, 0) will store 2 reads";
                [];
                list_ascii_of_string "P(1, 0) will store 3 reads"] in
  PrintInfo (λ _, "?"%char) lines 0 = Ok lines ∧
  PrintInfo (λ _, "?"%char) lines 2 = Ok [].
Proof.
  intros lines.
  destruct (PrintInfo_prints_every_line (λ _, "?"%char) lines) as [Hroot Hother].
  - done.
  - by vm_compute.
  - split; [exact Hroot|]. apply Hother. lia.
Defined.

(** ** The reads of the two revisions *)

(** The characters a record locates determine the read. *)
Lemma read_of_record_unique bytes origin rec read1 read2 :
  read_of_record bytes origin rec read1 → read_of_record bytes origin rec read2 →
  read1 = read2.
Proof.
  intros [Hl1 Hc1] [Hl2 Hc2]. apply list_eq. intros i.
  destruct (decide (i < length read1)) as [Hi|Hi].
  - specialize (Hc1 (Z.of_nat i) ltac:(lia)). specialize (Hc2 (Z.of_nat i) ltac:(lia)).
    rewrite Nat2Z.id in Hc1, Hc2. congruence.
  - rewrite !lookup_ge_None_2; [done|lia..].
Qed.

Lemma reads_of_records_unique bytes origin records reads1 reads2 :
  Forall2 (read_of_record bytes origin) records reads1 →
  Forall2 (read_of_record bytes origin) records reads2 →
  reads1 = reads2.
Proof.
  intros H1. revert reads2.
  induction H1 as [|rec read1 records reads1 Hr1 _ IH]; intros reads2 H2.
  - by apply Forall2_nil_inv_l in H2.
  - apply Forall2_cons_inv_l in H2 as (read2 & reads2' & Hr2 & H2 & ->).
    f_equal; [by eapply read_of_record_unique|by apply IH].
Qed.

Lemma well_formed_slice_len records filesize :
  well_formed_slice records filesize →
  Forall (λ rec, len rec ≤ INT_MAX)%Z records →
  Forall (λ rec, 0 ≤ len rec ≤ INT_MAX)%Z records.
Proof.
  intros Hwf Hint. unfold well_formed_slice in Hwf.
  destruct (head records), (last records); try done.
  destruct Hwf as (_ & _ & _ & Hall).
  rewrite Forall_forall in Hall. rewrite Forall_forall in Hint.
  apply Forall_forall. intros rec Hin. specialize (Hint rec Hin). cbn beta in Hint.
  destruct (Hall rec Hin) as (? & _). lia.
Qed.

(** What both materializers return on a slice that describes the file. *)
Lemma materializers_run (indet : nat → ascii) (records : list faidx_record_t)
    (fasta : list ascii) :
  well_formed_slice records (Z.of_nat (length fasta)) →
  (∃ reads, GetReadsFromRecords indet records fasta = Ok reads ∧
            Forall2 (read_of_record fasta 0) records reads) ∧
  (Forall (λ rec, len rec ≤ INT_MAX)%Z records →
   ∃ reads, GetMyReads indet records fasta = Ok reads ∧
            Forall2 (read_of_record fasta 0) records reads).
Proof.
  intros Hwf. split.
  - destruct (materialize_well_formed Z.min maxlen_size_t indet records fasta)
      as (reads & Hrun & _ & Hall); [lia|done|done|]. by exists reads.
  - intros Hint.
    destruct (materialize_well_formed Z.max maxlen_int indet records fasta)
      as (reads & Hrun & _ & Hall); [lia| |done|].
    + apply maxlen_int_size_t. by eapply well_formed_slice_len.
    + by exists reads.
Qed.

(** X9: no character of the uninitialised [seqbuf] reaches a read: on a
    slice that describes the file, [GetReadsFromRecords] returns the
    same reads whatever [new char[maxlen]] holds at first. *)
Theorem reads_ignore_seqbuf_contents (indet1 indet2 : nat → ascii)
    (records : list faidx_record_t) (fasta : list ascii) :
  well_formed_slice records (Z.of_nat (length fasta)) →
  ∃ reads,
    GetReadsFromRecords indet1 records fasta = Ok reads ∧
    GetReadsFromRecords indet2 records fasta = Ok reads.
Proof.
  intros Hwf.
  destruct (materializers_run indet1 records fasta Hwf) as [(reads1 & Hrun1 & H1) _].
  destruct (materializers_run indet2 records fasta Hwf) as [(reads2 & Hrun2 & H2) _].
  exists reads1. split; [done|].
  by rewrite (reads_of_records_unique _ _ _ _ _ H1 H2).
Qed.

Lemma reads_ignore_seqbuf_contents_witness :
  ∃ reads,
    GetReadsFromRecords (λ _, "?"%char) sample_records sample_fasta = Ok reads ∧
    GetReadsFromRecords (λ n, ascii_of_nat n) sample_records sample_fasta = Ok reads.
Proof.
  apply (reads_ignore_seqbuf_contents (λ _, "?"%char) (λ n, ascii_of_nat n)
           sample_records sample_fasta).
  unfold well_formed_slice, sample_records. cbn [head last].
  repeat split; [by vm_compute ..|].
  repeat constructor; by vm_compute.
Defined.

(** X10: the two revisions of the materializer return the same reads on a
    slice that describes the file and has no read longer than
    [INT_MAX]: the larger chunk that [std::max] makes [GetMyReads] read
    and its [int] fold for [maxlen] do not show in the result. *)
Theorem revisions_return_the_same_reads (indet : nat → ascii)
    (records : list faidx_record_t) (fasta : list ascii) :
  well_formed_slice records (Z.of_nat (length fasta)) →
  Forall (λ rec, len rec ≤ INT_MAX)%Z records →
  ∃ reads,
    GetMyReads indet records fasta = Ok reads ∧
    GetReadsFromRecords indet records fasta = Ok reads.
Proof.
  intros Hwf Hint.
  destruct (materializers_run indet records fasta Hwf)
    as [(reads1 & Hrun1 & H1) Hold].
  destruct (Hold Hint) as (reads2 & Hrun2 & H2).
  exists reads2. split; [done|].
  by rewrite (reads_of_records_unique _ _ _ _ _ H2 H1).
Qed.

Lemma revisions_return_the_same_reads_witness :
  ∃ reads,
    GetMyReads (λ _, "?"%char) sample_records sample_fasta = Ok reads ∧
    GetReadsFromRecords (λ _, "?"%char) sample_records sample_fasta = Ok reads.
Proof.
  apply (revisions_return_the_same_reads (λ _, "?"%char) sample_records sample_fasta).
  - unfold well_formed_slice, sample_records. cbn [head last].
    repeat split; [by vm_compute ..|].
    repeat constructor; by vm_compute.
  - repeat constructor; by vm_compute.
Defined.

(** ** Reads and the lines of the FASTA file *)

Lemma wrap_lines_lookup (b : nat) :
  0 < b →
  ∀ fuel s j, length s ≤ fuel → j < length s →
    wrap_lines fuel b s !! (j + j / b) = s !! j.
Proof.
  intros Hb. induction fuel as [|fuel IH]; intros s j Hfuel Hj; [lia|].
  destruct s as [|c s]; [cbn in Hj; lia|].
  cbn [wrap_lines]. set (s' := c :: s) in *.
  destruct (decide (j < b)) as [Hlt|Hge].
  - rewrite Nat.div_small, Nat.add_0_r by done.
    rewrite lookup_app_l by (rewrite length_take; lia).
    by rewrite lookup_take_lt.
  - assert (Hdiv : j / b = S ((j - b) / b)).
    { replace j with (j - b + 1 * b) at 1 by lia.
      rewrite Nat.div_add by lia. lia. }
    assert (Htake : length (take b s') = b) by (rewrite length_take; lia).
    rewrite lookup_app_r by lia. rewrite Htake, Hdiv.
    replace (j + S ((j - b) / b) - b) with (S ((j - b) + (j - b) / b)) by lia.
    cbn [lookup list_lookup].
    rewrite IH by (rewrite length_drop; cbn in *; lia).
    rewrite lookup_drop. f_equal. lia.
Qed.

Lemma holds_sequence_read fasta rec s read :
  (0 < bases rec)%Z → holds_sequence fasta rec s →
  read_of_record fasta 0 rec read → read = s.
Proof.
  intros Hb (Hlen & before & after & -> & Hpos) [Hl Hc].
  apply list_eq. intros i.
  destruct (decide (i < length s)) as [Hi|Hi].
  2:{ rewrite !lookup_ge_None_2; [done|lia..]. }
  specialize (Hc (Z.of_nat i) ltac:(lia)). rewrite Nat2Z.id in Hc. rewrite Hc.
  set (b := Z.to_nat (bases rec)).
  assert (Hidx : Z.to_nat (pos rec - 0 + Z.of_nat i + Z.of_nat i / bases rec)
                 = length before + (i + i / b)).
  { subst b. rewrite Hpos.
    replace (bases rec) with (Z.of_nat (Z.to_nat (bases rec))) at 1 by lia.
    rewrite <- Nat2Z.inj_div. lia. }
  rewrite Hidx, lookup_app_r by lia.
  replace (length before + (i + i / b) - length before) with (i + i / b) by lia.
  pose proof (wrap_lines_lookup b ltac:(lia) (length s) s i ltac:(lia) Hi) as Hw.
  fold (fasta_wrap b s) in Hw.
  destruct (s !! i) as [x|] eqn:Hx; [|by apply lookup_ge_None in Hx; lia].
  by apply lookup_app_l_Some.
Qed.

Lemma holds_sequences_reads fasta records seqs reads :
  Forall (λ rec, 0 < bases rec)%Z records →
  Forall2 (holds_sequence fasta) records seqs →
  Forall2 (read_of_record fasta 0) records reads → reads = seqs.
Proof.
  intros Hb Hs. revert reads.
  induction Hs as [|rec s records seqs Hrs _ IH]; intros reads Hr.
  - by apply Forall2_nil_inv_l in Hr.
  - apply Forall2_cons_inv_l in Hr as (read & reads' & Hrr & Hr & ->).
    apply Forall_cons in Hb as [Hb1 Hb].
    f_equal; [by eapply holds_sequence_read|by apply IH].
Qed.

Lemma well_formed_slice_bases records filesize :
  well_formed_slice records filesize → Forall (λ rec, 0 < bases rec)%Z records.
Proof.
  unfold well_formed_slice.
  destruct (head records), (last records); try done.
  intros (_ & _ & _ & Hall). eapply Forall_impl; [exact Hall|].
  by intros rec (_ & ? & _).
Qed.

(** X8: the reads are the sequences of the file with the line breaks
    taken out: when every record of the slice locates a sequence laid
    out in lines of [bases] characters, the materializer returns these
    sequences, in the order of the records. *)
Theorem reads_are_the_unwrapped_sequences (indet : nat → ascii)
    (records : list faidx_record_t) (seqs : list (list ascii)) (fasta : list ascii) :
  well_formed_slice records (Z.of_nat (length fasta)) →
  Forall2 (holds_sequence fasta) records seqs →
  GetReadsFromRecords indet records fasta = Ok seqs ∧
  (Forall (λ rec, len rec ≤ INT_MAX)%Z records →
   GetMyReads indet records fasta = Ok seqs).
Proof.
  intros Hwf Hseqs.
  pose proof (well_formed_slice_bases _ _ Hwf) as Hb.
  destruct (materializers_run indet records fasta Hwf)
    as [(reads1 & Hrun1 & H1) Hold].
  split.
  - by rewrite Hrun1, (holds_sequences_reads _ _ _ _ Hb Hseqs H1).
  - intros Hint. destruct (Hold Hint) as (reads2 & Hrun2 & H2).
    by rewrite Hrun2, (holds_sequences_reads _ _ _ _ Hb Hseqs H2).
Qed.

Lemma reads_are_the_unwrapped_sequences_witness :
  GetReadsFromRecords (λ _, "?"%char) sample_records sample_fasta
    = Ok [list_ascii_of_string "ACGTACGTAC"; list_ascii_of_string "TTTT"] ∧
  GetMyReads (λ _, "?"%char) sample_records sample_fasta
    = Ok [list_ascii_of_string "ACGTACGTAC"; list_ascii_of_string "TTTT"].
Proof.
  destruct (reads_are_the_unwrapped_sequences (λ _, "?"%char) sample_records
              [list_ascii_of_string "ACGTACGTAC"; list_ascii_of_string "TTTT"]
              sample_fasta) as [Hnew Hold].
  - unfold well_formed_slice, sample_records. cbn [head last].
    repeat split; [by vm_compute ..|].
    repeat constructor; by vm_compute.
  - repeat constructor.
    + exists (list_ascii_of_string ">r1" ++ [LF]),
             (list_ascii_of_string ">r2" ++ [LF] ++ list_ascii_of_string "TTTT" ++ [LF]).
      by vm_compute.
    + exists (list_ascii_of_string ">r1" ++ [LF] ++ list_ascii_of_string "ACGT" ++ [LF]
                ++ list_ascii_of_string "ACGT" ++ [LF] ++ list_ascii_of_string "AC"
                ++ [LF] ++ list_ascii_of_string ">r2" ++ [LF]), [].
      by vm_compute.
  - split; [exact Hnew|]. apply Hold. repeat constructor; by vm_compute.
Defined.

(** ** More on the router *)

Section RouterMore.
Context `{KP : KmerPrimitive} `{CT : CountType}.

Lemma read_kmers_short s : length s < kmer_size → read_kmers s = [].
Proof. intros Hs. unfold read_kmers. by rewrite decide_True. Qed.

Lemma handler_calls_short myreads :
  Forall (λ s, length s < kmer_size) myreads → handler_calls myreads = [].
Proof.
  intros Hshort. rewrite handler_calls_eq.
  induction Hshort as [|s myreads Hs _ IH]; [done|].
  cbn [fmap list_fmap concat]. by rewrite read_kmers_short, IH.
Qed.

Lemma concat_nils {A} (ls : list (list A)) :
  Forall (λ l, l = []) ls → concat ls = [].
Proof. induction 1 as [|l ls -> _ IH]; [done|]. exact IH. Qed.

(** X20: when no read of the dataset has [kmer_size] characters (or there
    are no reads at all) the router completes on every rank and
    returns the empty map. *)
Theorem short_reads_give_empty_maps (hll : HyperLogLog)
    (world : list (list (list ascii))) (r : nat) :
  r < length world →
  Forall (Forall (λ s, length s < kmer_size)) world →
  GetKmerCountMapKeys hll world r = Ok (∅, estimate_pass hll world r).
Proof.
  intros Hr Hshort.
  assert (Hcalls : concat (handler_calls <$> world) = []).
  { apply concat_nils, Forall_fmap. eapply Forall_impl; [exact Hshort|].
    intros myreads Hm. by apply handler_calls_short. }
  destruct (router_run hll world r Hr) as (kmermap & -> & Hdom).
  - intros myreads Hin. rewrite Forall_forall in Hshort.
    unfold send_bytes. rewrite handler_calls_short by by apply Hshort.
    cbn [length]. rewrite Nat.mul_0_r. unfold INT_MAX. lia.
  - unfold recv_bytes. rewrite Hcalls, filter_nil. cbn [length].
    rewrite Nat.mul_0_r. unfold INT_MAX. lia.
  - do 2 f_equal. apply dom_empty_iff_L.
    by rewrite Hdom, incoming_eq, Hcalls, filter_nil.
Qed.

(** X18: the send buffer lines 87-165 build on a rank whose k-mers take
    at most [INT_MAX] bytes: for every destination [i] it holds, at
    [sdispls[i]], the [sendcnt[i]] bytes of the k-mers whose owner is
    [i], in the order the enumerator produced them; the buffer holds
    every enumerated k-mer once. *)
Theorem send_buffer_layout (nprocs : nat) (myreads : list (list ascii)) :
  0 < nprocs → (send_bytes myreads ≤ INT_MAX)%Z →
  ∃ side,
    pack_sends nprocs myreads = Ok side ∧
    length (sendcnt side) = nprocs ∧ length (sdispls side) = nprocs ∧
    length (sendbuf side) = N_BYTES * length (handler_calls myreads) ∧
    ∀ i, i < nprocs →
      let bucket := filter (λ km, GetKmerOwner km nprocs = i) (handler_calls myreads) in
      ∃ d : nat,
        sendcnt side !! i = Some (Z.of_nat (N_BYTES * length bucket)) ∧
        sdispls side !! i = Some (Z.of_nat d) ∧
        take (N_BYTES * length bucket) (drop d (sendbuf side))
          = concat (CopyDataInto <$> bucket).
Proof.
  intros HP Hfit. unfold send_bytes in Hfit.
  exists (side_of nprocs myreads).
  split; [by apply pack_sends_Ok|].
  assert (Hlen : length (block_counts (send_blocks nprocs myreads)) = nprocs).
  { unfold block_counts, send_blocks. by rewrite !length_fmap, length_seq. }
  split; [exact Hlen|]. split.
  { cbn [side_of sdispls]. rewrite exclusive_displs_length; [exact Hlen|].
    intros Hnil. rewrite Hnil in Hlen. cbn in Hlen. lia. }
  split; [by apply send_blocks_total|].
  intros i Hi bucket.
  destruct (side_of_lookup nprocs myreads i Hi Hfit) as (d & Hc & Hd & _ & Htake).
  rewrite bucket_bytes_length in Hc, Htake by apply bucket_to_window_kmers.
  exists d. done.
Qed.

(** X21: the key set of a rank does not depend on which rank holds which
    read: two placements of the same reads on the same number of
    processes leave every rank with the same keys. *)
Theorem key_sets_ignore_read_placement (hll : HyperLogLog)
    (world1 world2 : list (list (list ascii))) (r : nat) :
  length world1 = length world2 → r < length world1 →
  (∀ s, s ∈ concat world1 ↔ s ∈ concat world2) →
  Forall (λ myreads, send_bytes myreads ≤ INT_MAX)%Z (world1 ++ world2) →
  (recv_bytes world1 r ≤ INT_MAX)%Z → (recv_bytes world2 r ≤ INT_MAX)%Z →
  ∃ keys,
    key_set (GetKmerCountMapKeys hll world1 r) = Ok keys ∧
    key_set (GetKmerCountMapKeys hll world2 r) = Ok keys.
Proof.
  intros Hlen Hr Hsame Hsend Hrecv1 Hrecv2.
  apply Forall_app in Hsend as [Hsend1 Hsend2].
  rewrite Forall_forall in Hsend1. rewrite Forall_forall in Hsend2.
  destruct (router_run hll world1 r Hr Hsend1 Hrecv1) as (kmermap1 & Hrun1 & Hdom1).
  destruct (router_run hll world2 r ltac:(lia) Hsend2 Hrecv2)
    as (kmermap2 & Hrun2 & Hdom2).
  exists (dom kmermap1). unfold key_set. rewrite Hrun1, Hrun2.
  cbn [fmap outcome_fmap fst]. split; [done|]. f_equal.
  rewrite Hdom1, Hdom2. apply set_eq. intros km.
  rewrite !elem_of_list_to_set, !elem_of_incoming, Hlen.
  assert (Hocc : ∀ world, kmer_occurs world km ↔
    ∃ s i, s ∈ concat world ∧ i + kmer_size ≤ length s ∧ km = GetRep (window s i)).
  { intros world. unfold kmer_occurs. split.
    - intros (myreads & s & i & Hm & Hs & Hi & Hkm). exists s, i.
      split; [|done]. apply list_elem_of_In, in_concat.
      exists myreads. by rewrite <- !list_elem_of_In.
    - intros (s & i & Hs & Hi & Hkm).
      apply list_elem_of_In, in_concat in Hs as (myreads & Hm & Hs).
      exists myreads, s, i. by rewrite !list_elem_of_In. }
  rewrite !Hocc. by setoid_rewrite Hsame.
Qed.

End RouterMore.

Lemma short_reads_give_empty_maps_witness :
  GetKmerCountMapKeys (KP:=byte_kmers 2) (CT:=count_i64) counting_sketch
    [[list_ascii_of_string "AC"]; []; [list_ascii_of_string "G"; []]] 1
  = Ok (∅, []).
Proof.
  rewrite (short_reads_give_empty_maps (KP:=byte_kmers 2) (CT:=count_i64)).
  - done.
  - cbn. lia.
  - repeat constructor; cbn; lia.
Defined.

Lemma send_buffer_layout_witness :
  ∃ side,
    pack_sends (KP:=byte_kmers 2) (CT:=count_i64) 2 [list_ascii_of_string "ACGTA"]
      = Ok side ∧
    length (sendbuf side) = 9.
Proof.
  destruct (send_buffer_layout (KP:=byte_kmers 2) (CT:=count_i64) 2
              [list_ascii_of_string "ACGTA"]) as (side & Hrun & _ & _ & Hlen & _).
  - lia.
  - by vm_compute.
  - exists side. split; [exact Hrun|]. rewrite Hlen. by vm_compute.
Defined.

Lemma key_sets_ignore_read_placement_witness :
  ∃ keys,
    key_set (GetKmerCountMapKeys (KP:=byte_kmers 2) (CT:=count_i64) counting_sketch
               sample_world 1) = Ok keys ∧
    key_set (GetKmerCountMapKeys (KP:=byte_kmers 2) (CT:=count_i64) counting_sketch
               [[list_ascii_of_string "AC"; list_ascii_of_string "TTTT"];
                [list_ascii_of_string "ACGTA"]] 1) = Ok keys.
Proof.
  apply (key_sets_ignore_read_placement (KP:=byte_kmers 2) (CT:=count_i64)).
  - done.
  - cbn. lia.
  - intros s. cbn. rewrite !elem_of_cons, !elem_of_nil. tauto.
  - repeat constructor; by vm_compute.
  - by vm_compute.
  - by vm_compute.
Defined.

(** ** The program as a whole *)

Lemma for_each_length {A B} (body : A → outcome B) (l : list A) (ys : list B) :
  for_each body l = Ok ys → length ys = length l.
Proof.
  revert ys. induction l as [|x l IH]; intros ys; cbn.
  - by intros [= <-].
  - destruct (body x) as [y|]; cbn; [|done].
    destruct (for_each body l) as [ys'|]; cbn; [|done].
    intros [= <-]. cbn. f_equal. by apply IH.
Qed.

Lemma for_each_Forall2 {A B} (body : A → outcome B) (l : list A) (ys : list B) :
  Forall2 (λ x y, body x = Ok y) l ys → for_each body l = Ok ys.
Proof.
  induction 1 as [|x y l ys Hx _ IH]; [done|].
  cbn. rewrite Hx. cbn. by rewrite IH.
Qed.

Lemma for_each_exists {A B} (body : A → outcome B) (P : A → B → Prop) (l : list A) :
  (∀ x, x ∈ l → ∃ y, body x = Ok y ∧ P x y) →
  ∃ ys, for_each body l = Ok ys ∧ Forall2 P l ys.
Proof.
  induction l as [|x l IH]; intros Hl.
  - by exists [].
  - destruct (Hl x) as (y & Hy & HP); [by left|].
    destruct IH as (ys & Hys & Hall); [intros z Hz; apply Hl; by right|].
    exists (y :: ys). cbn. rewrite Hy. cbn. rewrite Hys. cbn.
    split; [done|by constructor].
Qed.

Lemma scatter_records_length root_records nprocs index :
  scatter_records root_records nprocs = Ok index →
  0 < nprocs ∧ length index = nprocs.
Proof.
  unfold scatter_records. destruct nprocs as [|p]; [done|].
  cbn [replicate front mbind outcome_bind]. intros Hrun%for_each_length.
  rewrite length_seq in Hrun. split; [lia|done].
Qed.

Section MainFacts.
Context `{KP : KmerPrimitive} `{CT : CountType}.

(** X22: the program cannot complete on an index with fewer records than
    there are processes (an empty or missing index included): the
    constructor leaves rank 0 with an empty slice, and [GetMyReads]
    takes the [front()] of it. *)
Theorem too_few_records_stop_main
    (info_line : nat → list faidx_record_t → list ascii)
    (indet_record : nat → faidx_record_t) (indet_char : nat → ascii)
    (hll : HyperLogLog) (fai : option (list ascii)) (fasta : list ascii)
    (nprocs : nat) :
  (Z.of_nat nprocs ≤ INT_MAX)%Z →
  length (root_parse indet_record fai).1 < nprocs →
  (∃ slices, FastaIndex indet_record fai nprocs = Ok ([] :: slices)) ∧
  GetMyReads indet_char [] fasta = Fault EmptyVector ∧
  failed (main info_line indet_record indet_char hll fai fasta nprocs).
Proof.
  intros HP Hfew.
  assert (Hindex : ∃ slices, FastaIndex indet_record fai nprocs = Ok ([] :: slices)).
  { unfold FastaIndex. rewrite scatter_records_few by done.
    destruct (nprocs - 1) as [|p] eqn:Ep.
    - destruct ((root_parse indet_record fai).1); [by exists []|cbn in Hfew; lia].
    - cbn [replicate app]. by eexists. }
  split; [exact Hindex|]. split; [done|].
  destruct Hindex as (slices & Hindex). unfold main. rewrite Hindex.
  cbn [mbind outcome_bind].
  destruct (PrintInfo _ _ _) as [info|]; [|done].
  cbn [mbind outcome_bind for_each]. done.
Qed.

Lemma GetMyReads_sequences indet records seqs fasta :
  well_formed_slice records (Z.of_nat (length fasta)) →
  Forall (λ rec, len rec ≤ INT_MAX)%Z records →
  Forall2 (holds_sequence fasta) records seqs →
  GetMyReads indet records fasta = Ok seqs.
Proof.
  intros Hwf Hint Hseqs.
  destruct (materializers_run indet records fasta Hwf) as [_ Hold].
  destruct (Hold Hint) as (reads & -> & Hreads). f_equal.
  eapply holds_sequences_reads; [|done..]. by eapply well_formed_slice_bases.
Qed.

(** X23: a run of the program on an index that describes the FASTA file:
    rank 0 writes the line of every rank, every rank reads the
    sequences its records locate, and the map a rank is left with has
    as keys the canonical k-mers of these sequences, over all ranks,
    that the rank owns.  The bytes of k-mers a rank sends and receives
    are taken to be at most [INT_MAX], the read lengths too. *)
Theorem main_indexes_the_file
    (info_line : nat → list faidx_record_t → list ascii)
    (indet_record : nat → faidx_record_t) (indet_char : nat → ascii)
    (hll : HyperLogLog) (fai : option (list ascii)) (fasta : list ascii)
    (nprocs : nat) (index : list (list faidx_record_t))
    (world : list (list (list ascii))) :
  FastaIndex indet_record fai nprocs = Ok index →
  (Z.of_nat (length (concat (imap info_line index))) ≤ I64_MAX)%Z →
  Forall (λ records, well_formed_slice records (Z.of_nat (length fasta)) ∧
                     Forall (λ rec, len rec ≤ INT_MAX)%Z records) index →
  Forall2 (Forall2 (holds_sequence fasta)) index world →
  Forall (λ myreads, send_bytes myreads ≤ INT_MAX)%Z world →
  Forall (λ r, recv_bytes world r ≤ INT_MAX)%Z (seq 0 nprocs) →
  ∃ run,
    main info_line indet_record indet_char hll fai fasta nprocs = Ok run ∧
    info_lines run = imap info_line index ∧
    length (kmercounts run) = nprocs ∧
    ∀ r kmermap, kmercounts run !! r = Some kmermap →
      ∀ km, km ∈ dom kmermap ↔ GetKmerOwner km nprocs = r ∧ kmer_occurs world km.
Proof.
  intros Hindex Hinfo Hwf Hseqs Hsend Hrecv. unfold main. rewrite Hindex.
  cbn [mbind outcome_bind].
  destruct (scatter_records_length _ _ _ Hindex) as [HP Hlen].
  assert (Hworld : length world = nprocs).
  { by rewrite <- (Forall2_length _ _ _ Hseqs). }
  rewrite PrintInfo_root; [|destruct index; [cbn in Hlen; lia|done]|done].
  cbn [mbind outcome_bind].
  rewrite (for_each_Forall2 _ index world).
  2:{ rewrite Forall_forall in Hwf.
      eapply Forall2_impl_Forall with (R := λ records, records ∈ index);
        [exact Hseqs|by apply Forall_forall|].
      intros records seqs Hin Hs. cbn beta.
      destruct (Hwf records Hin) as [Hw Hi]. by apply GetMyReads_sequences. }
  cbn [mbind outcome_bind].
  rewrite Forall_forall in Hsend. rewrite Forall_forall in Hrecv.
  destruct (for_each_exists (GetKmerCountMapKeys hll world)
              (λ r run, dom run.1 = list_to_set (incoming world r)) (seq 0 nprocs))
    as (runs & -> & Hruns).
  { intros r Hr. pose proof Hr as Hr'%elem_of_seq.
    destruct (router_run hll world r ltac:(lia) Hsend (Hrecv r Hr))
      as (kmermap & Hrun & Hdom).
    eexists. split; [exact Hrun|exact Hdom]. }
  cbn [mbind outcome_bind]. eexists. split; [done|].
  cbn [info_lines kmercounts]. split; [done|].
  pose proof (Forall2_length _ _ _ Hruns) as Hrl. rewrite length_seq in Hrl.
  split; [rewrite length_zip_with; lia|].
  intros r kmermap Hr km.
  apply lookup_zip_with_Some in Hr as (myreads & run & -> & _ & Hrun).
  unfold GetKmerCountMapValues.
  assert (Hlt : r < nprocs) by (apply lookup_lt_Some in Hrun; lia).
  destruct (Forall2_lookup_r _ _ _ _ _ Hruns Hrun) as (r' & Hr' & Hdom).
  apply lookup_seq in Hr' as [-> _]. cbn in Hdom.
  by rewrite Hdom, elem_of_list_to_set, elem_of_incoming, Hworld.
Qed.

End MainFacts.

Lemma too_few_records_stop_main_witness :
  failed (main (KP:=byte_kmers 6) (CT:=count_i64) (λ _ _, [])
            (λ _, FaidxRecord 0 0 0) (λ _, "?"%char) counting_sketch
            (Some (list_ascii_of_string "r1 10 4 4 5" ++ [LF])) sample_fasta 2).
Proof.
  apply (too_few_records_stop_main (KP:=byte_kmers 6) (CT:=count_i64) (λ _ _, [])
           (λ _, FaidxRecord 0 0 0) (λ _, "?"%char) counting_sketch
           (Some (list_ascii_of_string "r1 10 4 4 5" ++ [LF])) sample_fasta 2).
  - by vm_compute.
  - vm_compute. lia.
Defined.

Lemma main_indexes_the_file_witness :
  ∃ run,
    main (KP:=byte_kmers 6) (CT:=count_i64)
      (λ r _, list_ascii_of_string "rank " ++ [digit_char (Z.of_nat r)])
      (λ _, FaidxRecord 0 0 0) (λ _, "?"%char) counting_sketch
      (Some (fai_text [(list_ascii_of_string "r1", FaidxRecord 10 4 4, 5%Z);
                       (list_ascii_of_string "r2", FaidxRecord 4 21 4, 5%Z)]))
      sample_fasta 2 = Ok run ∧
    info_lines run = [list_ascii_of_string "rank 0"; list_ascii_of_string "rank 1"] ∧
    length (kmercounts run) = 2.
Proof.
  destruct (main_indexes_the_file (KP:=byte_kmers 6) (CT:=count_i64)
      (λ r _, list_ascii_of_string "rank " ++ [digit_char (Z.of_nat r)])
      (λ _, FaidxRecord 0 0 0) (λ _, "?"%char) counting_sketch
      (Some (fai_text [(list_ascii_of_string "r1", FaidxRecord 10 4 4, 5%Z);
                       (list_ascii_of_string "r2", FaidxRecord 4 21 4, 5%Z)]))
      sample_fasta 2
      [[FaidxRecord 10 4 4]; [FaidxRecord 4 21 4]]
      [[list_ascii_of_string "ACGTACGTAC"]; [list_ascii_of_string "TTTT"]])
    as (run & Hrun & Hinfo & Hlen & _).
  - by vm_compute.
  - by vm_compute.
  - repeat constructor; by vm_compute.
  - repeat constructor.
    + exists (list_ascii_of_string ">r1" ++ [LF]),
             (list_ascii_of_string ">r2" ++ [LF] ++ list_ascii_of_string "TTTT" ++ [LF]).
      by vm_compute.
    + exists (list_ascii_of_string ">r1" ++ [LF] ++ list_ascii_of_string "ACGT" ++ [LF]
                ++ list_ascii_of_string "ACGT" ++ [LF] ++ list_ascii_of_string "AC"
                ++ [LF] ++ list_ascii_of_string ">r2" ++ [LF]), [].
      by vm_compute.
  - repeat constructor; by vm_compute.
  - repeat constructor; by vm_compute.
  - exists run. split; [exact Hrun|]. split; [|exact Hlen].
    rewrite Hinfo. by vm_compute.
Defined.

(** ** The sequence ranges of the later [GetMyReads] *)





(** ** The materializers on records the file does not hold *)

(** X11: a record whose [bases] field is 0 at the end of a slice (a line of
    the index that spells 0 there) makes both materializers divide by
    zero in the formula of [endpos]. *)
Theorem zero_bases_divide_by_zero (indet : nat → ascii)
    (records : list faidx_record_t) (last_record : faidx_record_t)
    (fasta : list ascii) :
  last records = Some last_record → bases last_record = 0%Z →
  GetMyReads indet records fasta = Fault DivideByZero ∧
  GetReadsFromRecords indet records fasta = Fault DivideByZero.
Proof.
  intros Hlast Hbases.
  assert (Hbounds : ∀ clamp,
    chunk_bounds clamp records (Z.of_nat (length fasta)) = Fault DivideByZero).
  { intros clamp. unfold chunk_bounds, back. rewrite Hlast.
    destruct records as [|first_record records]; [done|].
    cbn [front mbind outcome_bind]. unfold udiv.
    by rewrite bool_decide_eq_true_2. }
  unfold GetMyReads, GetReadsFromRecords, materialize,
    GetMyReads_bounds, GetReadsFromRecords_bounds.
  by rewrite !Hbounds.
Qed.

Lemma zero_bases_divide_by_zero_witness :
  GetMyReads (λ _, "?"%char) [FaidxRecord 10 4 4; FaidxRecord 4 21 0] sample_fasta
    = Fault DivideByZero.
Proof.
  destruct (zero_bases_divide_by_zero (λ _, "?"%char)
              [FaidxRecord 10 4 4; FaidxRecord 4 21 0] (FaidxRecord 4 21 0)
              sample_fasta) as [Hold _]; [done|done|exact Hold].
Defined.

(** X12: when the file ends before the first record of the slice starts (an
    empty [reads.fa], say), the later revision asks for a chunk of
    negative size: the [std::min] clamp puts [endpos] before
    [startpos], and the vector cannot be allocated. *)
Theorem short_file_fails_the_allocation (indet : nat → ascii)
    (records : list faidx_record_t) (first_record last_record : faidx_record_t)
    (fasta : list ascii) :
  head records = Some first_record → last records = Some last_record →
  (0 ≤ pos first_record ≤ I64_MAX)%Z →
  (0 ≤ pos last_record)%Z → (0 ≤ len last_record)%Z → (0 < bases last_record)%Z →
  (pos first_record ≤ record_end last_record ≤ I64_MAX)%Z →
  (Z.of_nat (length fasta) < pos first_record)%Z →
  GetReadsFromRecords indet records fasta = Fault BadAlloc.
Proof.
  intros Hh Hl Hp0 Hpl Hll Hbl He Hshort.
  unfold GetReadsFromRecords, materialize, GetReadsFromRecords_bounds.
  rewrite (chunk_bounds_Ok Z.min _ _ first_record last_record) by (try done; lia).
  cbn [mbind outcome_bind].
  rewrite Z.min_r by lia.
  set (size := (Z.of_nat (length fasta) - pos first_record)%Z).
  assert (Hsize : (- I64_MAX ≤ size < 0)%Z) by (subst size; lia).
  rewrite to_i64_id by (unfold I64_MAX in *; lia).
  unfold vector_new.
  assert (Hu : to_u64 size = (size + 2 ^ 64)%Z).
  { unfold to_u64, wrap_unsigned. unfold I64_MAX in *.
    change (2 ^ 63)%Z with 9223372036854775808%Z in *.
    change (2 ^ 64)%Z with 18446744073709551616%Z.
    replace size with (size + 18446744073709551616
                       + (-1) * 18446744073709551616)%Z at 1 by lia.
    rewrite Z.mod_add, Z.mod_small by lia. done. }
  rewrite Hu, bool_decide_eq_false_2; [done|].
  unfold I64_MAX in *.
  change (2 ^ 63)%Z with 9223372036854775808%Z in *.
  change (2 ^ 64)%Z with 18446744073709551616%Z. lia.
Qed.

Lemma short_file_fails_the_allocation_witness :
  GetReadsFromRecords (λ _, "?"%char) sample_records [] = Fault BadAlloc.
Proof.
  apply (short_file_fails_the_allocation (λ _, "?"%char) sample_records
           (FaidxRecord 10 4 4) (FaidxRecord 4 21 4) []); by vm_compute.
Defined.

Lemma file_read_at_pad fasta offset count k :
  (0 ≤ offset)%Z → k < Z.to_nat count →
  file_read_at fasta offset count (replicate (Z.to_nat count) Ascii.zero) !! k
    = Some (default Ascii.zero (fasta !! (Z.to_nat offset + k))).
Proof.
  intros Ho Hk. unfold file_read_at.
  rewrite bool_decide_eq_false_2 by lia.
  set (data := take (Z.to_nat count) (drop (Z.to_nat offset) fasta)).
  assert (Hdata : length data = Z.to_nat count `min` (length fasta - Z.to_nat offset)).
  { subst data. by rewrite length_take, length_drop. }
  destruct (decide (k < length data)) as [Hlt|Hge].
  - rewrite lookup_app_l by done. subst data.
    rewrite lookup_take_lt, lookup_drop by lia.
    destruct (fasta !! (Z.to_nat offset + k)) as [x|] eqn:Hx; [done|].
    apply lookup_ge_None in Hx. lia.
  - rewrite lookup_app_r by lia. rewrite lookup_drop.
    rewrite lookup_replicate_2 by lia.
    by rewrite (lookup_ge_None_2 fasta) by lia.
Qed.

(** X13: on a slice that has no read longer than [INT_MAX],
    [GetMyReads] of [FastaIndex.cpp] does not notice a file (of fewer
    than 2^63 bytes) that is shorter than the index says: with [endpos]
    clamped by [std::max] the chunk always reaches the end of the last
    record, the bytes the file does not have stay the zeros the chunk
    was created with, and every read comes back with its full length,
    NUL characters standing where the file ended.  [filesize] is the
    size of the file the index was made for. *)
Theorem GetMyReads_pads_a_short_file (indet : nat → ascii)
    (records : list faidx_record_t) (fasta : list ascii) (filesize : Z) :
  well_formed_slice records filesize →
  Forall (λ rec, len rec ≤ INT_MAX)%Z records →
  (Z.of_nat (length fasta) ≤ I64_MAX)%Z →
  ∃ reads,
    GetMyReads indet records fasta = Ok reads ∧
    Forall2 (λ rec read,
      Z.of_nat (length read) = len rec ∧
      ∀ j, (0 ≤ j < len rec)%Z →
        read !! Z.to_nat j
          = Some (default Ascii.zero
                    (fasta !! Z.to_nat (pos rec + j + j / bases rec)))) records reads.
Proof.
  intros Hwf Hint Hfile.
  pose proof (well_formed_slice_len _ _ Hwf Hint) as Hlens.
  unfold well_formed_slice in Hwf.
  destruct (head records) as [first_record|] eqn:Hh; [|done].
  destruct (last records) as [last_record|] eqn:Hl; [|done].
  destruct Hwf as (Hp0 & He & _ & Hall).
  assert (Hrec : ∀ rec, rec ∈ records →
    (0 < len rec)%Z ∧ (0 < bases rec)%Z ∧ (pos first_record ≤ pos rec)%Z ∧
    (touched_end rec ≤ record_end last_record)%Z ∧
    (pos rec + len rec ≤ touched_end rec)%Z).
  { intros rec Hin. rewrite Forall_forall in Hall.
    destruct (Hall rec Hin) as (? & ? & ? & ?).
    repeat (split; [done || lia|]). unfold touched_end.
    assert (0 ≤ (len rec - 1) / bases rec)%Z by (apply Z.div_pos; lia). lia. }
  destruct (Hrec first_record) as (Hf1 & Hf2 & _ & Hf4 & Hf5);
    [by apply head_Some_elem_of|].
  destruct (Hrec last_record) as (Hl1 & Hl2 & Hl3 & Hl4 & Hl5);
    [by apply last_Some_elem_of|].
  set (startpos := pos first_record).
  set (endpos := Z.max (record_end last_record) (Z.of_nat (length fasta))).
  destruct (maxlen_size_t_spec records I64_MAX) as [Hmb Hml].
  { eapply Forall_impl; [exact Hlens|]. intros rec ?. cbn beta in *.
    unfold INT_MAX, I64_MAX in *. lia. }
  { unfold I64_MAX. lia. }
  unfold GetMyReads, materialize, GetMyReads_bounds.
  rewrite (chunk_bounds_Ok Z.max _ _ first_record last_record) by (try done; lia).
  cbn [mbind outcome_bind]. fold startpos endpos.
  rewrite (to_i64_id (endpos - startpos)) by (unfold I64_MAX in *; lia).
  rewrite vector_new_Ok by lia. cbn [mbind outcome_bind].
  rewrite maxlen_int_size_t by done.
  unfold new_chars. rewrite bool_decide_eq_true_2 by done.
  cbn [mbind outcome_bind].
  set (mychunk := file_read_at _ _ _ _).
  assert (Hchunk : Z.of_nat (length mychunk) = (endpos - startpos)%Z).
  { subst mychunk. rewrite file_read_at_length; rewrite length_replicate; lia. }
  set (seqbuf := indet <$> _).
  assert (Hseq : Z.of_nat (length seqbuf) = maxlen_size_t records).
  { subst seqbuf. rewrite length_fmap, length_seq. lia. }
  destruct (copy_reads_Ok mychunk startpos records) with (seqbuf := seqbuf)
    (reads := @nil (list ascii)) as (out & -> & Hout).
  - lia.
  - lia.
  - rewrite Hchunk, Hseq. apply Forall_forall. intros rec Hin.
    destruct (Hrec rec Hin) as (? & ? & ? & ? & ?).
    rewrite Forall_forall in Hml. specialize (Hml rec Hin). cbn beta in Hml.
    unfold record_fits. split; [lia|]. split; [done|]. intros _.
    unfold touched_end in *. subst startpos endpos. lia.
  - exists out. cbn [app]. split; [done|].
    eapply Forall2_impl_Forall with (R := λ rec, rec ∈ records);
      [exact Hout|by apply Forall_forall|].
    intros rec read Hin (Hlen & Hcont). split; [done|].
    intros j Hj. rewrite (Hcont j Hj).
    destruct (Hrec rec Hin) as (? & ? & ? & Ht & ?).
    assert (Hjb : (0 ≤ j / bases rec ≤ (len rec - 1) / bases rec)%Z).
    { split; [apply Z.div_pos; lia|apply Z.div_le_mono; lia]. }
    subst mychunk. rewrite file_read_at_pad.
    + do 3 f_equal. subst startpos. lia.
    + subst startpos. lia.
    + unfold touched_end in Ht. subst startpos endpos. lia.
Qed.

Lemma GetMyReads_pads_a_short_file_witness :
  ∃ reads,
    GetMyReads (λ _, "?"%char) sample_records
      (list_ascii_of_string ">r1" ++ [LF] ++ list_ascii_of_string "ACG") = Ok reads ∧
    reads !! 1 = Some [Ascii.zero; Ascii.zero; Ascii.zero; Ascii.zero].
Proof.
  destruct (GetMyReads_pads_a_short_file (λ _, "?"%char) sample_records
              (list_ascii_of_string ">r1" ++ [LF] ++ list_ascii_of_string "ACG")
              (Z.of_nat (length sample_fasta))) as (reads & Hrun & Hreads).
  - unfold well_formed_slice, sample_records. cbn [head last].
    repeat split; [by vm_compute ..|].
    repeat constructor; by vm_compute.
  - repeat constructor; by vm_compute.
  - by vm_compute.
  - exists reads. split; [exact Hrun|].
    pose proof Hrun as Hc. vm_compute in Hc. by injection Hc as <-.
Defined.

(** ** A line that does not spell a number *)

(** X7: when the second word of a line is not a number, [len] is set to 0
    and [pos] and [bases] keep whatever the uninitialised local held:
    the extraction of [len] fails, and the stream, once failed, makes
    the two extractions after it do nothing.  No error is raised. *)
Theorem garbled_length_leaves_the_record_unset (indet : faidx_record_t)
    (name : list ascii) (c : ascii) (rest : list ascii) (names : list (list ascii)) :
  valid_name name →
  is_space c = false → is_digit c = false →
  Ascii.eqb c "-" = false → Ascii.eqb c "+" = false →
  GetFaidxRecord indet (name ++ TAB :: c :: rest) names
    = ({| len := 0; pos := pos indet; bases := bases indet |}, names ++ [name]).
Proof.
  intros Hname Hspace Hdigit Hminus Hplus.
  unfold GetFaidxRecord. rewrite extract_string_name by done.
  unfold extract_ulong at 1. cbn [good eofbit failbit buf negb andb].
  cbn [skip_while]. rewrite is_space_TAB, Hspace.
  cbn [strip_sign]. rewrite Hminus, Hplus.
  cbn [scan_while skip_while]. rewrite Hdigit.
  unfold extract_ulong. cbn [good eofbit failbit buf negb andb set_failbit].
  done.
Qed.

Lemma garbled_length_leaves_the_record_unset_witness :
  GetFaidxRecord (FaidxRecord 11 22 33) (list_ascii_of_string "r1" ++ TAB ::
      list_ascii_of_string "x10" ++ TAB :: list_ascii_of_string "4") []
  = (FaidxRecord 0 22 33, [list_ascii_of_string "r1"]).
Proof.
  apply (garbled_length_leaves_the_record_unset (FaidxRecord 11 22 33)
           (list_ascii_of_string "r1") "x"%char
           (list_ascii_of_string "10" ++ TAB :: list_ascii_of_string "4") []);
    try done.
  split; [done|]. by repeat constructor.
Defined.

(** ** A rank with 2^31 bytes of k-mers to send *)

Lemma wide_bytes_length w :
  length w = 1 → length (wide_bytes (wide_rep w)) = S (Z.to_nat (2 ^ 30 - 1)).
Proof. intros _. apply length_replicate. Qed.

Lemma wide_of_bytes_wide_bytes w :
  length w = 1 → wide_of_bytes (wide_bytes (wide_rep w)) = wide_rep w.
Proof.
  intros _. unfold wide_bytes. cbn [replicate wide_of_bytes].
  by destruct (wide_rep w).
Qed.

Lemma wide_owner_lt (km : bool) (nprocs : nat) :
  0 < nprocs → (if km then 0 else 1) mod nprocs < nprocs.
Proof. intros HP. apply Nat.mod_upper_bound. lia. Qed.

Definition wide_kmers : KmerPrimitive :=
  {| TKmer := bool;
     TKmer_eq_dec := _;
     TKmer_countable := _;
     kmer_size := 1;
     N_BYTES := S (Z.to_nat (2 ^ 30 - 1));
     GetRep := wide_rep;
     GetKmerOwner := λ km nprocs, (if km then 0 else 1) mod nprocs;
     CopyDataInto := wide_bytes;
     FromBytes := wide_of_bytes;
     N_BYTES_pos := Nat.lt_0_succ _;
     GetKmerOwner_lt := wide_owner_lt;
     CopyDataInto_length := wide_bytes_length;
     FromBytes_CopyDataInto := wide_of_bytes_wide_bytes |}.

Lemma pack_sends_overflow_witness :
  pack_sends (KP:=wide_kmers) (CT:=count_i64) 2 [list_ascii_of_string "AC"]
    = Fault BadAlloc.
Proof.
  assert (Hcalls : handler_calls (KP:=wide_kmers) [list_ascii_of_string "AC"]
                   = [true; false]) by (by lazy).
  apply (pack_sends_overflow (KP:=wide_kmers) (CT:=count_i64) 2
           [list_ascii_of_string "AC"]).
  - lia.
  - intros i. unfold bucket_to. rewrite Hcalls.
    set (bucket := filter _ _).
    assert (Hlen : length bucket ≤ 1).
    { subst bucket. destruct i as [|[|i]]; lazy; lia. }
    change (N_BYTES (KmerPrimitive:=wide_kmers)) with (S (Z.to_nat (2 ^ 30 - 1))).
    revert Hlen. generalize (length bucket). intros n Hn. unfold INT_MAX.
    destruct n as [|[|n]]; [rewrite Nat.mul_0_r|rewrite Nat.mul_1_r|]; lia.
  - unfold send_bytes. rewrite Hcalls.
    change (N_BYTES (KmerPrimitive:=wide_kmers)) with (S (Z.to_nat (2 ^ 30 - 1))).
    cbn [length]. lia.
Defined.

(** ** From the index to the reads of every rank *)

Lemma touched_le_record_end rec :
  (0 < len rec)%Z → (0 < bases rec)%Z →
  (pos rec < touched_end rec ≤ record_end rec)%Z ∧
  (record_end rec ≤ touched_end rec + 1)%Z.
Proof.
  intros Hl Hb. unfold touched_end, record_end.
  assert (0 ≤ (len rec - 1) / bases rec ≤ len rec / bases rec)%Z.
  { split; [apply Z.div_pos; lia|apply Z.div_le_mono; lia]. }
  assert (len rec / bases rec ≤ (len rec - 1) / bases rec + 1)%Z.
  { replace ((len rec - 1) / bases rec + 1)%Z
      with ((len rec - 1 + 1 * bases rec) / bases rec)%Z
      by (rewrite Z.div_add by lia; done).
    apply Z.div_le_mono; lia. }
  lia.
Qed.

Lemma index_describes_sorted records filesize :
  index_describes records filesize →
  ∀ j i ri rj, i < j → records !! i = Some ri → records !! j = Some rj →
    (record_end ri ≤ pos rj)%Z.
Proof.
  intros (_ & Hall & Hnext). rewrite Forall_forall in Hall.
  induction j as [|j IH]; intros i ri rj Hij Hi Hj; [lia|].
  destruct (decide (i = j)) as [->|Hne]; [by eapply Hnext|].
  destruct (lookup_lt_is_Some_2 records j) as [rj' Hj'].
  { apply lookup_lt_Some in Hj. lia. }
  pose proof (IH i ri rj' ltac:(lia) Hi Hj').
  pose proof (Hnext j rj' rj Hj' Hj).
  destruct (Hall rj' (list_elem_of_lookup_2 _ _ _ Hj')) as (? & ? & ? & ?).
  pose proof (touched_le_record_end rj'). lia.
Qed.

Lemma index_describes_pos records filesize i rec :
  index_describes records filesize → records !! i = Some rec →
  (Z.of_nat i ≤ pos rec)%Z.
Proof.
  intros Hd. pose proof Hd as (_ & Hall & Hnext). rewrite Forall_forall in Hall.
  revert rec. induction i as [|i IH]; intros rec Hi.
  - destruct (Hall rec (list_elem_of_lookup_2 _ _ _ Hi)) as (? & ? & ? & ?). lia.
  - destruct (lookup_lt_is_Some_2 records i) as [prev Hprev].
    { apply lookup_lt_Some in Hi. lia. }
    pose proof (IH prev Hprev). pose proof (Hnext i prev rec Hprev Hi).
    destruct (Hall prev (list_elem_of_lookup_2 _ _ _ Hprev)) as (? & ? & ? & ?).
    pose proof (touched_le_record_end prev). lia.
Qed.

Lemma index_describes_length records filesize :
  index_describes records filesize → (Z.of_nat (length records) ≤ I64_MAX)%Z.
Proof.
  intros Hd.
  destruct (decide (length records = 0)) as [->|Hpos]; [unfold I64_MAX; lia|].
  destruct (lookup_lt_is_Some_2 records (length records - 1)) as [rec Hrec]; [lia|].
  pose proof (index_describes_pos _ _ _ _ Hd Hrec).
  destruct Hd as (Hf & Hall & _). rewrite Forall_forall in Hall.
  destruct (Hall rec (list_elem_of_lookup_2 _ _ _ Hrec)) as (? & ? & ? & ?).
  pose proof (touched_le_record_end rec). lia.
Qed.

(** Every run of consecutive records of such an index is a slice the
    materializers accept. *)
Lemma index_describes_slice records filesize k n :
  index_describes records filesize →
  take n (drop k records) ≠ [] →
  well_formed_slice (take n (drop k records)) filesize.
Proof.
  intros Hd Hne. pose proof Hd as (Hf & Hall & _). rewrite Forall_forall in Hall.
  set (slice := take n (drop k records)) in *.
  assert (Hlook : ∀ a rec, slice !! a = Some rec → records !! (k + a) = Some rec).
  { intros a rec Ha. subst slice.
    apply lookup_take_Some in Ha as [Ha _]. by rewrite lookup_drop in Ha. }
  unfold well_formed_slice.
  destruct (head slice) as [first_record|] eqn:Hh;
    [|by apply head_None in Hh].
  destruct (last slice) as [last_record|] eqn:Hl;
    [|by apply last_None in Hl].
  rewrite head_lookup in Hh. rewrite last_lookup in Hl.
  pose proof (Hlook _ _ Hh) as Hfirst. pose proof (Hlook _ _ Hl) as Hlast.
  destruct (Hall first_record (list_elem_of_lookup_2 _ _ _ Hfirst)) as (? & ? & ? & ?).
  destruct (Hall last_record (list_elem_of_lookup_2 _ _ _ Hlast)) as (? & ? & ? & ?).
  pose proof (touched_le_record_end last_record).
  split; [lia|]. split; [lia|]. split; [lia|].
  apply Forall_forall. intros rec Hin.
  apply list_elem_of_lookup in Hin as [a Ha].
  pose proof (Hlook _ _ Ha) as Hrec.
  destruct (Hall rec (list_elem_of_lookup_2 _ _ _ Hrec)) as (? & ? & ? & ?).
  pose proof (touched_le_record_end rec).
  pose proof (lookup_lt_Some _ _ _ Ha) as Halt.
  split; [done|]. split; [done|]. split.
  - destruct (decide (a = 0)) as [->|Hpos].
    { rewrite Hh in Ha. injection Ha as ->. lia. }
    pose proof (index_describes_sorted _ _ Hd (k + a) (k + 0) first_record rec
                  ltac:(lia) Hfirst Hrec).
    pose proof (touched_le_record_end first_record). lia.
  - destruct (decide (a = pred (length slice))) as [->|Hnl].
    { rewrite Hl in Ha. injection Ha as ->. lia. }
    pose proof (index_describes_sorted _ _ Hd (k + pred (length slice)) (k + a)
                  rec last_record ltac:(lia) Hrec Hlast).
    lia.
Qed.

Lemma Forall2_concat_blocks {A B} (P : A → B → Prop) (ls : list (list A))
    (ks : list (list B)) :
  Forall2 (Forall2 P) ls ks → Forall2 P (concat ls) (concat ks).
Proof.
  induction 1 as [|l k ls ks Hlk _ IH]; [constructor|].
  cbn [concat]. by apply Forall2_app.
Qed.

(** The blocks of the scatter on an index that describes the file. *)
Lemma blocks_of_index (records : list faidx_record_t) (fasta : list ascii) nprocs :
  index_describes records (Z.of_nat (length fasta)) →
  0 < nprocs → nprocs ≤ length records →
  let q := length records / nprocs in
  let index :=
    ((λ r, take q (drop (r * q) records)) <$> seq 0 (nprocs - 1))
      ++ [drop ((nprocs - 1) * q) records] in
  scatter_records records nprocs = Ok index ∧
  Forall (λ slice, well_formed_slice slice (Z.of_nat (length fasta))) index ∧
  concat index = records.
Proof.
  intros Hd HP HN q index.
  pose proof (index_describes_length _ _ Hd) as Hlen.
  assert (Hq : 0 < q) by (subst q; apply Nat.div_str_pos; lia).
  assert (Hqn : nprocs * q ≤ length records)
    by (subst q; apply Nat.Div0.mul_div_le).
  split; [by apply scatter_records_blocks|]. split.
  - apply Forall_app. split.
    + apply Forall_fmap, Forall_forall. intros r Hr%elem_of_seq. cbn beta.
      apply index_describes_slice; [done|].
      intros Hnil. apply (f_equal length) in Hnil.
      rewrite length_take, length_drop in Hnil. cbn in Hnil. nia.
    + apply Forall_singleton.
      rewrite <- (take_ge (drop _ records) (length records))
        by (rewrite length_drop; lia).
      apply index_describes_slice; [done|].
      intros Hnil. apply (f_equal length) in Hnil.
      rewrite length_take, length_drop in Hnil. cbn in Hnil. nia.
  - subst index. rewrite concat_app, concat_blocks. cbn [concat].
    rewrite app_nil_r. apply take_drop.
Qed.

(** X14: the ingestion as a whole, for an index that describes the file
    ([index_describes]) and has at least one record per process.  The
    constructor gives every rank a block of records, and
    [GetReadsFromRecords] returns on every rank; the reads of the
    ranks, put one after the other in rank order, are one read per
    record of the index, in the order of the index, each with the
    length its record gives and holding the bytes of the file at
    [pos + j + j / bases].  When no read is longer than [INT_MAX],
    [GetMyReads] of [FastaIndex.cpp] returns the same reads on every
    rank.  When the records locate sequences laid out in lines that
    each end with a line feed, the reads are these sequences. *)
Theorem ingestion_returns_the_sequences (indet_record : nat → faidx_record_t)
    (indet : nat → ascii) (fai : option (list ascii)) (fasta : list ascii)
    (nprocs : nat) :
  let records := (root_parse indet_record fai).1 in
  0 < nprocs → nprocs ≤ length records →
  index_describes records (Z.of_nat (length fasta)) →
  ∃ index world,
    FastaIndex indet_record fai nprocs = Ok index ∧
    for_each (λ myrecords, GetReadsFromRecords indet myrecords fasta) index = Ok world ∧
    (Forall (λ rec, len rec ≤ INT_MAX)%Z records →
     for_each (λ myrecords, GetMyReads indet myrecords fasta) index = Ok world) ∧
    length world = nprocs ∧
    Forall2 (read_of_record fasta 0) records (concat world) ∧
    (∀ seqs, Forall2 (holds_sequence fasta) records seqs → concat world = seqs).
Proof.
  intros records HP HN Hd.
  destruct (blocks_of_index records fasta nprocs Hd HP HN)
    as (Hscatter & Hwf & Hconcat).
  cbn zeta in Hscatter, Hwf, Hconcat.
  set (index := _ ++ [drop _ records]) in *.
  rewrite Forall_forall in Hwf.
  destruct (for_each_exists (λ myrecords, GetReadsFromRecords indet myrecords fasta)
              (λ slice reads, Forall2 (read_of_record fasta 0) slice reads) index)
    as (world & Hworld & Hreads).
  { intros slice Hin.
    destruct (materializers_run indet slice fasta (Hwf slice Hin))
      as [(reads & Hrun & Hr) _]. by exists reads. }
  assert (Hall : Forall2 (read_of_record fasta 0) records (concat world)).
  { rewrite <- Hconcat. by apply Forall2_concat_blocks. }
  exists index, world. split; [exact Hscatter|]. split; [exact Hworld|].
  split; [|split; [|split; [exact Hall|]]].
  - intros Hint. rewrite <- Hconcat in Hint. apply Forall_concat in Hint.
    rewrite Forall_forall in Hint.
    apply for_each_Forall2.
    eapply Forall2_impl_Forall with (R := λ slice, slice ∈ index);
      [exact Hreads|by apply Forall_forall|].
    intros slice reads Hin Hr. cbn beta in *.
    destruct (materializers_run indet slice fasta (Hwf slice Hin)) as [_ Hold].
    destruct (Hold (Hint slice Hin)) as (reads' & -> & Hr'). f_equal.
    by eapply reads_of_records_unique.
  - rewrite <- (Forall2_length _ _ _ Hreads). subst index.
    rewrite length_app, length_fmap, length_seq. cbn. lia.
  - intros seqs Hseqs. eapply holds_sequences_reads; [|exact Hseqs|exact Hall].
    destruct Hd as (_ & Hrec & _). eapply Forall_impl; [exact Hrec|].
    by intros rec (_ & ? & _).
Qed.

Lemma ingestion_returns_the_sequences_witness :
  ∃ index world,
    FastaIndex (λ _, FaidxRecord 0 0 0)
      (Some (list_ascii_of_string "r 4 3 4 5" ++ [LF])) 1 = Ok index ∧
    for_each (λ myrecords,
                GetReadsFromRecords (λ _, "?"%char) myrecords
                  (list_ascii_of_string ">r" ++ [LF] ++ list_ascii_of_string "ACGT"))
      index = Ok world ∧
    for_each (λ myrecords,
                GetMyReads (λ _, "?"%char) myrecords
                  (list_ascii_of_string ">r" ++ [LF] ++ list_ascii_of_string "ACGT"))
      index = Ok world ∧
    concat world = [list_ascii_of_string "ACGT"].
Proof.
  assert (Hrecords :
    (root_parse (λ _, FaidxRecord 0 0 0)
       (Some (list_ascii_of_string "r 4 3 4 5" ++ [LF]))).1
    = [FaidxRecord 4 3 4]) by (by vm_compute).
  destruct (ingestion_returns_the_sequences (λ _, FaidxRecord 0 0 0) (λ _, "?"%char)
      (Some (list_ascii_of_string "r 4 3 4 5" ++ [LF]))
      (list_ascii_of_string ">r" ++ [LF] ++ list_ascii_of_string "ACGT") 1)
    as (index & world & Hindex & Hnew & Hold & _ & Hreads & _).
  - lia.
  - rewrite Hrecords. cbn. lia.
  - rewrite Hrecords. split; [by vm_compute|]. split.
    + repeat constructor; by vm_compute.
    + intros [|i] rec next; cbn; intros [= <-] Hnext; done.
  - exists index, world. split; [exact Hindex|]. split; [exact Hnew|].
    split.
    + apply Hold. rewrite Hrecords. repeat constructor; by vm_compute.
    + pose proof Hindex as Hi. vm_compute in Hi. injection Hi as <-.
      pose proof Hnew as Hw. vm_compute in Hw. by injection Hw as <-.
Defined.

(** ** The router beyond the range of [int] *)

Lemma for_each_fault {A B} (body : A → outcome B) (l1 : list A) (x : A)
    (l2 : list A) (f : fault) :
  (∀ y, y ∈ l1 → ∃ z, body y = Ok z) → body x = Fault f →
  for_each body (l1 ++ x :: l2) = Fault f.
Proof.
  intros Hl1 Hx. induction l1 as [|y l1 IH]; cbn.
  - by rewrite Hx.
  - destruct (Hl1 y) as [z ->]; [by left|]. cbn.
    rewrite IH; [done|]. intros y' Hy'. apply Hl1. by right.
Qed.

Section RouterOverflow.
Context `{KP : KmerPrimitive} `{CT : CountType}.

(** C1: the key sets are lost once a rank has 2^31 bytes of k-mers to
    send.  When the k-mers of one rank take between 2^31 and 2^32 bytes
    in all, each of its buckets and the ranks before it staying within
    [INT_MAX] bytes, canonical k-mers occur in the dataset and have an
    owner among the ranks, but [GetKmerCountMapKeys] returns no map on
    any rank: [totsend], folded at [int] width by lines 132-133, is
    negative on that rank, and the send buffer of line 138 cannot be
    allocated. *)
Theorem router_fails_beyond_int_width (hll : HyperLogLog)
    (before after : list (list (list ascii))) (myreads : list (list ascii)) :
  let world := before ++ myreads :: after in
  let nprocs := length world in
  Forall (λ reads, send_bytes reads ≤ INT_MAX)%Z before →
  (∀ i, (Z.of_nat (N_BYTES * length (bucket_to nprocs myreads i)) ≤ INT_MAX)%Z) →
  (2 ^ 31 ≤ send_bytes myreads < 2 ^ 32)%Z →
  (∃ km, kmer_occurs world km ∧ GetKmerOwner km nprocs < nprocs) ∧
  ∀ r, GetKmerCountMapKeys hll world r = Fault BadAlloc ∧
       key_set (GetKmerCountMapKeys hll world r) = Fault BadAlloc.
Proof.
  intros world nprocs Hbefore Hbuckets Hbytes.
  assert (HP : 0 < nprocs).
  { subst nprocs world. rewrite length_app. cbn. lia. }
  split.
  - destruct (handler_calls myreads) as [|km calls] eqn:Hcalls.
    { unfold send_bytes in Hbytes. rewrite Hcalls in Hbytes. cbn [length] in Hbytes.
      rewrite Nat.mul_0_r in Hbytes. lia. }
    assert (Hkm : km ∈ handler_calls myreads) by (rewrite Hcalls; by left).
    apply elem_of_handler_calls in Hkm as (s & i & Hs & Hi & ->).
    exists (GetRep (window s i)). split; [|by apply GetKmerOwner_lt].
    exists myreads, s, i. split; [|done].
    subst world. apply elem_of_app. right. by left.
  - assert (Hrun : ∀ r, GetKmerCountMapKeys hll world r = Fault BadAlloc).
    { intros r. unfold GetKmerCountMapKeys. fold nprocs. subst world.
      rewrite (for_each_fault _ _ _ _ BadAlloc); [done| |].
      - intros reads Hin. rewrite Forall_forall in Hbefore.
        eexists. apply pack_sends_Ok; [done|]. by apply Hbefore.
      - apply pack_sends_negative_total; [done|done|].
        rewrite to_int_high_half by done. lia. }
    intros r. split; [done|]. unfold key_set. by rewrite Hrun.
Qed.

End RouterOverflow.

Lemma router_fails_beyond_int_width_witness :
  key_set (GetKmerCountMapKeys (KP:=wide_kmers) (CT:=count_i64) counting_sketch
             [[list_ascii_of_string "AC"]; []] 0) = Fault BadAlloc ∧
  key_set (GetKmerCountMapKeys (KP:=wide_kmers) (CT:=count_i64) counting_sketch
             [[list_ascii_of_string "AC"]; []] 1) = Fault BadAlloc.
Proof.
  assert (Hcalls : handler_calls (KP:=wide_kmers) [list_ascii_of_string "AC"]
                   = [true; false]) by (by lazy).
  destruct (router_fails_beyond_int_width (KP:=wide_kmers) (CT:=count_i64)
              counting_sketch [] [[]] [list_ascii_of_string "AC"]) as [_ Hrun].
  - constructor.
  - intros i. unfold bucket_to. rewrite Hcalls.
    set (bucket := filter _ _).
    assert (Hlen : length bucket ≤ 1).
    { subst bucket. destruct i as [|[|i]]; lazy; lia. }
    change (N_BYTES (KmerPrimitive:=wide_kmers)) with (S (Z.to_nat (2 ^ 30 - 1))).
    revert Hlen. generalize (length bucket). intros n Hn. unfold INT_MAX.
    destruct n as [|[|n]]; [rewrite Nat.mul_0_r|rewrite Nat.mul_1_r|]; lia.
  - unfold send_bytes. rewrite Hcalls.
    change (N_BYTES (KmerPrimitive:=wide_kmers)) with (S (Z.to_nat (2 ^ 30 - 1))).
    cbn [length]. lia.
  - split; apply Hrun.
Defined.

(** ** [GetMyReads] on a read of 2^31 characters *)

Lemma maxlen_int_step (acc : Z) (rec : faidx_record_t) :
  (- 2 ^ 31 ≤ acc < 2 ^ 31)%Z → (0 < len rec < 2 ^ 32)%Z →
  let acc' := to_int (Z.max (to_u64 acc) (len rec)) in
  (- 2 ^ 31 ≤ acc' < 2 ^ 31)%Z ∧
  ((acc < 0)%Z → (acc' < 0)%Z) ∧
  ((2 ^ 31 ≤ len rec)%Z → (acc' < 0)%Z).
Proof.
  intros Hacc Hlen acc'. subst acc'.
  unfold to_int, to_u64, wrap_signed, wrap_unsigned.
  change (2 ^ (32 - 1))%Z with 2147483648%Z.
  change (2 ^ 31)%Z with 2147483648%Z in *.
  change (2 ^ 32)%Z with 4294967296%Z in *.
  change (2 ^ 64)%Z with 18446744073709551616%Z.
  destruct (decide (acc < 0)%Z) as [Hneg|Hpos].
  - replace (acc mod 18446744073709551616)%Z with (acc + 18446744073709551616)%Z.
    2:{ replace acc with (acc + 18446744073709551616
                          + (-1) * 18446744073709551616)%Z at 2 by lia.
        rewrite Z.mod_add, Z.mod_small by lia. done. }
    rewrite Z.max_l by lia.
    replace (acc + 18446744073709551616 + 2147483648)%Z
      with (acc + 2147483648 + 4294967296 * 4294967296)%Z by lia.
    rewrite Z.mod_add, Z.mod_small by lia. lia.
  - rewrite (Z.mod_small acc) by lia.
    destruct (decide (len rec < 2147483648)%Z) as [Hshort|Hlong].
    + rewrite Z.mod_small by lia. lia.
    + replace (Z.max acc (len rec) + 2147483648)%Z
        with (Z.max acc (len rec) - 2147483648 + 1 * 4294967296)%Z by lia.
      rewrite Z.mod_add, Z.mod_small by lia. lia.
Qed.

(** With a read of 2^31 characters or more in the slice (and none of
    2^32 or more) the [int] accumulator of line 107 ends negative, and
    [maxlen] is a number of about 2^64. *)
Lemma maxlen_int_long (records : list faidx_record_t) :
  Forall (λ rec, 0 < len rec < 2 ^ 32)%Z records →
  Exists (λ rec, 2 ^ 31 ≤ len rec)%Z records →
  (I64_MAX < maxlen_int records)%Z.
Proof.
  intros Hall Hlong. unfold maxlen_int.
  enough (∀ acc, (- 2 ^ 31 ≤ acc < 2 ^ 31)%Z →
    (acc < 0)%Z ∨ Exists (λ rec, 2 ^ 31 ≤ len rec)%Z records →
    let res := fold_left (λ acc rec, to_int (Z.max (to_u64 acc) (len rec)))
                 records acc in
    (- 2 ^ 31 ≤ res < 0)%Z) as Hgen.
  { specialize (Hgen 0%Z ltac:(lia) (or_intror Hlong)). cbn zeta in Hgen.
    revert Hgen. generalize (fold_left
      (λ acc rec, to_int (Z.max (to_u64 acc) (len rec))) records 0%Z).
    intros res Hres. unfold to_u64, wrap_unsigned, I64_MAX.
    change (2 ^ 31)%Z with 2147483648%Z in *.
    change (2 ^ 63)%Z with 9223372036854775808%Z.
    change (2 ^ 64)%Z with 18446744073709551616%Z.
    replace res with (res + 18446744073709551616
                      + (-1) * 18446744073709551616)%Z by lia.
    rewrite Z.mod_add, Z.mod_small by lia. lia. }
  clear Hlong. induction Hall as [|rec records Hrec Hall IH]; intros acc Hacc Hor.
  - cbn. destruct Hor as [Hneg|Hex]; [lia|by apply Exists_nil in Hex].
  - cbn [fold_left]. cbn zeta.
    destruct (maxlen_int_step acc rec Hacc Hrec) as (Hrange & Hneg & Hlong).
    apply IH; [done|].
    destruct Hor as [Hn|Hex]; [left; by apply Hneg|].
    apply Exists_cons in Hex as [Hhere|Hlater]; [left; by apply Hlong|by right].
Qed.

(** C2: the materializer [main] calls does not return the reads of a
    slice that holds a read of 2^31 characters or more.  On a slice
    that describes the file, with such a read in it (and none of 2^32
    characters or more), [GetMyReads] of [FastaIndex.cpp] fails to
    allocate [seqbuf], because line 107 folds [maxlen] in an [int];
    [GetReadsFromRecords] of the later revision, which folds it in a
    [size_t], returns one read per record, in the order of the
    records, each of the length its record gives. *)
Theorem GetMyReads_fails_on_a_long_read (indet : nat → ascii)
    (records : list faidx_record_t) (fasta : list ascii) :
  well_formed_slice records (Z.of_nat (length fasta)) →
  Forall (λ rec, len rec < 2 ^ 32)%Z records →
  Exists (λ rec, 2 ^ 31 ≤ len rec)%Z records →
  GetMyReads indet records fasta = Fault BadAlloc ∧
  ∃ reads,
    GetReadsFromRecords indet records fasta = Ok reads ∧
    length reads = length records ∧
    ∀ i rec, records !! i = Some rec →
      ∃ read, reads !! i = Some read ∧ Z.of_nat (length read) = len rec.
Proof.
  intros Hwf Hshort Hlong. split.
  - assert (Hmax : (I64_MAX < maxlen_int records)%Z).
    { apply maxlen_int_long; [|done].
      unfold well_formed_slice in Hwf.
      destruct (head records), (last records); try done.
      destruct Hwf as (_ & _ & _ & Hall).
      rewrite Forall_forall in Hall. rewrite Forall_forall in Hshort.
      apply Forall_forall. intros rec Hin.
      destruct (Hall rec Hin) as (? & _). specialize (Hshort rec Hin).
      cbn beta in Hshort. lia. }
    unfold well_formed_slice in Hwf.
    destruct (head records) as [first_record|] eqn:Hh; [|done].
    destruct (last records) as [last_record|] eqn:Hl; [|done].
    destruct Hwf as (Hp0 & He & Hf & Hall). rewrite Forall_forall in Hall.
    destruct (Hall first_record) as (Hf1 & Hf2 & _ & Hf4);
      [by apply head_Some_elem_of|].
    destruct (Hall last_record) as (Hl1 & Hl2 & Hl3 & Hl4);
      [by apply last_Some_elem_of|].
    assert (Hfe : (pos first_record ≤ touched_end first_record)%Z).
    { unfold touched_end.
      assert (0 ≤ (len first_record - 1) / bases first_record)%Z
        by (apply Z.div_pos; lia). lia. }
    unfold GetMyReads, materialize, GetMyReads_bounds.
    rewrite (chunk_bounds_Ok Z.max _ _ first_record last_record)
      by (try done; lia).
    cbn [mbind outcome_bind].
    rewrite to_i64_id by (unfold I64_MAX in *; lia).
    rewrite vector_new_Ok by lia. cbn [mbind outcome_bind].
    unfold new_chars. by rewrite bool_decide_eq_false_2 by lia.
  - destruct (materializers_run indet records fasta Hwf)
      as [(reads & Hrun & Hreads) _].
    exists reads. split; [done|]. split; [by rewrite (Forall2_length _ _ _ Hreads)|].
    intros i rec Hi.
    destruct (Forall2_lookup_l _ _ _ _ _ Hreads Hi) as (read & Hr & Hlen & _).
    by exists read.
Qed.

Lemma GetMyReads_fails_on_a_long_read_witness :
  let fasta := replicate (Z.to_nat (2 ^ 32)) "A"%char in
  GetMyReads (λ _, "?"%char) [FaidxRecord (2 ^ 31) 4 80] fasta = Fault BadAlloc ∧
  ∃ reads,
    GetReadsFromRecords (λ _, "?"%char) [FaidxRecord (2 ^ 31) 4 80] fasta = Ok reads ∧
    length reads = 1.
Proof.
  intros fasta.
  assert (Hsize : Z.of_nat (length fasta) = (2 ^ 32)%Z).
  { subst fasta. rewrite length_replicate. apply Z2Nat.id. lia. }
  destruct (GetMyReads_fails_on_a_long_read (λ _, "?"%char)
              [FaidxRecord (2 ^ 31) 4 80] fasta) as [Hold (reads & Hnew & Hlen & _)].
  - rewrite Hsize. unfold well_formed_slice. cbn [head last].
    repeat split; [by vm_compute ..|].
    repeat constructor; by vm_compute.
  - repeat constructor; by vm_compute.
  - apply Exists_cons_hd. by vm_compute.
  - split; [exact Hold|]. exists reads. split; [exact Hnew|exact Hlen].
Defined.

